(** * Asteroid Destroyer: a shallow embedding of [Asteroidsgame.py]

    The simulation core of the game (entity motion, collisions, splitting,
    wave spawning, weapon cooldown, the pause / game-over / restart state
    machine) is translated function by function.

    Numbers.  Python [int]s are [Z].  Python [float]s are idealised as the
    real numbers [R]: rounding is not modelled, so every statement below
    about a float quantity is a statement about its exact real value.
    The three sources of non-determinism of the program are oracles:
    the random generator, the millisecond clock, and the player's input.
    Drawing is modelled by the scene it hands to the toolkit and sound
    synthesis by the frames it writes; the toolkit itself (window, fonts,
    mixer, playback) is left out.

    Binary64.  The wrap of the positions is modelled on binary64
    numbers as well (module [Binary64]): there rounding decides whether
    its bound holds. *)

From Stdlib Require Import Reals Lra Lia ZArith List Bool.
From Stdlib Require String PrimFloat FloatOps SpecFloat Uint63.
Import ListNotations.

Open Scope R_scope.

(** ** Game configuration *)

Definition WIDTH : Z := 960.
Definition HEIGHT : Z := 720.
Definition ASTEROID_MIN_RADIUS : Z := 16.
Definition ASTEROID_MAX_RADIUS : Z := 60.
Definition ASTEROID_SPLIT_FACTOR : R := 55 / 100.
Definition ASTEROID_CHILD_VARIANCE : R := 15 / 100.
Definition ASTEROID_START_COUNT : Z := 5.
Definition ASTEROID_SPEED_BASE : R := 12 / 10.
Definition LASER_SPEED : R := 9.
Definition LASER_COOLDOWN : Z := 180.
Definition SHIP_THRUST : R := 18 / 100.
Definition SHIP_FRICTION : R := 992 / 1000.
Definition SHIP_MAX_SPEED : R := 6.
Definition INVULN_TIME : Z := 1500.
Definition LIVES : Z := 3.

(** ** The environment: random generator, clock *)

(** [rnd_unit k] is what [random.random()] returns when it is the [k]-th
    request made to the generator, [rnd_raw k] the raw integer from which
    the [k]-th request draws when it asks for an integer below a bound,
    and [ticks k] what the [k]-th call of [pygame.time.get_ticks()]
    returns. *)
Record Env : Type := mkEnv {
  rnd_unit : nat -> R;
  rnd_raw : nat -> Z;
  ticks : nat -> Z
}.

(** How many requests were made so far to the generator and to the clock. *)
Record Cur : Type := mkCur {
  rng : nat;
  clk : nat
}.

Definition next_rng (c : Cur) : Cur := {| rng := S (rng c); clk := clk c |}.
Definition next_clk (c : Cur) : Cur := {| rng := rng c; clk := S (clk c) |}.

(** [random.random()] lies in [0, 1). *)
Definition unit_range (e : Env) : Prop :=
  forall k, 0 <= rnd_unit e k < 1.

Definition get_ticks (e : Env) (c : Cur) : Z * Cur :=
  (ticks e (clk c), next_clk c).

Definition random_random (e : Env) (c : Cur) : R * Cur :=
  (rnd_unit e (rng c), next_rng c).

Definition randbelow (e : Env) (n : Z) (c : Cur) : Z * Cur :=
  ((rnd_raw e (rng c) mod n)%Z, next_rng c).

(** [random.uniform(a, b)] is [a + (b - a) * random()]. *)
Definition uniform (e : Env) (a b : R) (c : Cur) : R * Cur :=
  let (u, c1) := random_random e c in (a + (b - a) * u, c1).

(** [random.randrange(a, b)] is [a + randbelow(b - a)]. *)
Definition randrange (e : Env) (a b : Z) (c : Cur) : Z * Cur :=
  let (k, c1) := randbelow e (b - a) c in ((a + k)%Z, c1).

(** [random.randint(a, b)] is [randrange(a, b + 1)]. *)
Definition randint (e : Env) (a b : Z) (c : Cur) : Z * Cur :=
  randrange e a (b + 1) c.

(** [random.choice(seq)] is [seq[randbelow(len(seq))]]. *)
Definition choice (e : Env) (seq : list Z) (c : Cur) : Z * Cur :=
  let (k, c1) := randbelow e (Z.of_nat (length seq)) c in
  (nth (Z.to_nat k) seq 0%Z, c1).

(** ** Utility *)

(** [x % m] over exact real numbers, for a positive [m]:
    [x - m * floor(x / m)], which lies in [0, m).  The operation on
    binary64 numbers, whose result can round to [m] itself, is
    [Binary64.pymod]. *)
Definition pymod (x m : R) : R := x - m * IZR (Int_part (x / m)).

(** [int(r)]: truncation toward zero. *)
Definition py_int (r : R) : Z :=
  if Rle_dec 0 r then Int_part r else (- Int_part (- r))%Z.

Definition hypot (x y : R) : R := sqrt (x * x + y * y).

(** [math.atan2(y, x)]. *)
Definition atan2 (y x : R) : R :=
  if Rlt_dec 0 x then atan (y / x)
  else if Rlt_dec x 0 then
    (if Rle_dec 0 y then atan (y / x) + PI else atan (y / x) - PI)
  else if Rlt_dec 0 y then PI / 2
  else if Rlt_dec y 0 then - (PI / 2)
  else 0.

Definition tau : R := 2 * PI.

Definition wrap_position (x y : R) : R * R :=
  (pymod x (IZR WIDTH), pymod y (IZR HEIGHT)).

Definition vec_from_angle (angle magnitude : R) : R * R :=
  (cos angle * magnitude, sin angle * magnitude).

Definition clamp (v lo hi : R) : R := Rmax lo (Rmin hi v).

(** Circle intersection by squared distance, as both collision loops
    write it: [dx**2 + dy**2 <= (r1 + r2)**2]. *)
Definition circles_meet (x1 y1 : R) (r1 : Z) (x2 y2 : R) (r2 : Z) : bool :=
  if Rle_dec ((x1 - x2) ^ 2 + (y1 - y2) ^ 2) (IZR ((r1 + r2) ^ 2)) then true
  else false.

(** ** Game objects *)

Module Laser.

Record t : Type := mk {
  x : R; y : R;
  vx : R; vy : R;
  radius : Z;
  alive : bool;
  ttl : Z;
  birth : Z
}.

(** [Laser.__init__] reads the clock for the birth time. *)
Definition init (e : Env) (x0 y0 vx0 vy0 : R) (c : Cur) : t * Cur :=
  let (now, c1) := get_ticks e c in
  ({| x := x0; y := y0; vx := vx0; vy := vy0;
      radius := 3; alive := true; ttl := 1200; birth := now |}, c1).

Definition kill (l : t) : t :=
  {| x := x l; y := y l; vx := vx l; vy := vy l;
     radius := radius l; alive := false; ttl := ttl l; birth := birth l |}.

Definition update (e : Env) (l : t) (dt : Z) (c : Cur) : t * Cur :=
  let x1 := x l + vx l in
  let y1 := y l + vy l in
  let (x2, y2) := wrap_position x1 y1 in
  let (now, c1) := get_ticks e c in
  ({| x := x2; y := y2; vx := vx l; vy := vy l;
      radius := radius l;
      alive := if (now - birth l >? ttl l)%Z then false else alive l;
      ttl := ttl l; birth := birth l |}, c1).

End Laser.

Module Asteroid.

Record t : Type := mk {
  x : R; y : R;
  radius : Z;
  vx : R; vy : R
}.

(** [Asteroid(x, y, radius)]: the velocity is drawn. *)
Definition init_random (e : Env) (x0 y0 : R) (r : Z) (c : Cur) : t * Cur :=
  let (ang, c1) := uniform e 0 tau c in
  let (jit, c2) := uniform e (- (3 / 10)) (3 / 10) c1 in
  let speed :=
    ASTEROID_SPEED_BASE + IZR (ASTEROID_MAX_RADIUS - r) * (2 / 100) + jit in
  let (vx0, vy0) := vec_from_angle ang speed in
  ({| x := x0; y := y0; radius := r; vx := vx0; vy := vy0 |}, c2).

Definition update (a : t) (dt : Z) : t :=
  let x1 := x a + vx a in
  let y1 := y a + vy a in
  let (x2, y2) := wrap_position x1 y1 in
  {| x := x2; y := y2; radius := radius a; vx := vx a; vy := vy a |}.

(** One turn of the loop of [split]: three draws, one child. *)
Definition split_child (e : Env) (a : t) (c : Cur) : t * Cur :=
  let (var, c1) :=
    uniform e (- ASTEROID_CHILD_VARIANCE) ASTEROID_CHILD_VARIANCE c in
  let new_r :=
    Z.max ASTEROID_MIN_RADIUS
          (py_int (IZR (radius a) * (ASTEROID_SPLIT_FACTOR + var))) in
  let (ang, c2) := uniform e 0 tau c1 in
  let (f, c3) := uniform e (- (2 / 10)) (35 / 100) c2 in
  let speed := (hypot (vx a) (vy a) + 5 / 10) * (1 + f) in
  let (vx0, vy0) := vec_from_angle ang speed in
  ({| x := x a; y := y a; radius := new_r; vx := vx0; vy := vy0 |}, c3).

Fixpoint split_loop (e : Env) (a : t) (n : nat) (kids : list t) (c : Cur)
  : list t * Cur :=
  match n with
  | O => (kids, c)
  | S n' =>
      let (k, c1) := split_child e a c in
      split_loop e a n' (kids ++ [k]) c1
  end.

Definition split (e : Env) (a : t) (c : Cur) : list t * Cur :=
  if (radius a <=? ASTEROID_MIN_RADIUS)%Z then ([], c)
  else
    let (num_children, c1) := choice e [2; 2; 3]%Z c in
    split_loop e a (Z.to_nat num_children) [] c1.

End Asteroid.

(** The keys [Ship.update] looks at. *)
Record Keys : Type := mkKeys {
  K_w : bool; K_UP : bool;
  K_s : bool; K_DOWN : bool;
  K_a : bool; K_LEFT : bool;
  K_d : bool; K_RIGHT : bool
}.

Module Ship.

Record t : Type := mk {
  x : R; y : R;
  vx : R; vy : R;
  angle : R;
  radius : Z;
  alive : bool;
  invuln_until : Z
}.

Definition init : t :=
  {| x := IZR WIDTH / 2; y := IZR HEIGHT / 2;
     vx := 0; vy := 0;
     angle := 0;
     radius := 12;
     alive := true;
     invuln_until := 0 |}.

Definition reset (e : Env) (c : Cur) : t * Cur :=
  let (now, c1) := get_ticks e c in
  ({| x := x init; y := y init; vx := vx init; vy := vy init;
      angle := angle init; radius := radius init; alive := alive init;
      invuln_until := (now + INVULN_TIME)%Z |}, c1).

Definition vadd (v a : R * R) : R * R := (fst v + fst a, snd v + snd a).

Definition update (s : t) (keys : Keys) (dt : Z) (mouse_pos : Z * Z) : t :=
  let (mx, my) := mouse_pos in
  let ang := atan2 (IZR my - y s) (IZR mx - x s) in
  let v0 := (vx s, vy s) in
  let v1 :=
    if K_w keys || K_UP keys
    then vadd v0 (vec_from_angle ang SHIP_THRUST) else v0 in
  let v2 :=
    if K_s keys || K_DOWN keys
    then vadd v1 (vec_from_angle (ang + PI) (SHIP_THRUST * (6 / 10)))
    else v1 in
  let v3 :=
    if K_a keys || K_LEFT keys
    then vadd v2 (vec_from_angle (ang - PI / 2) (SHIP_THRUST * (6 / 10)))
    else v2 in
  let v4 :=
    if K_d keys || K_RIGHT keys
    then vadd v3 (vec_from_angle (ang + PI / 2) (SHIP_THRUST * (6 / 10)))
    else v3 in
  let speed := hypot (fst v4) (snd v4) in
  let v5 :=
    if Rgt_dec speed SHIP_MAX_SPEED
    then let scale := SHIP_MAX_SPEED / speed in
         (fst v4 * scale, snd v4 * scale)
    else v4 in
  let v6 := (fst v5 * SHIP_FRICTION, snd v5 * SHIP_FRICTION) in
  let (x2, y2) := wrap_position (x s + fst v6) (y s + snd v6) in
  {| x := x2; y := y2; vx := fst v6; vy := snd v6;
     angle := ang; radius := radius s; alive := alive s;
     invuln_until := invuln_until s |}.

Definition can_be_hit (e : Env) (s : t) (c : Cur) : bool * Cur :=
  let (now, c1) := get_ticks e c in
  ((now >=? invuln_until s)%Z, c1).

(** The blocks of [update], one definition each, in the order of the
    source text. *)

Definition with_velocity (s : t) (v : R * R) : t :=
  {| x := x s; y := y s; vx := fst v; vy := snd v;
     angle := angle s; radius := radius s; alive := alive s;
     invuln_until := invuln_until s |}.

(** Lines 174-175: the facing angle follows the pointer. *)
Definition aim (s : t) (mouse_pos : Z * Z) : t :=
  {| x := x s; y := y s; vx := vx s; vy := vy s;
     angle := atan2 (IZR (snd mouse_pos) - y s) (IZR (fst mouse_pos) - x s);
     radius := radius s; alive := alive s;
     invuln_until := invuln_until s |}.

Definition push (on : bool) (ang mag : R) (v : R * R) : R * R :=
  if on then vadd v (vec_from_angle ang mag) else v.

(** Lines 177-193: the thrust contributions of the pressed keys. *)
Definition thrust (s : t) (keys : Keys) : t :=
  let back := SHIP_THRUST * (6 / 10) in
  with_velocity s
    (push (K_d keys || K_RIGHT keys) (angle s + PI / 2) back
      (push (K_a keys || K_LEFT keys) (angle s - PI / 2) back
        (push (K_s keys || K_DOWN keys) (angle s + PI) back
          (push (K_w keys || K_UP keys) (angle s) SHIP_THRUST
            (vx s, vy s))))).

(** Lines 195-199: the speed clamp. *)
Definition clamp_speed (s : t) : t :=
  let speed := hypot (vx s) (vy s) in
  if Rgt_dec speed SHIP_MAX_SPEED
  then with_velocity s (vx s * (SHIP_MAX_SPEED / speed),
                        vy s * (SHIP_MAX_SPEED / speed))
  else s.

(** Lines 201-202: friction. *)
Definition friction (s : t) : t :=
  with_velocity s (vx s * SHIP_FRICTION, vy s * SHIP_FRICTION).

(** Lines 204-205: integration of the position. *)
Definition integrate (s : t) : t :=
  {| x := x s + vx s; y := y s + vy s; vx := vx s; vy := vy s;
     angle := angle s; radius := radius s; alive := alive s;
     invuln_until := invuln_until s |}.

(** Line 206: wrap. *)
Definition wrap (s : t) : t :=
  {| x := fst (wrap_position (x s) (y s));
     y := snd (wrap_position (x s) (y s));
     vx := vx s; vy := vy s;
     angle := angle s; radius := radius s; alive := alive s;
     invuln_until := invuln_until s |}.

Definition speed (s : t) : R := sqrt (vx s * vx s + vy s * vy s).

End Ship.

(** ** Sound synthesis *)

(** [synth_tone] and [synth_noise_burst] write 16-bit frames to a WAV
    file.  The file is left out: the functions are modelled by the list of
    frames they write, [None] standing for an exception ([struct.error]
    when a frame does not fit 16 bits, [ZeroDivisionError]).  Durations,
    frequencies and samples are real numbers: the three [int()] are taken
    of exact products, and the overflow of a float product has no
    counterpart here. *)
Module Audio.

Import Stdlib.Strings.String.

Definition framerate : Z := 44100.

(** [struct.pack("<h", v)] *)
Definition pack_h (v : Z) : option Z :=
  if ((-32768 <=? v) && (v <=? 32767))%Z then Some v else None.

(** [a / b] on numbers: a zero divisor raises. *)
Definition true_div (a b : R) : option R :=
  if Req_EM_T b 0 then None else Some (a / b).

(** The waveform selected by [kind] at time [t]. *)
Definition waveform (kind : string) (freq t : R) : R :=
  if String.eqb kind "square" then
    (if Rle_dec 0 (sin (2 * PI * freq * t)) then 1 else -1)
  else if String.eqb kind "saw" then 2 * pymod (t * freq) 1 - 1
  else if String.eqb kind "sine" then sin (2 * PI * freq * t)
  else 0.

(** The body of the loop of [synth_tone] for frame [i]. *)
Definition tone_frame (amp nframes fo : Z) (freq : R) (kind : string) (i : Z)
  : option Z :=
  let t := IZR i / IZR framerate in
  let s := waveform kind freq t in
  let faded :=
    if (i >? nframes - fo)%Z then
      match true_div (IZR (nframes - i)) (IZR fo) with
      | Some k => Some (s * k)
      | None => None
      end
    else Some s in
  match faded with
  | Some s1 => pack_h (py_int (IZR amp * s1))
  | None => None
  end.

Fixpoint tone_loop (amp nframes fo : Z) (freq : R) (kind : string)
  (idx : list nat) : option (list Z) :=
  match idx with
  | [] => Some []
  | i :: rest =>
      match tone_frame amp nframes fo freq kind (Z.of_nat i) with
      | None => None
      | Some v =>
          match tone_loop amp nframes fo freq kind rest with
          | None => None
          | Some vs => Some (v :: vs)
          end
      end
  end.

Definition synth_tone (seconds freq volume : R) (kind : string) (fade_out : R)
  : option (list Z) :=
  let amp := py_int (32767 * volume) in
  let nframes := py_int (seconds * IZR framerate) in
  let fo := py_int (fade_out * IZR framerate) in
  tone_loop amp nframes fo freq kind (seq 0 (Z.to_nat nframes)).

(** The body of the loop of [synth_noise_burst] for frame [i]: three
    requests to the generator. *)
Definition noise_frame (e : Env) (amp nframes : Z) (i : Z) (c : Cur)
  : option (Z * Cur) :=
  match true_div (IZR i) (IZR nframes) with
  | None => None
  | Some q =>
      let env := Rmax 0 (1 - q) in
      let (r1, c1) := random_random e c in
      let (r2, c2) := random_random e c1 in
      let (r3, c3) := random_random e c2 in
      let r := (r1 + r2 + r3) / 3 in
      let s := (r * 2 - 1) * env in
      match pack_h (py_int (IZR amp * s)) with
      | None => None
      | Some v => Some (v, c3)
      end
  end.

Fixpoint noise_loop (e : Env) (amp nframes : Z) (idx : list nat) (c : Cur)
  : option (list Z * Cur) :=
  match idx with
  | [] => Some ([], c)
  | i :: rest =>
      match noise_frame e amp nframes (Z.of_nat i) c with
      | None => None
      | Some (v, c1) =>
          match noise_loop e amp nframes rest c1 with
          | None => None
          | Some (vs, c2) => Some (v :: vs, c2)
          end
      end
  end.

Definition synth_noise_burst (e : Env) (seconds volume : R) (c : Cur)
  : option (list Z * Cur) :=
  let amp := py_int (32767 * volume) in
  let nframes := py_int (seconds * IZR framerate) in
  noise_loop e amp nframes (seq 0 (Z.to_nat nframes)) c.

(** [Game._make_sounds]: the shot, the explosion, the thrust hum. *)
Definition make_sounds (e : Env) (c : Cur)
  : option (list Z * list Z * list Z * Cur) :=
  match synth_tone (9 / 100) 920 (5 / 10) "square" (2 / 100) with
  | None => None
  | Some shoot =>
      match synth_noise_burst e (3 / 10) (6 / 10) c with
      | None => None
      | Some (explode, c1) =>
          match synth_tone (2 / 10) 160 (35 / 100) "saw" (5 / 100) with
          | None => None
          | Some thrust => Some (shoot, explode, thrust, c1)
          end
      end
  end.

End Audio.

(** ** Game *)

Inductive Key : Type := K_ESCAPE | K_p | K_r | K_other.

Inductive Event : Type :=
| QUIT
| KEYDOWN (key : Key)
| MOUSEBUTTONDOWN (button : Z)
| OTHER.

Module Game.

Record t : Type := mk {
  ship : Ship.t;
  lasers : list Laser.t;
  asteroids : list Asteroid.t;
  score : Z;
  lives : Z;
  last_shot : Z;
  running : bool;
  paused : bool;
  game_over : bool
}.

Definition margin : Z := 80.

(** The [while True] loop of [_spawn_wave]: draw a position until it is
    farther than 200 from the ship.  [fuel] bounds the number of
    attempts; [None] stands for a loop that has not yet ended. *)
Fixpoint sample_position (e : Env) (fuel : nat) (s : Ship.t) (c : Cur)
  : option (Z * Z * Cur) :=
  match fuel with
  | O => None
  | S fuel' =>
      let (x, c1) := randrange e margin (WIDTH - margin) c in
      let (y, c2) := randrange e margin (HEIGHT - margin) c1 in
      if Rgt_dec (hypot (IZR x - Ship.x s) (IZR y - Ship.y s)) 200
      then Some (x, y, c2)
      else sample_position e fuel' s c2
  end.

(** The [for _ in range(count)] loop of [_spawn_wave]. *)
Fixpoint spawn_loop (e : Env) (fuel : nat) (s : Ship.t) (n : nat)
  (acc : list Asteroid.t) (c : Cur) : option (list Asteroid.t * Cur) :=
  match n with
  | O => Some (acc, c)
  | S n' =>
      match sample_position e fuel s c with
      | None => None
      | Some (x, y, c1) =>
          let (r, c2) :=
            randint e (ASTEROID_MAX_RADIUS - 15) ASTEROID_MAX_RADIUS c1 in
          let (a, c3) := Asteroid.init_random e (IZR x) (IZR y) r c2 in
          spawn_loop e fuel s n' (acc ++ [a]) c3
      end
  end.

Definition with_asteroids (g : t) (l : list Asteroid.t) : t :=
  {| ship := ship g; lasers := lasers g; asteroids := l;
     score := score g; lives := lives g; last_shot := last_shot g;
     running := running g; paused := paused g; game_over := game_over g |}.

Definition _spawn_wave (e : Env) (fuel : nat) (g : t) (count : Z) (c : Cur)
  : option (t * Cur) :=
  match spawn_loop e fuel (ship g) (Z.to_nat count) [] c with
  | None => None
  | Some (l, c1) => Some (with_asteroids g l, c1)
  end.

(** The fields as [Game.__init__] sets them before it synthesises the
    sounds and spawns the first wave. *)
Definition fresh : t :=
  {| ship := Ship.init; lasers := []; asteroids := [];
     score := 0; lives := LIVES; last_shot := 0;
     running := true; paused := false; game_over := false |}.

(** [Game.__init__]: the fields are set, [_make_sounds] runs (the
    explosion noise draws from the generator, and an exception of the
    synthesis ends the constructor), then the first wave is spawned.  The
    sounds themselves are not kept: nothing of the simulation reads
    them. *)
Definition init (e : Env) (fuel : nat) (c : Cur) : option (t * Cur) :=
  match Audio.make_sounds e c with
  | None => None
  | Some (_, _, _, c1) => _spawn_wave e fuel fresh ASTEROID_START_COUNT c1
  end.

Definition shoot (e : Env) (g : t) (c : Cur) : t * Cur :=
  let (now, c1) := get_ticks e c in
  if (now - last_shot g <? LASER_COOLDOWN)%Z then (g, c1)
  else
    let (vx, vy) := vec_from_angle (Ship.angle (ship g)) LASER_SPEED in
    let lx :=
      Ship.x (ship g)
      + cos (Ship.angle (ship g)) * (IZR (Ship.radius (ship g)) * (18 / 10)) in
    let ly :=
      Ship.y (ship g)
      + sin (Ship.angle (ship g)) * (IZR (Ship.radius (ship g)) * (18 / 10)) in
    let (l, c2) := Laser.init e lx ly vx vy c1 in
    ({| ship := ship g; lasers := lasers g ++ [l]; asteroids := asteroids g;
        score := score g; lives := lives g; last_shot := now;
        running := running g; paused := paused g;
        game_over := game_over g |}, c2).

(** [for l in self.lasers: l.update(dt)] *)
Fixpoint update_lasers (e : Env) (ls : list Laser.t) (dt : Z) (c : Cur)
  : list Laser.t * Cur :=
  match ls with
  | [] => ([], c)
  | l :: rest =>
      let (l1, c1) := Laser.update e l dt c in
      let (rest1, c2) := update_lasers e rest dt c1 in
      (l1 :: rest1, c2)
  end.

Definition laser_hits (a : Asteroid.t) (l : Laser.t) : bool :=
  circles_meet (Asteroid.x a) (Asteroid.y a) (Asteroid.radius a)
               (Laser.x l) (Laser.y l) (Laser.radius l).

(** The inner loop [for l in self.lasers] of the first collision pass:
    on the first laser that meets the asteroid, that laser object is
    marked dead in place and the loop breaks.  [Some ls'] is a hit,
    with the lasers as they are after the mark; [None] is no hit. *)
Fixpoint scan_lasers (a : Asteroid.t) (ls : list Laser.t)
  : option (list Laser.t) :=
  match ls with
  | [] => None
  | l :: rest =>
      if laser_hits a l then Some (Laser.kill l :: rest)
      else match scan_lasers a rest with
           | Some rest' => Some (l :: rest')
           | None => None
           end
  end.

Definition points (a : Asteroid.t) : Z :=
  Z.max 1 ((ASTEROID_MAX_RADIUS - Asteroid.radius a) / 5).

(** The outer loop [for a in self.asteroids] of the first collision
    pass. *)
Fixpoint lasers_vs_asteroids (e : Env) (l : list Asteroid.t)
  (ls : list Laser.t) (sc : Z) (new_asteroids : list Asteroid.t) (c : Cur)
  : list Laser.t * Z * list Asteroid.t * Cur :=
  match l with
  | [] => (ls, sc, new_asteroids, c)
  | a :: rest =>
      match scan_lasers a ls with
      | Some ls' =>
          let (kids, c1) := Asteroid.split e a c in
          lasers_vs_asteroids e rest ls' (sc + points a)
                              (new_asteroids ++ kids) c1
      | None =>
          lasers_vs_asteroids e rest ls sc (new_asteroids ++ [a]) c
      end
  end.

Definition ship_hits (a : Asteroid.t) (s : Ship.t) : bool :=
  circles_meet (Asteroid.x a) (Asteroid.y a) (Asteroid.radius a)
               (Ship.x s) (Ship.y s) (Ship.radius s).

(** The loop [for a in self.asteroids] of the second collision pass. *)
Fixpoint ship_vs_asteroids (e : Env) (l : list Asteroid.t) (g : t) (c : Cur)
  : t * Cur :=
  match l with
  | [] => (g, c)
  | a :: rest =>
      if ship_hits a (ship g) then
        let lives1 := (lives g - 1)%Z in
        let (s1, c1) := Ship.reset e c in
        ({| ship := s1; lasers := lasers g; asteroids := asteroids g;
            score := score g; lives := lives1; last_shot := last_shot g;
            running := running g; paused := paused g;
            game_over := if (lives1 <=? 0)%Z then true else game_over g |},
         c1)
      else ship_vs_asteroids e rest g c
  end.

(** Lines 313-322 of [update]: motion of the ship, the lasers (dead
    ones are then dropped) and the asteroids. *)
Definition motion_phase (e : Env) (g : t) (keys : Keys) (dt : Z)
  (mouse_pos : Z * Z) (c : Cur) : t * Cur :=
  let s1 := Ship.update (ship g) keys dt mouse_pos in
  let (ls1, c1) := update_lasers e (lasers g) dt c in
  let ls2 := filter Laser.alive ls1 in
  let as1 := map (fun a => Asteroid.update a dt) (asteroids g) in
  ({| ship := s1; lasers := ls2; asteroids := as1;
      score := score g; lives := lives g; last_shot := last_shot g;
      running := running g; paused := paused g;
      game_over := game_over g |}, c1).

(** Lines 324-342: lasers against asteroids. *)
Definition laser_phase (e : Env) (g : t) (c : Cur) : t * Cur :=
  match lasers_vs_asteroids e (asteroids g) (lasers g) (score g) [] c with
  | (ls, sc, new_asteroids, c1) =>
      ({| ship := ship g; lasers := ls; asteroids := new_asteroids;
          score := sc; lives := lives g; last_shot := last_shot g;
          running := running g; paused := paused g;
          game_over := game_over g |}, c1)
  end.

(** Lines 344-354: the ship against asteroids. *)
Definition ship_phase (e : Env) (g : t) (c : Cur) : t * Cur :=
  let (hittable, c1) := Ship.can_be_hit e (ship g) c in
  if hittable then ship_vs_asteroids e (asteroids g) g c1 else (g, c1).

Definition is_empty {A : Type} (l : list A) : bool :=
  match l with [] => true | _ :: _ => false end.

Definition next_count (sc : Z) : Z := Z.min 12 (5 + sc / 15).

(** Lines 356-360: the next wave. *)
Definition wave_phase (e : Env) (fuel : nat) (g : t) (c : Cur)
  : option (t * Cur) :=
  if is_empty (asteroids g) && negb (game_over g)
  then _spawn_wave e fuel g (next_count (score g)) c
  else Some (g, c).

Definition update (e : Env) (fuel : nat) (g : t) (keys : Keys) (dt : Z)
  (mouse_pos : Z * Z) (c : Cur) : option (t * Cur) :=
  if game_over g || paused g then Some (g, c)
  else
    let (g1, c1) := motion_phase e g keys dt mouse_pos c in
    let (g2, c2) := laser_phase e g1 c1 in
    let (g3, c3) := ship_phase e g2 c2 in
    wave_phase e fuel g3 c3.

Definition handle_event (e : Env) (fuel : nat) (g : t) (ev : Event) (c : Cur)
  : option (t * Cur) :=
  match ev with
  | QUIT =>
      Some ({| ship := ship g; lasers := lasers g; asteroids := asteroids g;
               score := score g; lives := lives g; last_shot := last_shot g;
               running := false; paused := paused g;
               game_over := game_over g |}, c)
  | KEYDOWN K_ESCAPE =>
      Some ({| ship := ship g; lasers := lasers g; asteroids := asteroids g;
               score := score g; lives := lives g; last_shot := last_shot g;
               running := false; paused := paused g;
               game_over := game_over g |}, c)
  | KEYDOWN K_p =>
      Some ({| ship := ship g; lasers := lasers g; asteroids := asteroids g;
               score := score g; lives := lives g; last_shot := last_shot g;
               running := running g; paused := negb (paused g);
               game_over := game_over g |}, c)
  | KEYDOWN K_r => if game_over g then init e fuel c else Some (g, c)
  | KEYDOWN K_other => Some (g, c)
  | MOUSEBUTTONDOWN button =>
      if (button =? 1)%Z && negb (paused g) && negb (game_over g)
      then Some (shoot e g c) else Some (g, c)
  | OTHER => Some (g, c)
  end.

(** [for event in pygame.event.get()] *)
Fixpoint handle_events (e : Env) (fuel : nat) (g : t) (evs : list Event)
  (c : Cur) : option (t * Cur) :=
  match evs with
  | [] => Some (g, c)
  | ev :: rest =>
      match handle_event e fuel g ev c with
      | None => None
      | Some (g1, c1) => handle_events e fuel g1 rest c1
      end
  end.

End Game.



(** ** Drawing *)

(** What [Game.draw] hands to the graphics toolkit, as data: the toolkit
    calls themselves ([pygame.draw.polygon], [pygame.draw.circle], the
    fonts, [flip]) are outside the program.  Drawing matters to the
    simulation only through the requests it makes to the random generator
    (the jitter of the asteroid outlines) and to the clock (the flicker of
    an invulnerable ship). *)
Module Render.

Record Scene : Type := mkScene {
  rocks : list (list (R * R));
  shots : list (Z * Z * Z);
  hull : option ((R * R) * (R * R) * (R * R));
  score_text : Z;
  lives_text : Z;
  paused_banner : bool;
  over_banner : bool
}.

(** [spikes = max(8, int(self.radius / 2))] *)
Definition spikes (a : Asteroid.t) : Z :=
  Z.max 8 (py_int (IZR (Asteroid.radius a) / 2)).

(** The loop [for i in range(spikes)] of [Asteroid.draw]. *)
Fixpoint asteroid_loop (e : Env) (a : Asteroid.t) (n : Z) (idx : list nat)
  (points : list (R * R)) (c : Cur) : list (R * R) * Cur :=
  match idx with
  | [] => (points, c)
  | i :: rest =>
      let ang := (IZR (Z.of_nat i) / IZR n) * tau in
      let (u, c1) := random_random e c in
      let r_jitter := IZR (Asteroid.radius a) * (85 / 100 + u * (3 / 10)) in
      let px := Asteroid.x a + cos ang * r_jitter in
      let py := Asteroid.y a + sin ang * r_jitter in
      asteroid_loop e a n rest (points ++ [(px, py)]) c1
  end.

(** [Asteroid.draw]: the outline given to [pygame.draw.polygon]. *)
Definition asteroid_polygon (e : Env) (a : Asteroid.t) (c : Cur)
  : list (R * R) * Cur :=
  asteroid_loop e a (spikes a) (seq 0 (Z.to_nat (spikes a))) [] c.

(** [Laser.draw]: centre (truncated to integers) and radius of the circle. *)
Definition laser_circle (l : Laser.t) : Z * Z * Z :=
  (py_int (Laser.x l), py_int (Laser.y l), Laser.radius l).

(** The three corners [tip], [left], [right] that [Ship.draw] computes. *)
Definition ship_triangle (s : Ship.t) : (R * R) * (R * R) * (R * R) :=
  let tip :=
    (Ship.x s + cos (Ship.angle s) * (IZR (Ship.radius s) * (18 / 10)),
     Ship.y s + sin (Ship.angle s) * (IZR (Ship.radius s) * (18 / 10))) in
  let left :=
    (Ship.x s + cos (Ship.angle s + 25 / 10) * IZR (Ship.radius s),
     Ship.y s + sin (Ship.angle s + 25 / 10) * IZR (Ship.radius s)) in
  let right :=
    (Ship.x s + cos (Ship.angle s - 25 / 10) * IZR (Ship.radius s),
     Ship.y s + sin (Ship.angle s - 25 / 10) * IZR (Ship.radius s)) in
  (tip, left, right).

(** Whether [Ship.draw] draws the triangle: always when the ship is not
    invulnerable, and in the even 120 ms slots of the clock when it is. *)
Definition ship_shown (e : Env) (s : Ship.t) (c : Cur) : bool * Cur :=
  let (t1, c1) := get_ticks e c in
  if (t1 <? Ship.invuln_until s)%Z then
    let (t2, c2) := get_ticks e c1 in
    (((t2 / 120) mod 2 =? 0)%Z, c2)
  else (true, c1).

(** [for a in self.asteroids: a.draw(self.screen)] *)
Fixpoint draw_asteroids (e : Env) (l : list Asteroid.t) (c : Cur)
  : list (list (R * R)) * Cur :=
  match l with
  | [] => ([], c)
  | a :: rest =>
      let (p, c1) := asteroid_polygon e a c in
      let (ps, c2) := draw_asteroids e rest c1 in
      (p :: ps, c2)
  end.

(** [Game.draw] *)
Definition draw (e : Env) (g : Game.t) (c : Cur) : Scene * Cur :=
  let (polys, c1) := draw_asteroids e (Game.asteroids g) c in
  let circles := map laser_circle (Game.lasers g) in
  let (shown, c2) := ship_shown e (Game.ship g) c1 in
  ({| rocks := polys;
      shots := circles;
      hull := if shown then Some (ship_triangle (Game.ship g)) else None;
      score_text := Game.score g;
      lives_text := Game.lives g;
      paused_banner := Game.paused g;
      over_banner := Game.game_over g |}, c2).

End Render.

(** ** The main loop *)

Module Loop.

(** What one iteration of [Game.run] reads from the outside: the events
    of [pygame.event.get()], the keys and the pointer that [update] polls,
    and the [dt] of [clock.tick]. *)
Record Input : Type := mkInput {
  events : list Event;
  keys : Keys;
  mouse_pos : Z * Z;
  dt : Z
}.

(** The body of the [while] loop of [Game.run]. *)
Definition frame (e : Env) (fuel : nat) (g : Game.t) (i : Input) (c : Cur)
  : option (Game.t * Render.Scene * Cur) :=
  match Game.handle_events e fuel g (events i) c with
  | None => None
  | Some (g1, c1) =>
      match Game.update e fuel g1 (keys i) (dt i) (mouse_pos i) c1 with
      | None => None
      | Some (g2, c2) =>
          let (scene, c3) := Render.draw e g2 c2 in
          Some (g2, scene, c3)
      end
  end.

(** [Game.run] over the inputs of the successive iterations: the loop
    goes on while [running] is set.  The result is the state when the loop
    has ended or the inputs are used up, with the scenes drawn so far. *)
Fixpoint run (e : Env) (fuel : nat) (g : Game.t) (inputs : list Input)
  (c : Cur) : option (Game.t * list Render.Scene * Cur) :=
  match inputs with
  | [] => Some (g, [], c)
  | i :: rest =>
      if Game.running g then
        match frame e fuel g i c with
        | None => None
        | Some (g1, scene, c1) =>
            match run e fuel g1 rest c1 with
            | None => None
            | Some (g2, scenes, c2) => Some (g2, scene :: scenes, c2)
            end
        end
      else Some (g, [], c)
  end.

(** [Game().run()]: the constructor, then the loop. *)
Definition main (e : Env) (fuel : nat) (inputs : list Input) (c : Cur)
  : option (Game.t * list Render.Scene * Cur) :=
  match Game.init e fuel c with
  | None => None
  | Some (g, c1) => run e fuel g inputs c1
  end.

End Loop.

(** ** Binary64 *)

(** Python's [float] is IEEE 754 binary64.  The position update of the
    entities uses two float operations, [+] and [%]; both are modelled
    here on binary64 numbers, rounding included.  [+] is the correctly
    rounded addition of the format. *)
Module Binary64.

Import Stdlib.Floats.PrimFloat Stdlib.Floats.FloatOps Stdlib.Floats.SpecFloat.

(** The binary64 number [n * 2^e], for [0 <= n < 2^53]: no rounding takes
    place when the number is representable. *)
Definition scaled (n e : Z) : float :=
  Z.ldexp (of_uint63 (Uint63.of_Z n)) e.

(** C's [fmod(x, m)]: the remainder of [x] by [m] with the quotient
    truncated toward zero.  It is computed without rounding and has the
    sign of [x].  Both operands are written as integers times the smaller
    of the two exponents. *)
Definition fmod (x m : float) : float :=
  match Prim2SF x, Prim2SF m with
  | S754_finite sx mx ex, S754_finite _ mm em =>
      let e := Z.min ex em in
      let r := scaled ((Zpos mx * 2 ^ (ex - e)) mod (Zpos mm * 2 ^ (em - e))) e in
      if sx then (- r)%float else r
  | S754_zero _, S754_finite _ _ _ => x
  | S754_zero _, S754_infinity _ => x
  | S754_finite _ _ _, S754_infinity _ => x
  | _, _ => nan
  end.

(** [x % m] on floats, as CPython's [float_rem] computes it: a zero [m]
    raises; otherwise the [fmod], to which [m] is added when it is not
    zero and its sign is not that of [m]; a zero remainder takes the sign
    of [m]. *)
Definition pymod (x m : float) : option float :=
  if (m =? 0)%float then None
  else
    let r := fmod x m in
    if (r =? 0)%float then Some (if (m <? 0)%float then neg_zero else zero)
    else if Bool.eqb (m <? 0)%float (r <? 0)%float then Some r
    else Some (r + m)%float.

(** [WIDTH] and [HEIGHT] as [%] converts them, from [int] to [float]. *)
Definition width : float := of_uint63 (Uint63.of_Z WIDTH).
Definition height : float := of_uint63 (Uint63.of_Z HEIGHT).

(** [wrap_position] on floats. *)
Definition wrap_position (x y : float) : option (float * float) :=
  match pymod x width, pymod y height with
  | Some x1, Some y1 => Some (x1, y1)
  | _, _ => None
  end.

(** The position update that [Laser.update], [Asteroid.update] and
    [Ship.update] share (lines 104-106, 126-128 and 204-206):
    [self.x += self.vx], [self.y += self.vy], then [wrap_position]. *)
Definition move (x y vx vy : float) : option (float * float) :=
  wrap_position (x + vx)%float (y + vy)%float.

(** [0 <= x < W and 0 <= y < H] *)
Definition inside (x y : float) : bool :=
  ((0 <=? x) && (x <? width) && (0 <=? y) && (y <? height))%float.

End Binary64.
(** ** Concrete inputs used by the examples *)

(** Every draw is zero and the clock stands at [t]. *)
Definition env_const (t : Z) : Env :=
  {| rnd_unit := fun _ => 0; rnd_raw := fun _ => 0%Z; ticks := fun _ => t |}.

Definition cur0 : Cur := {| rng := 0; clk := 0 |}.

Definition no_keys : Keys :=
  {| K_w := false; K_UP := false; K_s := false; K_DOWN := false;
     K_a := false; K_LEFT := false; K_d := false; K_RIGHT := false |}.

(** A session with no asteroid and no laser, the ship at its spawn. *)
Definition bare_game (sc lv : Z) (p over : bool) : Game.t :=
  {| Game.ship := Ship.init; Game.lasers := []; Game.asteroids := [];
     Game.score := sc; Game.lives := lv; Game.last_shot := 0;
     Game.running := true; Game.paused := p; Game.game_over := over |}.

(** ** Vocabulary of the statements *)

(** A position inside the playfield. *)
Definition in_bounds (x y : R) : Prop :=
  0 <= x < IZR WIDTH /\ 0 <= y < IZR HEIGHT.

(** A ship moving at 50 units per tick, for the speed clamp. *)
Definition fast_ship : Ship.t :=
  {| Ship.x := 100; Ship.y := 100; Ship.vx := 30; Ship.vy := 40;
     Ship.angle := 0; Ship.radius := 12; Ship.alive := true;
     Ship.invuln_until := 0 |}.

(** What a key adds when it is held: [v] when [on], nothing otherwise. *)
Definition key_push (on : bool) (v : R) : R := if on then v else 0.

(** Only W is held. *)
Definition forward_key : Keys :=
  {| K_w := true; K_UP := false; K_s := false; K_DOWN := false;
     K_a := false; K_LEFT := false; K_d := false; K_RIGHT := false |}.

(** A session whose last shot was fired at clock reading 990. *)
Definition just_fired : Game.t :=
  {| Game.ship := Ship.init; Game.lasers := []; Game.asteroids := [];
     Game.score := 0; Game.lives := 3; Game.last_shot := 990;
     Game.running := true; Game.paused := false; Game.game_over := false |}.

(** The clock reads 1000, 1050, 1100, ... *)
Definition env_clock50 : Env :=
  {| rnd_unit := fun _ => 0; rnd_raw := fun _ => 0%Z;
     ticks := fun k => (1000 + 50 * Z.of_nat k)%Z |}.

(** The laser that [shoot] creates for the ship [s], born at [born]. *)
Definition nose_laser (s : Ship.t) (born : Z) : Laser.t :=
  {| Laser.x := Ship.x s + cos (Ship.angle s) * (IZR (Ship.radius s) * (18 / 10));
     Laser.y := Ship.y s + sin (Ship.angle s) * (IZR (Ship.radius s) * (18 / 10));
     Laser.vx := cos (Ship.angle s) * LASER_SPEED;
     Laser.vy := sin (Ship.angle s) * LASER_SPEED;
     Laser.radius := 3; Laser.alive := true; Laser.ttl := 1200;
     Laser.birth := born |}.

(** The ship as [Ship.reset] leaves it: at the spawn position, at rest,
    facing angle 0, invulnerable until [until]. *)
Definition respawned (until : Z) : Ship.t :=
  {| Ship.x := IZR WIDTH / 2; Ship.y := IZR HEIGHT / 2;
     Ship.vx := 0; Ship.vy := 0; Ship.angle := 0;
     Ship.radius := 12; Ship.alive := true;
     Ship.invuln_until := until |}.

(** No asteroid of [l] meets the ship [s]. *)
Definition all_miss (s : Ship.t) (l : list Asteroid.t) : Prop :=
  Forall (fun a => Game.ship_hits a s = false) l.

Definition rock (x y : R) (r : Z) : Asteroid.t :=
  {| Asteroid.x := x; Asteroid.y := y; Asteroid.radius := r;
     Asteroid.vx := 0; Asteroid.vy := 0 |}.

(** One life left, and two asteroids on top of the ship. *)
Definition last_life_game : Game.t :=
  {| Game.ship := Ship.init; Game.lasers := [];
     Game.asteroids := [rock 480 360 20; rock 490 360 30];
     Game.score := 0; Game.lives := 1; Game.last_shot := 0;
     Game.running := true; Game.paused := false; Game.game_over := false |}.

(** Farther than the safe distance of [_spawn_wave] from the ship. *)
Definition far_from (s : Ship.t) (x y : R) : Prop :=
  hypot (x - Ship.x s) (y - Ship.y s) > 200.

Definition asteroid_far (s : Ship.t) (a : Asteroid.t) : Prop :=
  far_from s (Asteroid.x a) (Asteroid.y a).

(** The position that one attempt of the sampling loop draws when it
    starts at the [k]-th request to the generator. *)
Definition attempt_x (e : Env) (k : nat) : Z :=
  (Game.margin + rnd_raw e k mod (WIDTH - Game.margin - Game.margin))%Z.
Definition attempt_y (e : Env) (k : nat) : Z :=
  (Game.margin + rnd_raw e (S k) mod (HEIGHT - Game.margin - Game.margin))%Z.

(** The generator does not refuse for ever: from whatever request [k] the
    sampling loop starts, one of its attempts (the [j]-th) draws a position
    far enough from the ship. *)
Definition eventually_far (e : Env) (s : Ship.t) : Prop :=
  forall k : nat, exists j : nat,
    far_from s (IZR (attempt_x e (k + 2 * j))) (IZR (attempt_y e (k + 2 * j))).

(** The state that reaches the next-wave test of [update]: after motion
    and both collision passes. *)
Definition after_collisions (e : Env) (g : Game.t) (keys : Keys) (dt : Z)
  (mouse_pos : Z * Z) (c : Cur) : Game.t * Cur :=
  let (g1, c1) := Game.motion_phase e g keys dt mouse_pos c in
  let (g2, c2) := Game.laser_phase e g1 c1 in
  Game.ship_phase e g2 c2.

(** The asteroids of [l] that the first collision pass counts as hit,
    in order, the lasers being [ls] when the pass starts. *)
Fixpoint destroyed (l : list Asteroid.t) (ls : list Laser.t)
  : list Asteroid.t :=
  match l with
  | [] => []
  | a :: rest =>
      match Game.scan_lasers a ls with
      | Some ls' => a :: destroyed rest ls'
      | None => destroyed rest ls
      end
  end.

Definition total_points (l : list Asteroid.t) : Z :=
  fold_right (fun a acc => (Game.points a + acc)%Z) 0%Z l.

(** The asteroids destroyed by lasers in one call of [update]. *)
Definition destroyed_in_tick (e : Env) (g : Game.t) (keys : Keys) (dt : Z)
  (mouse_pos : Z * Z) (c : Cur) : list Asteroid.t :=
  if Game.game_over g || Game.paused g then []
  else
    let g1 := fst (Game.motion_phase e g keys dt mouse_pos c) in
    destroyed (Game.asteroids g1) (Game.lasers g1).

(** A tick in which one laser flies into the overlap of two small
    asteroids, a third asteroid being far from everything. *)
Definition bolt (x y vx vy : R) (al : bool) : Laser.t :=
  {| Laser.x := x; Laser.y := y; Laser.vx := vx; Laser.vy := vy;
     Laser.radius := 3; Laser.alive := al; Laser.ttl := 1200;
     Laser.birth := 900 |}.

Definition drifting (x y : R) (r : Z) (vx vy : R) : Asteroid.t :=
  {| Asteroid.x := x; Asteroid.y := y; Asteroid.radius := r;
     Asteroid.vx := vx; Asteroid.vy := vy |}.

Definition crossfire_game : Game.t :=
  {| Game.ship := Ship.init;
     Game.lasers := [bolt 96 100 9 0 true];
     Game.asteroids :=
       [drifting 99 99 16 1 1; drifting 111 100 16 (-1) 0;
        drifting 800 600 50 1 1];
     Game.score := 0; Game.lives := 3; Game.last_shot := 900;
     Game.running := true; Game.paused := false; Game.game_over := false |}.

(** The state that the tick of [crossfire_game] returns. *)
Definition crossfire_after : Game.t :=
  {| Game.ship := Ship.update Ship.init no_keys 16 (0%Z, 0%Z);
     Game.lasers := [bolt (96 + 9) (100 + 0) 9 0 false];
     Game.asteroids := [drifting (800 + 1) (600 + 1) 50 1 1];
     Game.score := 16; Game.lives := 3; Game.last_shot := 900;
     Game.running := true; Game.paused := false; Game.game_over := false |}.

(** The cursor after [k] more requests to the generator. *)
Definition advance (c : Cur) (k : nat) : Cur :=
  {| rng := rng c + k; clk := clk c |}.

(** [random.uniform(-ASTEROID_CHILD_VARIANCE, ASTEROID_CHILD_VARIANCE)]
    when it is the [k]-th request to the generator. *)
Definition child_variance (e : Env) (k : nat) : R :=
  - ASTEROID_CHILD_VARIANCE
  + (ASTEROID_CHILD_VARIANCE - - ASTEROID_CHILD_VARIANCE) * rnd_unit e k.

(** The number of children that [random.choice([2, 2, 3])] picks when it
    is the [k]-th request to the generator. *)
Definition child_count (e : Env) (k : nat) : Z :=
  nth (Z.to_nat (rnd_raw e k mod 3)) [2; 2; 3]%Z 0%Z.

(** Every entity of the game is inside the playfield. *)
Definition laser_in_bounds (l : Laser.t) : Prop :=
  in_bounds (Laser.x l) (Laser.y l).
Definition asteroid_in_bounds (a : Asteroid.t) : Prop :=
  in_bounds (Asteroid.x a) (Asteroid.y a).
Definition all_in_bounds (g : Game.t) : Prop :=
  in_bounds (Ship.x (Game.ship g)) (Ship.y (Game.ship g))
  /\ Forall laser_in_bounds (Game.lasers g)
  /\ Forall asteroid_in_bounds (Game.asteroids g).

(** ** Vocabulary of the further properties *)

(** The speed of an asteroid and of a laser. *)
Definition asteroid_speed (a : Asteroid.t) : R :=
  hypot (Asteroid.vx a) (Asteroid.vy a).
Definition laser_speed (l : Laser.t) : R :=
  hypot (Laser.vx l) (Laser.vy l).

(** The distance between two points. *)
Definition dist (p q : R * R) : R := hypot (fst p - fst q) (snd p - snd q).

(** What holds of every asteroid of a fresh wave. *)
Definition fresh_rock (a : Asteroid.t) : Prop :=
  (ASTEROID_MAX_RADIUS - 15 <= Asteroid.radius a <= ASTEROID_MAX_RADIUS)%Z
  /\ 9 / 10 <= asteroid_speed a < 18 / 10
  /\ (exists x y : Z,
        Asteroid.x a = IZR x /\ Asteroid.y a = IZR y
        /\ (Game.margin <= x < WIDTH - Game.margin)%Z
        /\ (Game.margin <= y < HEIGHT - Game.margin)%Z).

(** An asteroid radius between the two bounds of the configuration. *)
Definition rock_sized (a : Asteroid.t) : Prop :=
  (ASTEROID_MIN_RADIUS <= Asteroid.radius a <= ASTEROID_MAX_RADIUS)%Z.

(** What holds of the session at every point of a run. *)
Definition sane (g : Game.t) : Prop :=
  (0 <= Game.score g)%Z
  /\ (0 <= Game.lives g <= LIVES)%Z
  /\ (Game.game_over g = true <-> Game.lives g = 0%Z)
  /\ Forall rock_sized (Game.asteroids g)
  /\ Forall (fun l => Laser.radius l = 3%Z) (Game.lasers g)
  /\ Ship.radius (Game.ship g) = 12%Z.

(** The state after a ship-asteroid hit in the state [g], the clock
    reading [until - INVULN_TIME] at the reset. *)
Definition after_hit (g : Game.t) (until : Z) : Game.t :=
  {| Game.ship := respawned until;
     Game.lasers := Game.lasers g; Game.asteroids := Game.asteroids g;
     Game.score := Game.score g; Game.lives := Game.lives g - 1;
     Game.last_shot := Game.last_shot g;
     Game.running := Game.running g; Game.paused := Game.paused g;
     Game.game_over :=
       if (Game.lives g - 1 <=? 0)%Z then true else Game.game_over g |}.

(** The state that the tick of [last_life_game] returns. *)
Definition last_life_after : Game.t :=
  {| Game.ship := respawned 2550; Game.lasers := [];
     Game.asteroids := [rock (480 + 0) (360 + 0) 20; rock (490 + 0) (360 + 0) 30];
     Game.score := 0; Game.lives := 0; Game.last_shot := 0;
     Game.running := true; Game.paused := false; Game.game_over := true |}.

(** Key states used in the statements about thrust. *)
Definition strafe_both (k : Keys) : Keys :=
  {| K_w := K_w k; K_UP := K_UP k; K_s := K_s k; K_DOWN := K_DOWN k;
     K_a := true; K_LEFT := K_LEFT k; K_d := true; K_RIGHT := K_RIGHT k |}.
Definition strafe_none (k : Keys) : Keys :=
  {| K_w := K_w k; K_UP := K_UP k; K_s := K_s k; K_DOWN := K_DOWN k;
     K_a := false; K_LEFT := false; K_d := false; K_RIGHT := false |}.
Definition only_forward : Keys :=
  {| K_w := true; K_UP := false; K_s := false; K_DOWN := false;
     K_a := false; K_LEFT := false; K_d := false; K_RIGHT := false |}.
Definition forward_and_back : Keys :=
  {| K_w := true; K_UP := false; K_s := true; K_DOWN := false;
     K_a := false; K_LEFT := false; K_d := false; K_RIGHT := false |}.

(** Some laser of [ls] overlaps the asteroid [a]. *)
Definition hit_by_any (ls : list Laser.t) (a : Asteroid.t) : bool :=
  existsb (Game.laser_hits a) ls.

(** Position and velocity of a laser. *)
Definition laser_track (l : Laser.t) : R * R * R * R :=
  (Laser.x l, Laser.y l, Laser.vx l, Laser.vy l).

(** Kinds of events. *)
Definition is_quit (ev : Event) : bool :=
  match ev with
  | QUIT => true
  | KEYDOWN K_ESCAPE => true
  | _ => false
  end.
Definition is_restart (ev : Event) : bool :=
  match ev with KEYDOWN K_r => true | _ => false end.
Definition is_pause (ev : Event) : bool :=
  match ev with KEYDOWN K_p => true | _ => false end.
Definition is_click (ev : Event) : bool :=
  match ev with MOUSEBUTTONDOWN b => (b =? 1)%Z | _ => false end.

(** The paused flag after the P presses of a batch. *)
Definition toggled (p : bool) (evs : list Event) : bool :=
  fold_left (fun q ev => if is_pause ev then negb q else q) evs p.

(** Two sessions that differ at most in the flags [running] and
    [paused]. *)
Definition same_play (g g' : Game.t) : Prop :=
  Game.ship g' = Game.ship g /\ Game.lasers g' = Game.lasers g
  /\ Game.asteroids g' = Game.asteroids g /\ Game.score g' = Game.score g
  /\ Game.lives g' = Game.lives g /\ Game.last_shot g' = Game.last_shot g
  /\ Game.game_over g' = Game.game_over g.

(** The session [g] with its two flags [running] and [paused] replaced. *)
Definition with_flags (g : Game.t) (r p : bool) : Game.t :=
  {| Game.ship := Game.ship g; Game.lasers := Game.lasers g;
     Game.asteroids := Game.asteroids g; Game.score := Game.score g;
     Game.lives := Game.lives g; Game.last_shot := Game.last_shot g;
     Game.running := r; Game.paused := p; Game.game_over := Game.game_over g |}.

(** The session after a batch of events that contains no honoured
    restart and no honoured shot. *)
Definition flags_after (g : Game.t) (evs : list Event) : Game.t :=
  with_flags g (Game.running g && negb (existsb is_quit evs))
             (toggled (Game.paused g) evs).

(** A batch of events used in the examples: a click, a pause, a quit. *)
Definition click_pause_quit : list Event :=
  [MOUSEBUTTONDOWN 1; KEYDOWN K_p; QUIT].

(** A session that is over, with a score, and a batch that quits and
    then restarts. *)
Definition over_game : Game.t := bare_game 40 0 false true.
Definition quit_then_restart : list Event := [QUIT; KEYDOWN K_r].

(** An iteration of the main loop in which the player quits. *)
Definition quitting_input : Loop.Input :=
  {| Loop.events := [QUIT]; Loop.keys := no_keys;
     Loop.mouse_pos := (0%Z, 0%Z); Loop.dt := 16 |}.

(** An iteration of the main loop with clicks and keys held but no R. *)
Definition busy_input : Loop.Input :=
  {| Loop.events := [MOUSEBUTTONDOWN 1; KEYDOWN K_other];
     Loop.keys := only_forward;
     Loop.mouse_pos := (5%Z, 5%Z); Loop.dt := 16 |}.

(** A paused session, for the main loop. *)
Definition paused_game : Game.t := bare_game 0 3 true false.


(** The names of the waveforms, as [synth_tone] spells them. *)
Module Kinds.
Import Stdlib.Strings.String.
Definition square : string := "square".
Definition saw : string := "saw".
Definition sine : string := "sine".
End Kinds.

(** What the loop [for i in range(nframes)] of [synth_tone] writes, the
    three integers [amp], [nframes] and [fo] being those that [int()]
    returned at lines 37-39; [synth_tone] is this loop at those
    integers.  Likewise for [synth_noise_burst]. *)
Definition tone_frames (amp nframes fo : Z) (freq : R) (kind : String.string)
  : option (list Z) :=
  Audio.tone_loop amp nframes fo freq kind (seq 0 (Z.to_nat nframes)).
Definition noise_frames (e : Env) (amp nframes : Z) (c : Cur)
  : option (list Z * Cur) :=
  Audio.noise_loop e amp nframes (seq 0 (Z.to_nat nframes)) c.

(** A frame that fits in 16 bits with room to spare: the range that
    [synth_tone] and [synth_noise_burst] can produce. *)
Definition frame_ok (v : Z) : Prop := (-32767 <= v <= 32767)%Z.


(** Binary64 inputs of the examples. *)
Module Edge.
Import Stdlib.Floats.PrimFloat.

(** The binary64 number nearest to -1e-18, which is what the Python
    literal [-1e-18] denotes. *)
Definition minus_tiny : float := Eval cbv in (- 0x1.2725dd1d243acp-60)%float.

(** A position well inside the playfield, and a step of one pixel. *)
Definition hundred : float := 100%float.
Definition near_edge : float := 959.5%float.
Definition half : float := 0.5%float.

End Edge.
(** * Properties *)

(** ** Real-number helpers *)

Lemma pymod_range (x m : R) : 0 < m -> 0 <= pymod x m < m.
Proof.
  intros Hm. unfold pymod.
  destruct (base_Int_part (x / m)) as [Hlo Hhi].
  assert (Hx : x = m * (x / m)) by (field; lra).
  set (q := IZR (Int_part (x / m))) in *.
  split.
  - assert (m * q <= m * (x / m)) by (apply Rmult_le_compat_l; lra). lra.
  - assert (m * (x / m) < m * (q + 1)) by (apply Rmult_lt_compat_l; lra). lra.
Qed.

Lemma wrap_position_range (x y : R) :
  0 <= fst (wrap_position x y) < IZR WIDTH
  /\ 0 <= snd (wrap_position x y) < IZR HEIGHT.
Proof.
  unfold wrap_position; simpl; split; apply pymod_range;
    unfold WIDTH, HEIGHT; lra.
Qed.

Lemma sqrt_scaled (a b k : R) :
  0 <= k -> sqrt ((a * k) * (a * k) + (b * k) * (b * k)) = k * sqrt (a * a + b * b).
Proof.
  intros Hk.
  replace ((a * k) * (a * k) + (b * k) * (b * k)) with ((k * k) * (a * a + b * b))
    by ring.
  rewrite sqrt_mult_alt by nra.
  rewrite sqrt_square by exact Hk. reflexivity.
Qed.

(** ** The frozen states *)

(** C10. While the paused flag or the game-over flag is set, [update]
    returns at once: the whole game state (ship, lasers, asteroids, score,
    lives, flags) comes back as it was, and neither the random generator
    nor the clock is consulted. *)
Theorem update_paused_or_over_is_identity :
  forall (e : Env) (fuel : nat) (g : Game.t) (keys : Keys) (dt : Z)
         (mouse_pos : Z * Z) (c : Cur),
    Game.game_over g || Game.paused g = true ->
    Game.update e fuel g keys dt mouse_pos c = Some (g, c).
Proof.
  intros e fuel g keys dt mouse_pos c H.
  unfold Game.update. rewrite H. reflexivity.
Qed.

Lemma update_paused_or_over_is_identity_witness :
  Game.update (env_const 0) 0 (bare_game 7 2 true false) no_keys 16
              (0%Z, 0%Z) cur0
  = Some (bare_game 7 2 true false, cur0)
  /\ Game.update (env_const 0) 0 (bare_game 7 0 false true) no_keys 16
                 (0%Z, 0%Z) cur0
     = Some (bare_game 7 0 false true, cur0).
Proof.
  split; apply update_paused_or_over_is_identity; reflexivity.
Defined.

(** ** Toroidal wrapping *)

(** The update of each kind of entity ends inside the playfield. *)
Lemma entity_updates_wrap :
  (forall x y, in_bounds (fst (wrap_position x y)) (snd (wrap_position x y)))
  /\ (forall e l dt c,
        in_bounds (Laser.x (fst (Laser.update e l dt c)))
                  (Laser.y (fst (Laser.update e l dt c))))
  /\ (forall a dt,
        in_bounds (Asteroid.x (Asteroid.update a dt))
                  (Asteroid.y (Asteroid.update a dt)))
  /\ (forall s keys dt mouse_pos,
        in_bounds (Ship.x (Ship.update s keys dt mouse_pos))
                  (Ship.y (Ship.update s keys dt mouse_pos))).
Proof.
  repeat split; intros;
    try (apply (wrap_position_range x y));
    try (destruct (wrap_position_range (Laser.x l + Laser.vx l)
                                       (Laser.y l + Laser.vy l)) as [? ?];
         unfold Laser.update, wrap_position in *; simpl in *; lra);
    try (destruct (wrap_position_range (Asteroid.x a + Asteroid.vx a)
                                       (Asteroid.y a + Asteroid.vy a)) as [? ?];
         unfold Asteroid.update, wrap_position in *; simpl in *; lra).
  all: unfold Ship.update; destruct mouse_pos as [mx my];
    match goal with
    | |- context [wrap_position ?a ?b] =>
        destruct (wrap_position_range a b) as [? ?];
        unfold wrap_position in *; simpl in *; lra
    end.
Qed.

(** ** The ship's motion *)

Lemma clamp_speed_velocity (s : Ship.t) :
  exists k, 0 < k <= 1
            /\ Ship.vx (Ship.clamp_speed s) = k * Ship.vx s
            /\ Ship.vy (Ship.clamp_speed s) = k * Ship.vy s.
Proof.
  unfold Ship.clamp_speed.
  destruct (Rgt_dec (hypot (Ship.vx s) (Ship.vy s)) SHIP_MAX_SPEED) as [Hgt | Hle].
  - exists (SHIP_MAX_SPEED / hypot (Ship.vx s) (Ship.vy s)).
    unfold SHIP_MAX_SPEED in *. simpl.
    set (h := hypot (Ship.vx s) (Ship.vy s)) in *.
    assert (Hh : 0 < h) by lra.
    repeat split; try ring.
    + apply Rdiv_lt_0_compat; lra.
    + apply (Rmult_le_reg_r h); [exact Hh |].
      unfold Rdiv. rewrite Rmult_assoc, Rinv_l by lra. lra.
  - exists 1. repeat split; try lra.
Qed.

Lemma clamp_speed_bound (s : Ship.t) :
  Ship.speed (Ship.clamp_speed s) <= SHIP_MAX_SPEED.
Proof.
  unfold Ship.clamp_speed, Ship.speed.
  destruct (Rgt_dec (hypot (Ship.vx s) (Ship.vy s)) SHIP_MAX_SPEED) as [Hgt | Hle].
  - simpl. unfold hypot in *.
    set (h := sqrt (Ship.vx s * Ship.vx s + Ship.vy s * Ship.vy s)) in *.
    assert (Hh : 0 < h) by (unfold SHIP_MAX_SPEED in Hgt; lra).
    rewrite sqrt_scaled.
    + fold h. unfold Rdiv. rewrite Rmult_assoc, Rinv_l by lra. lra.
    + apply Rlt_le, Rdiv_lt_0_compat; unfold SHIP_MAX_SPEED; lra.
  - unfold hypot in Hle. lra.
Qed.

Lemma ship_update_blocks (s : Ship.t) (keys : Keys) (dt : Z) (mouse_pos : Z * Z) :
  Ship.update s keys dt mouse_pos
  = Ship.wrap
      (Ship.integrate
         (Ship.friction
            (Ship.clamp_speed (Ship.thrust (Ship.aim s mouse_pos) keys)))).
Proof.
  destruct mouse_pos as [mx my].
  unfold Ship.update, Ship.thrust, Ship.aim, Ship.push.
  cbn [fst snd Ship.x Ship.y Ship.vx Ship.vy Ship.angle].
  destruct (K_w keys || K_UP keys), (K_s keys || K_DOWN keys),
    (K_a keys || K_LEFT keys), (K_d keys || K_RIGHT keys);
    cbv zeta;
    unfold Ship.clamp_speed, Ship.with_velocity;
    cbn [fst snd Ship.vadd Ship.x Ship.y Ship.vx Ship.vy Ship.angle];
    match goal with
    | |- context [Rgt_dec ?h SHIP_MAX_SPEED] =>
        destruct (Rgt_dec h SHIP_MAX_SPEED)
    end; reflexivity.
Qed.

Lemma clamp_speed_cases (s : Ship.t) :
  (Ship.speed s > SHIP_MAX_SPEED ->
   Ship.speed (Ship.clamp_speed s) = SHIP_MAX_SPEED)
  /\ (Ship.speed s <= SHIP_MAX_SPEED -> Ship.clamp_speed s = s).
Proof.
  unfold Ship.clamp_speed, Ship.speed, hypot.
  set (h := sqrt (Ship.vx s * Ship.vx s + Ship.vy s * Ship.vy s)).
  destruct (Rgt_dec h SHIP_MAX_SPEED) as [Hgt | Hle]; split; intros H;
    try lra; try reflexivity.
  cbn [Ship.with_velocity Ship.vx Ship.vy fst snd].
  assert (Hh : 0 < h) by (unfold SHIP_MAX_SPEED in Hgt; lra).
  rewrite sqrt_scaled.
  - fold h. unfold Rdiv. rewrite Rmult_assoc, Rinv_l by lra. lra.
  - apply Rlt_le, Rdiv_lt_0_compat; unfold SHIP_MAX_SPEED; lra.
Qed.

Lemma clamp_speed_place (s : Ship.t) :
  Ship.x (Ship.clamp_speed s) = Ship.x s
  /\ Ship.y (Ship.clamp_speed s) = Ship.y s
  /\ Ship.angle (Ship.clamp_speed s) = Ship.angle s.
Proof.
  unfold Ship.clamp_speed.
  destruct (Rgt_dec _ _); repeat split.
Qed.

Lemma thrust_sum (s : Ship.t) (keys : Keys) :
  let back := SHIP_THRUST * (6 / 10) in
  Ship.vx (Ship.thrust s keys)
  = Ship.vx s
    + key_push (K_w keys || K_UP keys) (cos (Ship.angle s) * SHIP_THRUST)
    + key_push (K_s keys || K_DOWN keys) (cos (Ship.angle s + PI) * back)
    + key_push (K_a keys || K_LEFT keys) (cos (Ship.angle s - PI / 2) * back)
    + key_push (K_d keys || K_RIGHT keys) (cos (Ship.angle s + PI / 2) * back)
  /\ Ship.vy (Ship.thrust s keys)
     = Ship.vy s
       + key_push (K_w keys || K_UP keys) (sin (Ship.angle s) * SHIP_THRUST)
       + key_push (K_s keys || K_DOWN keys) (sin (Ship.angle s + PI) * back)
       + key_push (K_a keys || K_LEFT keys) (sin (Ship.angle s - PI / 2) * back)
       + key_push (K_d keys || K_RIGHT keys) (sin (Ship.angle s + PI / 2) * back)
  /\ Ship.x (Ship.thrust s keys) = Ship.x s
  /\ Ship.y (Ship.thrust s keys) = Ship.y s
  /\ Ship.angle (Ship.thrust s keys) = Ship.angle s.
Proof.
  intros back. unfold Ship.thrust, Ship.push, key_push.
  destruct (K_w keys || K_UP keys), (K_s keys || K_DOWN keys),
    (K_a keys || K_LEFT keys), (K_d keys || K_RIGHT keys);
    cbn [Ship.with_velocity Ship.vx Ship.vy Ship.x Ship.y Ship.angle fst snd
         Ship.vadd vec_from_angle];
    fold back; repeat split; ring.
Qed.

(** C6. One [Ship.update] is, in this order: aim, add the thrust of the
    held keys, clamp the speed, apply friction, integrate the position,
    wrap.  Aiming sets the angle to atan2 of the displacement to the
    pointer.  The thrust adds to the velocity, for each held key, its
    push along the new angle (W: SHIP_THRUST forward; S, A, D:
    0.6 * SHIP_THRUST at angle + pi, - pi/2, + pi/2) and nothing else.
    The clamp rescales the velocity by one factor in (0, 1] (so the
    direction is kept): to speed SHIP_MAX_SPEED when the speed was above
    it, not at all otherwise; so right after the clamp, before friction,
    the speed sqrt(vx^2 + vy^2) is at most SHIP_MAX_SPEED (hence at most
    SHIP_MAX_SPEED + epsilon for every epsilon >= 0).  Friction then
    multiplies the velocity by SHIP_FRICTION, which is below 1; the
    position moves by that velocity and is wrapped. *)
Theorem ship_update_order_and_clamp :
  forall (s : Ship.t) (keys : Keys) (dt : Z) (mouse_pos : Z * Z),
    let ang :=
      atan2 (IZR (snd mouse_pos) - Ship.y s) (IZR (fst mouse_pos) - Ship.x s) in
    let back := SHIP_THRUST * (6 / 10) in
    let thrusted := Ship.thrust (Ship.aim s mouse_pos) keys in
    let clamped := Ship.clamp_speed thrusted in
    let slowed := Ship.friction clamped in
    let s' := Ship.update s keys dt mouse_pos in
    s' = Ship.wrap (Ship.integrate (Ship.friction clamped))
    /\ (exists k, 0 < k <= 1
                  /\ Ship.vx clamped = k * Ship.vx thrusted
                  /\ Ship.vy clamped = k * Ship.vy thrusted)
    /\ Ship.speed clamped <= SHIP_MAX_SPEED
    /\ (forall eps, 0 <= eps -> Ship.speed clamped <= SHIP_MAX_SPEED + eps)
    /\ 0 < SHIP_FRICTION < 1
    /\ Ship.vx (Ship.friction clamped) = Ship.vx clamped * SHIP_FRICTION
    /\ Ship.vy (Ship.friction clamped) = Ship.vy clamped * SHIP_FRICTION
    /\ Ship.angle thrusted = ang
    /\ Ship.vx thrusted
       = Ship.vx s
         + key_push (K_w keys || K_UP keys) (cos ang * SHIP_THRUST)
         + key_push (K_s keys || K_DOWN keys) (cos (ang + PI) * back)
         + key_push (K_a keys || K_LEFT keys) (cos (ang - PI / 2) * back)
         + key_push (K_d keys || K_RIGHT keys) (cos (ang + PI / 2) * back)
    /\ Ship.vy thrusted
       = Ship.vy s
         + key_push (K_w keys || K_UP keys) (sin ang * SHIP_THRUST)
         + key_push (K_s keys || K_DOWN keys) (sin (ang + PI) * back)
         + key_push (K_a keys || K_LEFT keys) (sin (ang - PI / 2) * back)
         + key_push (K_d keys || K_RIGHT keys) (sin (ang + PI / 2) * back)
    /\ (Ship.speed thrusted > SHIP_MAX_SPEED ->
        Ship.speed clamped = SHIP_MAX_SPEED)
    /\ (Ship.speed thrusted <= SHIP_MAX_SPEED -> clamped = thrusted)
    /\ Ship.vx s' = Ship.vx slowed
    /\ Ship.vy s' = Ship.vy slowed
    /\ Ship.x s' = pymod (Ship.x s + Ship.vx slowed) (IZR WIDTH)
    /\ Ship.y s' = pymod (Ship.y s + Ship.vy slowed) (IZR HEIGHT)
    /\ Ship.angle s' = ang.
Proof.
  intros s keys dt mouse_pos ang back thrusted clamped slowed s'.
  assert (Hblocks : s' = Ship.wrap (Ship.integrate slowed))
    by apply ship_update_blocks.
  split; [exact Hblocks |].
  split; [apply clamp_speed_velocity |].
  pose proof (clamp_speed_bound thrusted) as Hb. fold clamped in Hb.
  split; [exact Hb |].
  split; [intros eps Heps; lra |].
  split; [unfold SHIP_FRICTION; lra |].
  split; [reflexivity |]. split; [reflexivity |].
  destruct (thrust_sum (Ship.aim s mouse_pos) keys) as (Tx & Ty & Px & Py & Pa).
  fold thrusted in Tx, Ty, Px, Py, Pa.
  cbn [Ship.aim Ship.angle Ship.vx Ship.vy Ship.x Ship.y] in Tx, Ty, Px, Py, Pa.
  fold ang in Tx, Ty, Pa. fold back in Tx, Ty.
  split; [exact Pa |]. split; [exact Tx |]. split; [exact Ty |].
  destruct (clamp_speed_cases thrusted) as [Cgt Cle]. fold clamped in Cgt, Cle.
  split; [exact Cgt |]. split; [exact Cle |].
  destruct (clamp_speed_place thrusted) as (Cx & Cy & Ca).
  fold clamped in Cx, Cy, Ca.
  assert (Sx : Ship.x slowed = Ship.x s)
    by (unfold slowed, Ship.friction, Ship.with_velocity; cbn [Ship.x];
        rewrite Cx; exact Px).
  assert (Sy : Ship.y slowed = Ship.y s)
    by (unfold slowed, Ship.friction, Ship.with_velocity; cbn [Ship.y];
        rewrite Cy; exact Py).
  assert (Sa : Ship.angle slowed = ang)
    by (unfold slowed, Ship.friction, Ship.with_velocity; cbn [Ship.angle];
        rewrite Ca; exact Pa).
  rewrite Hblocks.
  unfold Ship.wrap, Ship.integrate, wrap_position.
  cbn [Ship.x Ship.y Ship.vx Ship.vy Ship.angle fst snd].
  rewrite Sx, Sy, Sa. repeat split.
Qed.

Lemma ship_update_order_and_clamp_witness :
  Ship.vx (Ship.thrust (Ship.aim Ship.init (580%Z, 360%Z)) forward_key)
  = 18 / 100
  /\ Ship.speed
       (Ship.clamp_speed (Ship.thrust (Ship.aim fast_ship (0%Z, 0%Z)) forward_key))
     <= SHIP_MAX_SPEED + 1 / 1000.
Proof.
  split.
  - destruct (ship_update_order_and_clamp Ship.init forward_key 16 (580%Z, 360%Z))
      as (_ & _ & _ & _ & _ & _ & _ & _ & Tx & _).
    cbv zeta in Tx. rewrite Tx.
    unfold forward_key, key_push, Ship.init, WIDTH, HEIGHT, SHIP_THRUST.
    cbn [K_w K_UP K_s K_DOWN K_a K_LEFT K_d K_RIGHT orb fst snd
         Ship.x Ship.y Ship.vx].
    replace (atan2 (360 - 720 / 2) (580 - 960 / 2)) with 0.
    + rewrite cos_0. lra.
    + unfold atan2. destruct (Rlt_dec 0 (580 - 960 / 2)) as [_ | N]; [| lra].
      replace ((360 - 720 / 2) / (580 - 960 / 2)) with 0 by lra.
      symmetry. apply atan_0.
  - apply (ship_update_order_and_clamp fast_ship forward_key 16 (0%Z, 0%Z)); lra.
Defined.

(** ** Weapon cooldown *)

Lemma shoot_rejected (e : Env) (g : Game.t) (c : Cur) :
  (ticks e (clk c) - Game.last_shot g < LASER_COOLDOWN)%Z ->
  Game.shoot e g c = (g, next_clk c).
Proof.
  intros H. unfold Game.shoot, get_ticks.
  apply Z.ltb_lt in H. rewrite H. reflexivity.
Qed.

Lemma shoot_accepted (e : Env) (g : Game.t) (c : Cur) :
  (LASER_COOLDOWN <= ticks e (clk c) - Game.last_shot g)%Z ->
  Game.shoot e g c
  = ({| Game.ship := Game.ship g;
        Game.lasers :=
          Game.lasers g
          ++ [nose_laser (Game.ship g) (ticks e (S (clk c)))];
        Game.asteroids := Game.asteroids g;
        Game.score := Game.score g; Game.lives := Game.lives g;
        Game.last_shot := ticks e (clk c);
        Game.running := Game.running g; Game.paused := Game.paused g;
        Game.game_over := Game.game_over g |},
     next_clk (next_clk c)).
Proof.
  intros H. unfold Game.shoot, get_ticks.
  apply Z.ltb_ge in H. rewrite H. reflexivity.
Qed.

(** C5 as stated fails: two requests within the cooldown can produce no
    projectile.  After a shot at clock reading 990, the requests at
    readings 1000 and 1050, which are 50 ms apart, are both rejected. *)
Lemma two_requests_no_laser :
  (ticks env_clock50 1 - ticks env_clock50 0 < LASER_COOLDOWN)%Z
  /\ Game.lasers just_fired = []
  /\ length
       (Game.lasers
          (fst (Game.shoot env_clock50
                  (fst (Game.shoot env_clock50 just_fired cur0))
                  (snd (Game.shoot env_clock50 just_fired cur0)))))
     = 0%nat.
Proof.
  split; [unfold LASER_COOLDOWN; simpl; lia |].
  split; [reflexivity |].
  rewrite (shoot_rejected env_clock50 just_fired cur0)
    by (unfold LASER_COOLDOWN; simpl; lia).
  cbn [fst snd].
  rewrite shoot_rejected by (unfold LASER_COOLDOWN; simpl; lia).
  reflexivity.
Qed.

(** C5, amended.  A call of [shoot] at clock reading [now] appends a laser exactly
    when now - last_shot >= LASER_COOLDOWN.  An accepted call appends one
    laser, at the ship's nose (the ship's position moved by 1.8 times the
    ship's radius along the facing angle), with velocity
    (cos angle, sin angle) * LASER_SPEED, and sets last_shot to [now]; a
    rejected call returns the game state as it was.  Two calls whose clock
    readings are less than LASER_COOLDOWN apart never append two lasers:
    they append exactly one when the first of them is accepted, and none
    when both fall inside the cooldown of an earlier shot. *)
Theorem shoot_cooldown :
  forall (e : Env) (g : Game.t) (c : Cur),
    let now := ticks e (clk c) in
    let g1 := fst (Game.shoot e g c) in
    (length (Game.lasers g1) = S (length (Game.lasers g))
     <-> (now - Game.last_shot g >= LASER_COOLDOWN)%Z)
    /\ ((now - Game.last_shot g >= LASER_COOLDOWN)%Z ->
        Game.lasers g1
        = Game.lasers g ++ [nose_laser (Game.ship g) (ticks e (S (clk c)))]
        /\ Game.last_shot g1 = now
        /\ Game.ship g1 = Game.ship g
        /\ Game.asteroids g1 = Game.asteroids g
        /\ Game.score g1 = Game.score g
        /\ Game.lives g1 = Game.lives g
        /\ Game.running g1 = Game.running g
        /\ Game.paused g1 = Game.paused g
        /\ Game.game_over g1 = Game.game_over g)
    /\ ((now - Game.last_shot g < LASER_COOLDOWN)%Z -> g1 = g)
    /\ (forall c2 : Cur,
          let g2 := fst (Game.shoot e g1 c2) in
          (ticks e (clk c2) - now < LASER_COOLDOWN)%Z ->
          (length (Game.lasers g2) <= S (length (Game.lasers g)))%nat
          /\ ((now - Game.last_shot g >= LASER_COOLDOWN)%Z ->
              Game.lasers g2
              = Game.lasers g
                ++ [nose_laser (Game.ship g) (ticks e (S (clk c)))])
          /\ ((now - Game.last_shot g < LASER_COOLDOWN)%Z ->
              (ticks e (clk c2) - Game.last_shot g < LASER_COOLDOWN)%Z ->
              g2 = g)).
Proof.
  intros e g c now g1.
  destruct (Z_lt_ge_dec (now - Game.last_shot g) LASER_COOLDOWN) as [Hlt | Hge].
  - assert (E1 : g1 = g)
      by (unfold g1; rewrite shoot_rejected by exact Hlt; reflexivity).
    split; [rewrite E1; split; lia |].
    split; [intros; lia |].
    split; [intros _; exact E1 |].
    intros c2 g2 Hnear. split; [| split; [intros; lia |]].
    + unfold g2. rewrite E1.
      destruct (Z_lt_ge_dec (ticks e (clk c2) - Game.last_shot g) LASER_COOLDOWN)
        as [H2 | H2].
      * rewrite shoot_rejected by exact H2. simpl. lia.
      * rewrite shoot_accepted by lia. simpl. rewrite length_app. simpl. lia.
    + intros _ H2. unfold g2. rewrite E1.
      rewrite shoot_rejected by exact H2. reflexivity.
  - assert (E1 : g1 = fst (Game.shoot e g c)) by reflexivity.
    rewrite shoot_accepted in E1 by lia. simpl in E1.
    assert (Hlen : length (Game.lasers g1) = S (length (Game.lasers g)))
      by (rewrite E1; simpl; rewrite length_app; simpl; lia).
    split; [split; intros; [exact Hge | exact Hlen] |].
    split; [intros _; rewrite E1; simpl; repeat split; reflexivity |].
    split; [intros; lia |].
    intros c2 g2 Hnear.
    assert (E2 : g2 = g1).
    { unfold g2. rewrite shoot_rejected; [reflexivity |].
      rewrite E1. simpl. fold now. exact Hnear. }
    rewrite E2. split; [lia |].
    split; [intros _; rewrite E1; reflexivity | intros; lia].
Qed.

Lemma shoot_cooldown_witness :
  Game.lasers
    (fst (Game.shoot env_clock50
            (fst (Game.shoot env_clock50 (bare_game 0 3 false false) cur0))
            {| rng := 0; clk := 2 |}))
  = [nose_laser Ship.init 1050].
Proof.
  pose proof (shoot_cooldown env_clock50 (bare_game 0 3 false false) cur0) as H.
  cbv zeta in H. destruct H as (_ & _ & _ & H).
  destruct (H {| rng := 0; clk := 2 |}) as (_ & H2 & _).
  - unfold LASER_COOLDOWN. simpl. lia.
  - apply H2. unfold LASER_COOLDOWN. simpl. lia.
Defined.

(** ** Ship against asteroids *)

Lemma circles_meet_true (x1 y1 : R) (r1 : Z) (x2 y2 : R) (r2 : Z) :
  (x1 - x2) * (x1 - x2) + (y1 - y2) * (y1 - y2) <= IZR (r1 + r2) * IZR (r1 + r2) ->
  circles_meet x1 y1 r1 x2 y2 r2 = true.
Proof.
  intros H. unfold circles_meet.
  rewrite Z.pow_2_r, mult_IZR.
  destruct (Rle_dec _ _) as [_ | N]; [reflexivity | exfalso; apply N; lra].
Qed.

Lemma circles_meet_false (x1 y1 : R) (r1 : Z) (x2 y2 : R) (r2 : Z) :
  IZR (r1 + r2) * IZR (r1 + r2) < (x1 - x2) * (x1 - x2) + (y1 - y2) * (y1 - y2) ->
  circles_meet x1 y1 r1 x2 y2 r2 = false.
Proof.
  intros H. unfold circles_meet.
  rewrite Z.pow_2_r, mult_IZR.
  destruct (Rle_dec _ _) as [Y | _]; [exfalso; lra | reflexivity].
Qed.

(** Decide one concrete circle test. *)
Ltac meet_eval :=
  unfold Game.ship_hits, Game.laser_hits;
  first [ apply circles_meet_true | apply circles_meet_false ];
  simpl; unfold WIDTH, HEIGHT; lra.

Lemma ship_vs_asteroids_miss (e : Env) (l : list Asteroid.t) (g : Game.t) (c : Cur) :
  all_miss (Game.ship g) l -> Game.ship_vs_asteroids e l g c = (g, c).
Proof.
  induction 1 as [| a rest Ha _ IH]; simpl.
  - reflexivity.
  - rewrite Ha. exact IH.
Qed.

Lemma ship_vs_asteroids_first (e : Env) (pre post : list Asteroid.t)
  (a : Asteroid.t) (g : Game.t) (c : Cur) :
  all_miss (Game.ship g) pre ->
  Game.ship_hits a (Game.ship g) = true ->
  Game.ship_vs_asteroids e (pre ++ a :: post) g c
  = ({| Game.ship := respawned (ticks e (clk c) + INVULN_TIME);
        Game.lasers := Game.lasers g; Game.asteroids := Game.asteroids g;
        Game.score := Game.score g; Game.lives := Game.lives g - 1;
        Game.last_shot := Game.last_shot g;
        Game.running := Game.running g; Game.paused := Game.paused g;
        Game.game_over :=
          if (Game.lives g - 1 <=? 0)%Z then true else Game.game_over g |},
     next_clk c).
Proof.
  intros Hpre Ha. induction Hpre as [| b rest Hb _ IH]; simpl.
  - rewrite Ha. reflexivity.
  - rewrite Hb. exact IH.
Qed.

Lemma first_hit_split (s : Ship.t) (l : list Asteroid.t) :
  all_miss s l
  \/ exists pre a post,
       l = pre ++ a :: post /\ all_miss s pre /\ Game.ship_hits a s = true.
Proof.
  induction l as [| b rest IH].
  - left. constructor.
  - destruct (Game.ship_hits b s) eqn:Hb.
    + right. exists [], b, rest. repeat split; [constructor | exact Hb].
    + destruct IH as [Hm | (pre & a & post & -> & Hpre & Ha)].
      * left. constructor; assumption.
      * right. exists (b :: pre), a, post.
        repeat split; [constructor; assumption | exact Ha].
Qed.

(** C2. The ship-asteroid pass does nothing while the clock reading is
    below invuln_until.  When it runs, the first asteroid (in list order)
    whose circle meets the ship's costs exactly one life, puts the ship
    back at the spawn position, at rest, at angle 0, invulnerable until
    (clock reading at the reset) + INVULN_TIME, and ends the pass: the
    asteroids after it play no part, so at most one life is lost in the
    pass.  A life lost that brings lives to zero (or below) sets
    game_over.  When no asteroid meets the ship nothing changes. *)
Theorem ship_collision_phase :
  forall (e : Env) (g : Game.t) (c : Cur),
    let now := ticks e (clk c) in
    let g1 := fst (Game.ship_phase e g c) in
    ((now < Ship.invuln_until (Game.ship g))%Z -> g1 = g)
    /\ ((now >= Ship.invuln_until (Game.ship g))%Z ->
        all_miss (Game.ship g) (Game.asteroids g) -> g1 = g)
    /\ ((now >= Ship.invuln_until (Game.ship g))%Z ->
        forall pre a post,
          Game.asteroids g = pre ++ a :: post ->
          all_miss (Game.ship g) pre ->
          Game.ship_hits a (Game.ship g) = true ->
          Game.lives g1 = (Game.lives g - 1)%Z
          /\ Game.ship g1 = respawned (ticks e (S (clk c)) + INVULN_TIME)
          /\ Game.game_over g1
             = (if (Game.lives g - 1 <=? 0)%Z then true else Game.game_over g)
          /\ Game.asteroids g1 = Game.asteroids g
          /\ Game.lasers g1 = Game.lasers g
          /\ Game.score g1 = Game.score g)
    /\ (Game.lives g - 1 <= Game.lives g1 <= Game.lives g)%Z
    /\ ((Game.lives g1 < Game.lives g)%Z -> (Game.lives g1 <= 0)%Z ->
        Game.game_over g1 = true).
Proof.
  intros e g c now g1.
  assert (Hcold : (now < Ship.invuln_until (Game.ship g))%Z -> g1 = g).
  { intros H. unfold g1, Game.ship_phase, Ship.can_be_hit, get_ticks.
    fold now.
    assert (Hb : (now >=? Ship.invuln_until (Game.ship g))%Z = false)
      by (rewrite Z.geb_leb; apply Z.leb_gt; lia).
    rewrite Hb. reflexivity. }
  assert (Hhot : (now >= Ship.invuln_until (Game.ship g))%Z ->
                 g1 = fst (Game.ship_vs_asteroids e (Game.asteroids g) g (next_clk c))).
  { intros H. unfold g1, Game.ship_phase, Ship.can_be_hit, get_ticks.
    fold now.
    assert (Hb : (now >=? Ship.invuln_until (Game.ship g))%Z = true)
      by (rewrite Z.geb_leb; apply Z.leb_le; lia).
    rewrite Hb. reflexivity. }
  assert (Hmiss : (now >= Ship.invuln_until (Game.ship g))%Z ->
                  all_miss (Game.ship g) (Game.asteroids g) -> g1 = g).
  { intros H Hm. rewrite (Hhot H), ship_vs_asteroids_miss by exact Hm.
    reflexivity. }
  assert (Hhit : (now >= Ship.invuln_until (Game.ship g))%Z ->
                 forall pre a post,
                   Game.asteroids g = pre ++ a :: post ->
                   all_miss (Game.ship g) pre ->
                   Game.ship_hits a (Game.ship g) = true ->
                   g1 = fst (Game.ship_vs_asteroids e (pre ++ a :: post) g (next_clk c))).
  { intros H pre a post E _ _. rewrite (Hhot H), E. reflexivity. }
  split; [exact Hcold |]. split; [exact Hmiss |].
  split.
  { intros H pre a post E Hpre Ha.
    rewrite (Hhit H pre a post E Hpre Ha), ship_vs_asteroids_first by assumption.
    simpl. repeat split; reflexivity. }
  destruct (Z_lt_ge_dec now (Ship.invuln_until (Game.ship g))) as [Hc | Hh].
  { rewrite (Hcold Hc). split; [lia | intros; lia]. }
  destruct (first_hit_split (Game.ship g) (Game.asteroids g))
    as [Hm | (pre & a & post & E & Hpre & Ha)].
  { rewrite (Hmiss Hh Hm). split; [lia | intros; lia]. }
  rewrite (Hhit Hh pre a post E Hpre Ha), ship_vs_asteroids_first by assumption.
  simpl. split; [lia |].
  intros _ Hz. apply Z.leb_le in Hz. rewrite Hz. reflexivity.
Qed.

Lemma ship_collision_phase_witness :
  Game.lives (fst (Game.ship_phase env_clock50 last_life_game cur0)) = 0%Z
  /\ Game.ship (fst (Game.ship_phase env_clock50 last_life_game cur0))
     = respawned 2550
  /\ Game.game_over (fst (Game.ship_phase env_clock50 last_life_game cur0))
     = true.
Proof.
  pose proof (ship_collision_phase env_clock50 last_life_game cur0) as H.
  cbv zeta in H. destruct H as (_ & _ & H & _).
  assert (Hnow : (ticks env_clock50 (clk cur0)
                  >= Ship.invuln_until (Game.ship last_life_game))%Z)
    by (simpl; lia).
  destruct (H Hnow [] (rock 480 360 20) [rock 490 360 30] eq_refl
              (Forall_nil _)) as (Hl & Hs & Hg & _).
  - unfold last_life_game. meet_eval.
  - rewrite Hl, Hs, Hg. repeat split.
Defined.

(** ** Wave spawning *)

Lemma hypot_gt (x y d : R) : 0 <= d -> d * d < x * x + y * y -> hypot x y > d.
Proof.
  intros Hd H. unfold hypot.
  rewrite <- (sqrt_square d) by exact Hd.
  apply Rlt_gt, sqrt_lt_1_alt. nra.
Qed.

Lemma sample_position_step (e : Env) (fuel : nat) (s : Ship.t) (c : Cur) :
  Game.sample_position e (S fuel) s c
  = if Rgt_dec (hypot (IZR (attempt_x e (rng c)) - Ship.x s)
                      (IZR (attempt_y e (rng c)) - Ship.y s)) 200
    then Some (attempt_x e (rng c), attempt_y e (rng c), next_rng (next_rng c))
    else Game.sample_position e fuel s (next_rng (next_rng c)).
Proof. reflexivity. Qed.

Lemma sample_position_sound (e : Env) (s : Ship.t) (fuel : nat) :
  forall c x y c',
    Game.sample_position e fuel s c = Some (x, y, c') ->
    far_from s (IZR x) (IZR y) /\ clk c' = clk c.
Proof.
  induction fuel as [| fuel IH]; intros c x y c' H.
  - discriminate.
  - rewrite sample_position_step in H.
    destruct (Rgt_dec _ _) as [Hfar | _].
    + injection H as <- <- <-. split; [exact Hfar | reflexivity].
    + apply IH in H. exact H.
Qed.

Lemma sample_position_more_fuel (e : Env) (s : Ship.t) (fuel : nat) :
  forall c r,
    Game.sample_position e fuel s c = Some r ->
    forall fuel', (fuel <= fuel')%nat -> Game.sample_position e fuel' s c = Some r.
Proof.
  induction fuel as [| fuel IH]; intros c r H fuel' Hle.
  - discriminate.
  - destruct fuel' as [| fuel']; [lia |].
    rewrite sample_position_step in *.
    destruct (Rgt_dec _ _); [exact H |].
    apply (IH _ _ H). lia.
Qed.

Lemma sample_position_ends (e : Env) (s : Ship.t) (j : nat) :
  forall c,
    far_from s (IZR (attempt_x e (rng c + 2 * j))) (IZR (attempt_y e (rng c + 2 * j))) ->
    exists r, Game.sample_position e (S j) s c = Some r.
Proof.
  induction j as [| j IH]; intros c H; rewrite sample_position_step.
  - replace (rng c + 2 * 0)%nat with (rng c) in H by lia.
    destruct (Rgt_dec _ _) as [_ | N]; [eexists; reflexivity | contradiction].
  - destruct (Rgt_dec _ _) as [_ | _]; [eexists; reflexivity |].
    apply IH. simpl rng.
    replace (S (S (rng c)) + 2 * j)%nat with (rng c + 2 * S j)%nat by lia.
    exact H.
Qed.

Lemma randint_range (e : Env) (a b : Z) (c : Cur) :
  (a <= b)%Z -> (a <= fst (randint e a b c) <= b)%Z.
Proof.
  intros H. unfold randint, randrange, randbelow. simpl.
  pose proof (Z.mod_pos_bound (rnd_raw e (rng c)) (b + 1 - a)%Z). lia.
Qed.

Lemma init_random_fields (e : Env) (x y : R) (r : Z) (c : Cur) :
  Asteroid.x (fst (Asteroid.init_random e x y r c)) = x
  /\ Asteroid.y (fst (Asteroid.init_random e x y r c)) = y
  /\ Asteroid.radius (fst (Asteroid.init_random e x y r c)) = r.
Proof. repeat split. Qed.

Lemma spawn_loop_sound (e : Env) (s : Ship.t) (fuel n : nat) :
  forall acc c l c',
    Game.spawn_loop e fuel s n acc c = Some (l, c') ->
    exists wave,
      l = acc ++ wave /\ length wave = n /\ Forall (asteroid_far s) wave
      /\ Forall (fun a => (ASTEROID_MAX_RADIUS - 15 <= Asteroid.radius a
                           <= ASTEROID_MAX_RADIUS)%Z) wave.
Proof.
  induction n as [| n IH]; intros acc c l c' H; cbn [Game.spawn_loop] in H.
  - injection H as <- <-. exists []. rewrite app_nil_r.
    repeat split; constructor.
  - destruct (Game.sample_position e fuel s c) as [[[x y] c1] |] eqn:Hs;
      [| discriminate].
    apply sample_position_sound in Hs. destruct Hs as [Hfar _].
    pose proof (randint_range e (ASTEROID_MAX_RADIUS - 15) ASTEROID_MAX_RADIUS c1)
      as Hrad1.
    destruct (randint e _ _ c1) as [r c2].
    pose proof (init_random_fields e (IZR x) (IZR y) r c2) as (Hx & Hy & Hr).
    destruct (Asteroid.init_random e (IZR x) (IZR y) r c2) as [a c3].
    simpl in Hx, Hy, Hr, Hrad1.
    apply IH in H. destruct H as (wave & -> & Hlen & Hall & Hrad).
    exists (a :: wave). rewrite <- app_assoc. simpl.
    repeat split.
    + lia.
    + constructor; [| exact Hall].
      unfold asteroid_far. rewrite Hx, Hy. exact Hfar.
    + constructor; [| exact Hrad]. rewrite Hr.
      apply Hrad1. unfold ASTEROID_MAX_RADIUS. lia.
Qed.

Lemma spawn_loop_more_fuel (e : Env) (s : Ship.t) (fuel n : nat) :
  forall acc c r,
    Game.spawn_loop e fuel s n acc c = Some r ->
    forall fuel', (fuel <= fuel')%nat -> Game.spawn_loop e fuel' s n acc c = Some r.
Proof.
  induction n as [| n IH]; intros acc c r H fuel' Hle;
    cbn [Game.spawn_loop] in *.
  - exact H.
  - destruct (Game.sample_position e fuel s c) as [[[x y] c1] |] eqn:Hs;
      [| discriminate].
    rewrite (sample_position_more_fuel _ _ _ _ _ Hs _ Hle).
    destruct (randint e _ _ c1) as [rad c2].
    destruct (Asteroid.init_random e (IZR x) (IZR y) rad c2) as [a c3].
    apply (IH _ _ _ H). exact Hle.
Qed.

Lemma spawn_loop_ends (e : Env) (s : Ship.t) (n : nat) :
  eventually_far e s ->
  forall acc c, exists fuel r, Game.spawn_loop e fuel s n acc c = Some r.
Proof.
  intros Hev. induction n as [| n IH]; intros acc c.
  - exists 0%nat. eexists. reflexivity.
  - destruct (Hev (rng c)) as [j Hj].
    destruct (sample_position_ends e s j c Hj) as [[[x y] c1] Hs].
    destruct (randint e (ASTEROID_MAX_RADIUS - 15) ASTEROID_MAX_RADIUS c1)
      as [rad c2] eqn:Hr.
    destruct (Asteroid.init_random e (IZR x) (IZR y) rad c2) as [a c3] eqn:Ha.
    destruct (IH (acc ++ [a]) c3) as (fuel & r & Hrest).
    exists (Nat.max (S j) fuel), r. cbn [Game.spawn_loop].
    rewrite (sample_position_more_fuel _ _ _ _ _ Hs) by lia.
    rewrite Hr, Ha.
    apply (spawn_loop_more_fuel _ _ _ _ _ _ _ Hrest). lia.
Qed.

Lemma spawn_wave_sound (e : Env) (fuel : nat) (g : Game.t) (count : Z) (c : Cur)
  (g' : Game.t) (c' : Cur) :
  Game._spawn_wave e fuel g count c = Some (g', c') ->
  length (Game.asteroids g') = Z.to_nat count
  /\ Forall (asteroid_far (Game.ship g)) (Game.asteroids g')
  /\ Forall (fun a => (ASTEROID_MAX_RADIUS - 15 <= Asteroid.radius a
                       <= ASTEROID_MAX_RADIUS)%Z) (Game.asteroids g')
  /\ g' = Game.with_asteroids g (Game.asteroids g').
Proof.
  unfold Game._spawn_wave. intros H.
  destruct (Game.spawn_loop e fuel (Game.ship g) (Z.to_nat count) [] c)
    as [[l c1] |] eqn:Hl; [| discriminate].
  injection H as <- <-.
  apply spawn_loop_sound in Hl. destruct Hl as (wave & -> & Hlen & Hfar & Hrad).
  simpl. repeat split; assumption.
Qed.

Lemma spawn_wave_ends (e : Env) (g : Game.t) (count : Z) (c : Cur) :
  eventually_far e (Game.ship g) ->
  exists fuel0, forall fuel, (fuel0 <= fuel)%nat ->
    exists g' c', Game._spawn_wave e fuel g count c = Some (g', c').
Proof.
  intros Hev.
  destruct (spawn_loop_ends e (Game.ship g) (Z.to_nat count) Hev [] c)
    as (fuel0 & [l c1] & H).
  exists fuel0. intros fuel Hle. unfold Game._spawn_wave.
  rewrite (spawn_loop_more_fuel _ _ _ _ _ _ _ H _ Hle).
  eexists. eexists. reflexivity.
Qed.

Lemma next_count_range (sc : Z) :
  (0 <= sc)%Z -> (5 <= Game.next_count sc <= 12)%Z.
Proof.
  intros H. unfold Game.next_count.
  pose proof (Z.div_pos sc 15 H ltac:(lia)). lia.
Qed.

Lemma update_running (e : Env) (fuel : nat) (g : Game.t) (keys : Keys) (dt : Z)
  (mouse_pos : Z * Z) (c : Cur) :
  Game.game_over g || Game.paused g = false ->
  Game.update e fuel g keys dt mouse_pos c
  = Game.wave_phase e fuel (fst (after_collisions e g keys dt mouse_pos c))
                    (snd (after_collisions e g keys dt mouse_pos c)).
Proof.
  intros H. unfold Game.update, after_collisions. rewrite H.
  destruct (Game.motion_phase e g keys dt mouse_pos c) as [g1 c1].
  destruct (Game.laser_phase e g1 c1) as [g2 c2].
  destruct (Game.ship_phase e g2 c2) as [g3 c3]. reflexivity.
Qed.

(** C3. In a tick that is neither paused nor over, [update] ends with the
    next-wave test on the state left by the collision passes.  When that
    state has no asteroid and the game is not over, and the generator does
    not refuse positions for ever, the test spawns one wave: with enough
    attempts allowed the tick returns, and whenever it returns the new
    asteroid list has exactly min(12, 5 + score // 15) members (the score
    being non-negative), each at a distance above 200 from the ship's
    position, and nothing but the asteroid list has changed.  When the
    state has an asteroid left, or the game is over, the test changes
    nothing. *)
Theorem wave_trigger :
  forall (e : Env) (g : Game.t) (keys : Keys) (dt : Z) (mouse_pos : Z * Z)
         (c : Cur),
    let g3 := fst (after_collisions e g keys dt mouse_pos c) in
    let c3 := snd (after_collisions e g keys dt mouse_pos c) in
    Game.game_over g || Game.paused g = false ->
    (0 <= Game.score g3)%Z ->
    eventually_far e (Game.ship g3) ->
    (forall fuel, Game.update e fuel g keys dt mouse_pos c
                  = Game.wave_phase e fuel g3 c3)
    /\ (Game.asteroids g3 = [] -> Game.game_over g3 = false ->
        (exists fuel0, forall fuel, (fuel0 <= fuel)%nat ->
           exists g' c', Game.update e fuel g keys dt mouse_pos c = Some (g', c'))
        /\ (forall fuel g' c',
              Game.update e fuel g keys dt mouse_pos c = Some (g', c') ->
              Z.of_nat (length (Game.asteroids g'))
              = Z.min 12 (5 + Game.score g3 / 15)
              /\ Forall (fun a =>
                           hypot (Asteroid.x a - Ship.x (Game.ship g3))
                                 (Asteroid.y a - Ship.y (Game.ship g3)) > 200)
                        (Game.asteroids g')
              /\ g' = Game.with_asteroids g3 (Game.asteroids g')))
    /\ ((Game.asteroids g3 <> [] \/ Game.game_over g3 = true) ->
        forall fuel, Game.update e fuel g keys dt mouse_pos c = Some (g3, c3)).
Proof.
  intros e g keys dt mouse_pos c g3 c3 Hrun Hsc Hev.
  assert (Hup : forall fuel, Game.update e fuel g keys dt mouse_pos c
                             = Game.wave_phase e fuel g3 c3)
    by (intros fuel; apply update_running; exact Hrun).
  split; [exact Hup |]. split.
  - intros Hempty Hover.
    assert (Hw : forall fuel, Game.wave_phase e fuel g3 c3
                  = Game._spawn_wave e fuel g3 (Game.next_count (Game.score g3)) c3).
    { intros fuel. unfold Game.wave_phase. rewrite Hempty, Hover. reflexivity. }
    split.
    + destruct (spawn_wave_ends e g3 (Game.next_count (Game.score g3)) c3 Hev)
        as [fuel0 H0].
      exists fuel0. intros fuel Hle. rewrite Hup, Hw. apply H0. exact Hle.
    + intros fuel g' c' H. rewrite Hup, Hw in H.
      apply spawn_wave_sound in H. destruct H as (Hlen & Hfar & _ & Hrest).
      repeat split; try assumption.
      rewrite Hlen. pose proof (next_count_range _ Hsc) as Hr.
      unfold Game.next_count in *. lia.
  - intros Hnot fuel. rewrite Hup. unfold Game.wave_phase.
    destruct Hnot as [Hne | Hover].
    + destruct (Game.asteroids g3); [contradiction | reflexivity].
    + rewrite Hover, andb_false_r. reflexivity.
Qed.

Lemma pymod_small (x m : R) : 0 <= x < m -> pymod x m = x.
Proof.
  intros [Hlo Hhi]. unfold pymod.
  assert (Hm : 0 < m) by lra.
  assert (Hq : 0 <= x / m < 1).
  { split.
    - apply Rmult_le_pos; [exact Hlo | apply Rlt_le, Rinv_0_lt_compat; exact Hm].
    - apply (Rmult_lt_reg_r m); [exact Hm |].
      unfold Rdiv. rewrite Rmult_assoc, Rinv_l by lra. lra. }
  rewrite <- (Int_part_spec (x / m) 0) by (simpl; lra).
  simpl. ring.
Qed.

Lemma hypot_zero : hypot 0 0 = 0.
Proof. unfold hypot. rewrite Rmult_0_l, Rplus_0_l. apply sqrt_0. Qed.

(** A ship at rest inside the playfield stays where it is when no key is
    pressed. *)
Lemma ship_update_at_rest (s : Ship.t) (dt : Z) (mouse_pos : Z * Z) :
  Ship.vx s = 0 -> Ship.vy s = 0 -> in_bounds (Ship.x s) (Ship.y s) ->
  Ship.x (Ship.update s no_keys dt mouse_pos) = Ship.x s
  /\ Ship.y (Ship.update s no_keys dt mouse_pos) = Ship.y s
  /\ Ship.vx (Ship.update s no_keys dt mouse_pos) = 0
  /\ Ship.vy (Ship.update s no_keys dt mouse_pos) = 0
  /\ Ship.radius (Ship.update s no_keys dt mouse_pos) = Ship.radius s
  /\ Ship.invuln_until (Ship.update s no_keys dt mouse_pos) = Ship.invuln_until s.
Proof.
  intros Hvx Hvy [Hx Hy]. rewrite ship_update_blocks.
  destruct s as [x y vx vy ang r al inv].
  cbn [Ship.x Ship.y Ship.vx Ship.vy Ship.radius Ship.invuln_until] in *.
  subst vx vy.
  unfold Ship.aim, Ship.thrust, no_keys, Ship.push, Ship.with_velocity.
  cbn [orb K_w K_UP K_s K_DOWN K_a K_LEFT K_d K_RIGHT
       fst snd Ship.x Ship.y Ship.vx Ship.vy Ship.angle Ship.radius
       Ship.alive Ship.invuln_until].
  unfold Ship.clamp_speed.
  cbn [Ship.x Ship.y Ship.vx Ship.vy Ship.angle Ship.radius
       Ship.alive Ship.invuln_until].
  rewrite hypot_zero.
  destruct (Rgt_dec 0 SHIP_MAX_SPEED) as [Habs | _];
    [unfold SHIP_MAX_SPEED in Habs; lra |].
  unfold Ship.friction, Ship.with_velocity.
  cbn [fst snd Ship.x Ship.y Ship.vx Ship.vy Ship.angle Ship.radius
       Ship.alive Ship.invuln_until].
  unfold Ship.integrate.
  cbn [fst snd Ship.x Ship.y Ship.vx Ship.vy Ship.angle Ship.radius
       Ship.alive Ship.invuln_until].
  unfold Ship.wrap, wrap_position.
  cbn [fst snd Ship.x Ship.y Ship.vx Ship.vy Ship.angle Ship.radius
       Ship.alive Ship.invuln_until].
  rewrite !Rmult_0_l, !Rplus_0_r.
  rewrite (pymod_small x) by exact Hx.
  rewrite (pymod_small y) by exact Hy.
  repeat split; reflexivity.
Qed.

Lemma far_corner (s : Ship.t) :
  Ship.x s = IZR WIDTH / 2 -> Ship.y s = IZR HEIGHT / 2 ->
  eventually_far (env_const 0) s.
Proof.
  intros Hx Hy k. exists 0%nat. unfold far_from, attempt_x, attempt_y.
  simpl rnd_raw. rewrite Hx, Hy.
  unfold Game.margin, WIDTH, HEIGHT. simpl Z.modulo. simpl Z.add.
  apply hypot_gt; lra.
Qed.

Lemma after_collisions_empty (e : Env) (g : Game.t) (keys : Keys) (dt : Z)
  (mouse_pos : Z * Z) (c : Cur) :
  Game.lasers g = [] -> Game.asteroids g = [] ->
  after_collisions e g keys dt mouse_pos c
  = ({| Game.ship := Ship.update (Game.ship g) keys dt mouse_pos;
        Game.lasers := []; Game.asteroids := [];
        Game.score := Game.score g; Game.lives := Game.lives g;
        Game.last_shot := Game.last_shot g;
        Game.running := Game.running g; Game.paused := Game.paused g;
        Game.game_over := Game.game_over g |}, next_clk c).
Proof.
  intros Hl Ha.
  unfold after_collisions, Game.motion_phase, Game.laser_phase, Game.ship_phase,
    Ship.can_be_hit, get_ticks.
  rewrite Hl, Ha. cbn [Game.update_lasers filter map Game.lasers_vs_asteroids
                       Game.asteroids Game.lasers Game.score Game.ship].
  destruct (_ >=? _)%Z; reflexivity.
Qed.

Lemma wave_trigger_witness :
  exists fuel g' c',
    Game.update (env_const 0) fuel (bare_game 30 3 false false) no_keys 16
                (0%Z, 0%Z) cur0 = Some (g', c')
    /\ Z.of_nat (length (Game.asteroids g')) = 7%Z
    /\ Forall (fun a => hypot (Asteroid.x a - 480) (Asteroid.y a - 360) > 200)
              (Game.asteroids g').
Proof.
  pose proof (wave_trigger (env_const 0) (bare_game 30 3 false false) no_keys 16
                           (0%Z, 0%Z) cur0) as H.
  cbv zeta in H.
  rewrite after_collisions_empty in H by reflexivity.
  cbn [fst snd Game.score Game.ship Game.asteroids Game.game_over Game.lasers
       bare_game] in H.
  destruct (ship_update_at_rest Ship.init 16 (0%Z, 0%Z) eq_refl eq_refl)
    as (Hx & Hy & _).
  { unfold in_bounds, Ship.init, WIDTH, HEIGHT. simpl. lra. }
  destruct H as (_ & H & _).
  - reflexivity.
  - lia.
  - apply far_corner; assumption.
  - destruct (H eq_refl eq_refl) as [[fuel0 Hex] Hall].
    destruct (Hex fuel0 (Nat.le_refl _)) as (g' & c' & Hup).
    exists fuel0, g', c'. split; [exact Hup |].
    destruct (Hall _ _ _ Hup) as (Hlen & Hfar & _).
    split; [exact Hlen |].
    rewrite Hx, Hy in Hfar. unfold Ship.init, WIDTH, HEIGHT in Hfar.
    simpl in Hfar.
    replace 480 with (960 / 2) by lra. replace 360 with (720 / 2) by lra.
    exact Hfar.
Defined.

(** ** Integer truncation *)

Lemma py_int_floor (r : R) (z : Z) :
  0 <= r -> IZR z <= r < IZR z + 1 -> py_int r = z.
Proof.
  intros Hr [Hlo Hhi]. unfold py_int.
  destruct (Rle_dec 0 r) as [_ | N]; [| contradiction].
  symmetry. apply Int_part_spec. lra.
Qed.

Lemma py_int_nonneg (r : R) :
  0 <= r -> (0 <= py_int r)%Z /\ IZR (py_int r) <= r /\ r < IZR (py_int r) + 1.
Proof.
  intros Hr. unfold py_int.
  destruct (Rle_dec 0 r) as [_ | N]; [| contradiction].
  destruct (base_Int_part r) as [Hlo Hhi].
  repeat split; try lra.
  assert (H : (-1 < Int_part r)%Z) by (apply lt_IZR; lra). lia.
Qed.

Lemma py_int_neg (r : R) :
  r < 0 -> (py_int r <= 0)%Z /\ r <= IZR (py_int r).
Proof.
  intros Hr. unfold py_int.
  destruct (Rle_dec 0 r) as [P | _]; [lra |].
  destruct (base_Int_part (- r)) as [Hlo Hhi].
  rewrite opp_IZR. split; [| lra].
  assert (H : (-1 < Int_part (- r))%Z) by (apply lt_IZR; lra). lia.
Qed.

Lemma py_int_abs (r : R) (n : Z) :
  Rabs r <= IZR n -> (- n <= py_int r <= n)%Z.
Proof.
  intros H. destruct (Rle_lt_dec 0 r) as [Hr | Hr].
  - rewrite Rabs_pos_eq in H by exact Hr.
    destruct (py_int_nonneg r Hr) as (H0 & Hle & _).
    assert (py_int r <= n)%Z by (apply le_IZR; lra). lia.
  - rewrite Rabs_left in H by exact Hr.
    destruct (py_int_neg r Hr) as (H0 & Hge).
    assert (- n <= py_int r)%Z by (apply le_IZR; rewrite opp_IZR; lra). lia.
Qed.

Lemma unit_range_const (t : Z) : unit_range (env_const t).
Proof. intros k. simpl. lra. Qed.

(** ** Sound synthesis *)

Lemma py_int_of_Z (z : Z) : py_int (IZR z) = z.
Proof.
  destruct (Z_le_gt_dec 0 z) as [H | H].
  - apply py_int_floor; [apply IZR_le; exact H | lra].
  - unfold py_int. assert (Hz : IZR z < 0) by (apply IZR_lt; lia).
    destruct (Rle_dec 0 (IZR z)) as [P | _]; [lra |].
    rewrite <- opp_IZR.
    rewrite <- (Int_part_spec (IZR (- z)) (- z)) by lra. lia.
Qed.

Lemma py_int_monotone (a b : R) : 0 <= a <= b -> (py_int a <= py_int b)%Z.
Proof.
  intros [Ha Hab].
  destruct (py_int_nonneg a Ha) as (_ & H1 & _).
  destruct (py_int_nonneg b ltac:(lra)) as (_ & _ & H2).
  assert (H : (py_int a < py_int b + 1)%Z)
    by (apply lt_IZR; rewrite plus_IZR; lra).
  lia.
Qed.

Lemma amp_range (volume : R) :
  0 <= volume <= 1 -> (0 <= py_int (32767 * volume) <= 32767)%Z.
Proof.
  intros Hv.
  destruct (py_int_nonneg (32767 * volume) ltac:(lra)) as (H0 & H1 & _).
  split; [exact H0 | apply le_IZR; lra].
Qed.

Lemma pack_h_ok (amp v : Z) :
  (0 <= amp <= 32767)%Z -> (- amp <= v <= amp)%Z -> Audio.pack_h v = Some v.
Proof.
  intros Ha Hv. unfold Audio.pack_h.
  replace (-32768 <=? v)%Z with true by (symmetry; apply Z.leb_le; lia).
  replace (v <=? 32767)%Z with true by (symmetry; apply Z.leb_le; lia).
  reflexivity.
Qed.

Lemma waveform_bound (kind : String.string) (freq t : R) :
  -1 <= Audio.waveform kind freq t <= 1.
Proof.
  unfold Audio.waveform.
  destruct (String.eqb kind _).
  - destruct (Rle_dec _ _); lra.
  - destruct (String.eqb kind _).
    + pose proof (pymod_range (t * freq) 1 ltac:(lra)). lra.
    + destruct (String.eqb kind _); [apply SIN_bound | lra].
Qed.

Lemma sample_ok (amp : Z) (s : R) :
  (0 <= amp <= 32767)%Z -> -1 <= s <= 1 ->
  Audio.pack_h (py_int (IZR amp * s)) = Some (py_int (IZR amp * s))
  /\ (- amp <= py_int (IZR amp * s) <= amp)%Z.
Proof.
  intros Ha Hs.
  assert (Hb : (- amp <= py_int (IZR amp * s) <= amp)%Z).
  { apply py_int_abs. assert (0 <= IZR amp) by (apply IZR_le; lia).
    apply Rabs_le. split; nra. }
  split; [apply (pack_h_ok amp); assumption | exact Hb].
Qed.

Lemma tone_frame_ok (amp nframes fo : Z) (freq : R) (kind : String.string)
  (i : Z) :
  (0 <= amp <= 32767)%Z -> (0 <= i < nframes)%Z ->
  exists v, Audio.tone_frame amp nframes fo freq kind i = Some v
            /\ (- amp <= v <= amp)%Z.
Proof.
  intros Ha Hi. unfold Audio.tone_frame.
  pose proof (waveform_bound kind freq (IZR i / IZR Audio.framerate)) as Hw.
  set (s := Audio.waveform kind freq (IZR i / IZR Audio.framerate)) in *.
  destruct (i >? nframes - fo)%Z eqn:Hfade.
  - apply Z.gtb_lt in Hfade.
    assert (Hfo : 0 < IZR (nframes - i) < IZR fo).
    { split; apply IZR_lt; lia. }
    unfold Audio.true_div.
    destruct (Req_EM_T (IZR fo) 0) as [E | _]; [lra |].
    assert (Hk : 0 < IZR (nframes - i) / IZR fo < 1).
    { split.
      - apply Rdiv_lt_0_compat; lra.
      - apply (Rmult_lt_reg_r (IZR fo)); [lra |].
        unfold Rdiv. rewrite Rmult_assoc, Rinv_l by lra. lra. }
    destruct (sample_ok amp (s * (IZR (nframes - i) / IZR fo)) Ha) as [H1 H2];
      [split; nra |].
    eexists. split; [exact H1 | exact H2].
  - destruct (sample_ok amp s Ha Hw) as [H1 H2].
    eexists. split; [exact H1 | exact H2].
Qed.

Lemma tone_loop_ok (amp nframes fo : Z) (freq : R) (kind : String.string) :
  (0 <= amp <= 32767)%Z ->
  forall idx,
    Forall (fun i => (Z.of_nat i < nframes)%Z) idx ->
    exists vs, Audio.tone_loop amp nframes fo freq kind idx = Some vs
               /\ length vs = length idx
               /\ Forall (fun v => (- amp <= v <= amp)%Z) vs.
Proof.
  intros Ha. induction idx as [| i rest IH]; intros H; cbn [Audio.tone_loop].
  - exists []. repeat split. constructor.
  - inversion H as [| ? ? Hi Hrest]; subst.
    destruct (tone_frame_ok amp nframes fo freq kind (Z.of_nat i) Ha) as (v & E & Hv);
      [lia |].
    destruct (IH Hrest) as (vs & Evs & Hlen & Hall).
    rewrite E, Evs. exists (v :: vs).
    split; [reflexivity |]. split; [simpl; lia | constructor; assumption].
Qed.

Lemma seq_below (n : Z) :
  Forall (fun i => (Z.of_nat i < n)%Z) (seq 0 (Z.to_nat n)).
Proof.
  apply Forall_forall. intros i Hi. apply in_seq in Hi. lia.
Qed.

Lemma synth_tone_ok (seconds freq volume : R) (kind : String.string)
  (fade_out : R) :
  0 <= volume <= 1 ->
  exists frames,
    Audio.synth_tone seconds freq volume kind fade_out = Some frames
    /\ Forall frame_ok frames.
Proof.
  intros Hv. pose proof (amp_range volume Hv) as Ha.
  unfold Audio.synth_tone.
  destruct (tone_loop_ok (py_int (32767 * volume))
              (py_int (seconds * IZR Audio.framerate))
              (py_int (fade_out * IZR Audio.framerate)) freq kind Ha
              (seq 0 (Z.to_nat (py_int (seconds * IZR Audio.framerate))))
              (seq_below _)) as (vs & E & _ & Hall).
  exists vs. split; [exact E |].
  apply Forall_forall. intros v Hin. rewrite Forall_forall in Hall.
  specialize (Hall v Hin). unfold frame_ok. lia.
Qed.

(** X18. The loop of [synth_tone] never hands [struct.pack] a frame that
    does not fit.  Take the integers that [int()] returned: amp with
    0 <= amp <= 32767 (which is the case for a volume from 0 to 1),
    nframes and fo whatever they are.  Then for every waveform name the
    loop writes nframes frames (none when nframes <= 0), each within
    +-amp, hence in the signed 16-bit range, and the division of the
    fade-out never has a zero divisor.  The samples are real numbers
    here: an overflow of the float products (for a frequency or a
    duration near the top of the binary64 range) is outside the model. *)
Theorem synth_tone_never_raises :
  forall (amp nframes fo : Z) (freq : R) (kind : String.string),
    (0 <= amp <= 32767)%Z ->
    (exists frames,
        tone_frames amp nframes fo freq kind = Some frames
        /\ length frames = Z.to_nat nframes
        /\ Forall (fun v => (- amp <= v <= amp)%Z) frames
        /\ Forall frame_ok frames)
    /\ (forall volume, 0 <= volume <= 1 ->
                       (0 <= py_int (32767 * volume) <= 32767)%Z)
    /\ (forall seconds volume fade_out,
          Audio.synth_tone seconds freq volume kind fade_out
          = tone_frames (py_int (32767 * volume))
                        (py_int (seconds * IZR Audio.framerate))
                        (py_int (fade_out * IZR Audio.framerate)) freq kind).
Proof.
  intros amp nframes fo freq kind Ha.
  split; [| split; [intros volume Hv; apply amp_range; exact Hv | reflexivity]].
  unfold tone_frames.
  destruct (tone_loop_ok amp nframes fo freq kind Ha
              (seq 0 (Z.to_nat nframes)) (seq_below _))
    as (vs & E & Hlen & Hall).
  exists vs. split; [exact E |]. split; [rewrite Hlen, length_seq; reflexivity |].
  split; [exact Hall |].
  apply Forall_forall. intros v Hin. rewrite Forall_forall in Hall.
  specialize (Hall v Hin). unfold frame_ok. lia.
Qed.

Lemma synth_tone_never_raises_witness :
  exists frames,
    tone_frames 16383 3969 882 920 Kinds.square = Some frames
    /\ length frames = 3969%nat
    /\ Forall frame_ok frames.
Proof.
  destruct (synth_tone_never_raises 16383 3969 882 920 Kinds.square)
    as [(frames & E & Hlen & _ & H) _]; [lia |].
  exists frames. split; [exact E |]. split; [| exact H].
  rewrite Hlen. lia.
Defined.

(** X19. With a volume above 32768/32767 the square wave does raise: as
    soon as there is one frame to write and the fade-out is not longer
    than the tone, the first frame is int(32767 * volume) >= 32768 and
    [struct.pack] refuses it. *)
Theorem synth_tone_overflows :
  forall (seconds freq volume fade_out : R),
    32768 <= 32767 * volume ->
    1 <= seconds * IZR Audio.framerate ->
    0 <= fade_out <= seconds ->
    Audio.synth_tone seconds freq volume Kinds.square fade_out = None.
Proof.
  intros seconds freq volume fade_out Hv Hs Hf.
  unfold Audio.synth_tone.
  set (amp := py_int (32767 * volume)).
  set (nframes := py_int (seconds * IZR Audio.framerate)).
  set (fo := py_int (fade_out * IZR Audio.framerate)).
  assert (Hamp : (32768 <= amp)%Z).
  { pose proof (py_int_monotone 32768 (32767 * volume) ltac:(lra)) as H.
    rewrite (py_int_of_Z 32768) in H. exact H. }
  assert (Hn : (1 <= nframes)%Z).
  { pose proof (py_int_monotone 1 (seconds * IZR Audio.framerate) ltac:(lra)) as H.
    rewrite (py_int_of_Z 1) in H. exact H. }
  assert (Hfo : (fo <= nframes)%Z).
  { apply py_int_monotone. unfold Audio.framerate in *. split; nra. }
  destruct (Z.to_nat nframes) as [| n] eqn:En; [lia |].
  cbn [seq Audio.tone_loop].
  assert (E0 : Audio.tone_frame amp nframes fo freq Kinds.square (Z.of_nat 0)
               = None).
  { unfold Audio.tone_frame, Audio.waveform, Kinds.square.
    cbn [Z.of_nat String.eqb Ascii.eqb Bool.eqb].
    replace (2 * PI * freq * (0 / IZR Audio.framerate)) with 0
      by (unfold Audio.framerate; field).
    rewrite sin_0.
    destruct (Rle_dec 0 0) as [_ | N]; [| exfalso; apply N; lra].
    assert (Hg : (0 >? nframes - fo)%Z = false)
      by (rewrite Z.gtb_ltb; apply Z.ltb_ge; lia).
    rewrite Hg.
    rewrite Rmult_1_r, py_int_of_Z. unfold Audio.pack_h.
    replace (amp <=? 32767)%Z with false by (symmetry; apply Z.leb_gt; lia).
    rewrite andb_false_r. reflexivity. }
  rewrite E0. reflexivity.
Qed.

Lemma synth_tone_overflows_witness :
  Audio.synth_tone (12 / 100) 880 (3 / 2) Kinds.square (2 / 100) = None.
Proof.
  apply synth_tone_overflows; unfold Audio.framerate; lra.
Defined.

Lemma noise_frame_ok (e : Env) (amp nframes : Z) (i : Z) (c : Cur) :
  unit_range e -> (0 <= amp <= 32767)%Z -> (0 <= i < nframes)%Z ->
  exists v, Audio.noise_frame e amp nframes i c = Some (v, advance c 3)
            /\ (- amp <= v <= amp)%Z.
Proof.
  intros Hu Ha Hi. unfold Audio.noise_frame, Audio.true_div.
  assert (Hn : 0 < IZR nframes) by (apply IZR_lt; lia).
  assert (Hi0 : 0 <= IZR i < IZR nframes)
    by (split; [apply IZR_le | apply IZR_lt]; lia).
  destruct (Req_EM_T (IZR nframes) 0) as [E | _]; [lra |].
  assert (Hq : 0 <= IZR i / IZR nframes < 1).
  { split.
    - apply Rmult_le_pos; [lra | apply Rlt_le, Rinv_0_lt_compat; lra].
    - apply (Rmult_lt_reg_r (IZR nframes)); [lra |].
      unfold Rdiv. rewrite Rmult_assoc, Rinv_l by lra. lra. }
  unfold random_random.
  pose proof (Hu (rng c)) as U1.
  pose proof (Hu (rng (next_rng c))) as U2.
  pose proof (Hu (rng (next_rng (next_rng c)))) as U3.
  set (r := (rnd_unit e (rng c) + rnd_unit e (rng (next_rng c))
             + rnd_unit e (rng (next_rng (next_rng c)))) / 3) in *.
  assert (Hr : 0 <= r < 1) by (unfold r; lra).
  assert (Henv : 0 <= Rmax 0 (1 - IZR i / IZR nframes) <= 1).
  { unfold Rmax. destruct (Rle_dec _ _); lra. }
  destruct (sample_ok amp ((r * 2 - 1) * Rmax 0 (1 - IZR i / IZR nframes)) Ha)
    as [H1 H2]; [split; nra |].
  rewrite H1. eexists. split; [| exact H2].
  f_equal. f_equal. unfold advance, next_rng. simpl. f_equal. lia.
Qed.

Lemma noise_loop_ok (e : Env) (amp nframes : Z) :
  unit_range e -> (0 <= amp <= 32767)%Z ->
  forall idx c,
    Forall (fun i => (Z.of_nat i < nframes)%Z) idx ->
    exists vs,
      Audio.noise_loop e amp nframes idx c
      = Some (vs, advance c (3 * length idx))
      /\ length vs = length idx
      /\ Forall (fun v => (- amp <= v <= amp)%Z) vs.
Proof.
  intros Hu Ha. induction idx as [| i rest IH]; intros c H;
    cbn [Audio.noise_loop].
  - exists []. split; [| split; [reflexivity | constructor]].
    f_equal. f_equal. unfold advance. destruct c. simpl. f_equal. lia.
  - inversion H as [| ? ? Hi Hrest]; subst.
    destruct (noise_frame_ok e amp nframes (Z.of_nat i) c Hu Ha) as (v & E & Hv);
      [lia |].
    destruct (IH (advance c 3) Hrest) as (vs & Evs & Hlen & Hall).
    rewrite E, Evs. exists (v :: vs).
    split; [| split; [simpl; lia | constructor; assumption]].
    f_equal. f_equal. unfold advance. simpl. f_equal. lia.
Qed.

Lemma synth_noise_ok (e : Env) (seconds volume : R) (c : Cur) :
  unit_range e -> 0 <= volume <= 1 ->
  exists frames,
    Audio.synth_noise_burst e seconds volume c
    = Some (frames,
            advance c (3 * Z.to_nat (py_int (seconds * IZR Audio.framerate))))
    /\ Forall frame_ok frames.
Proof.
  intros Hu Hv. pose proof (amp_range volume Hv) as Ha.
  unfold Audio.synth_noise_burst.
  destruct (noise_loop_ok e (py_int (32767 * volume))
              (py_int (seconds * IZR Audio.framerate)) Hu Ha
              (seq 0 (Z.to_nat (py_int (seconds * IZR Audio.framerate)))) c
              (seq_below _)) as (vs & E & _ & Hall).
  rewrite length_seq in E.
  exists vs. split; [exact E |].
  apply Forall_forall. intros v Hin. rewrite Forall_forall in Hall.
  specialize (Hall v Hin). unfold frame_ok. lia.
Qed.

(** X20. The loop of [synth_noise_burst] never hands [struct.pack] a
    frame that does not fit.  Take the integers that [int()] returned: amp
    with 0 <= amp <= 32767 (which is the case for a volume from 0 to 1)
    and nframes whatever it is.  With the generator in range the loop
    writes nframes frames (none when nframes <= 0), each within +-amp,
    hence in the signed 16-bit range, it makes exactly three requests to
    the generator per frame, and the division i / nframes never has a
    zero divisor.  The samples are real numbers here. *)
Theorem synth_noise_never_raises :
  forall (e : Env) (amp nframes : Z) (c : Cur),
    unit_range e -> (0 <= amp <= 32767)%Z ->
    (exists frames,
        noise_frames e amp nframes c
        = Some (frames, advance c (3 * Z.to_nat nframes))
        /\ length frames = Z.to_nat nframes
        /\ Forall (fun v => (- amp <= v <= amp)%Z) frames
        /\ Forall frame_ok frames)
    /\ (forall seconds volume,
          Audio.synth_noise_burst e seconds volume c
          = noise_frames e (py_int (32767 * volume))
                         (py_int (seconds * IZR Audio.framerate)) c).
Proof.
  intros e amp nframes c Hu Ha. split; [| reflexivity].
  unfold noise_frames.
  destruct (noise_loop_ok e amp nframes Hu Ha (seq 0 (Z.to_nat nframes)) c
              (seq_below _)) as (vs & E & Hlen & Hall).
  rewrite length_seq in E, Hlen.
  exists vs. split; [exact E |]. split; [exact Hlen |]. split; [exact Hall |].
  apply Forall_forall. intros v Hin. rewrite Forall_forall in Hall.
  specialize (Hall v Hin). unfold frame_ok. lia.
Qed.

Lemma synth_noise_never_raises_witness :
  exists frames,
    noise_frames (env_const 0) 19660 13230 cur0
    = Some (frames, advance cur0 (Z.to_nat 39690))
    /\ Forall frame_ok frames.
Proof.
  destruct (synth_noise_never_raises (env_const 0) 19660 13230 cur0
                                     (unit_range_const 0))
    as [(frames & E & _ & _ & H) _]; [lia |].
  exists frames. split; [| exact H].
  rewrite E.
  replace (3 * Z.to_nat 13230)%nat with (Z.to_nat 39690) by lia.
  reflexivity.
Defined.

(** ** The three sounds of the game *)

Lemma make_sounds_ok (e : Env) (c : Cur) :
  unit_range e ->
  exists shoot explode thrust,
    Audio.make_sounds e c = Some (shoot, explode, thrust, advance c (Z.to_nat 39690))
    /\ Forall frame_ok shoot /\ Forall frame_ok explode
    /\ Forall frame_ok thrust.
Proof.
  intros Hu. unfold Audio.make_sounds.
  destruct (synth_tone_ok (9 / 100) 920 (5 / 10) Kinds.square (2 / 100))
    as (s1 & E1 & H1); [lra |].
  destruct (synth_tone_ok (2 / 10) 160 (35 / 100) Kinds.saw (5 / 100))
    as (s3 & E3 & H3); [lra |].
  destruct (synth_noise_ok e (3 / 10) (6 / 10) c Hu) as (s2 & E2 & H2); [lra |].
  unfold Kinds.square, Kinds.saw in *.
  rewrite E1, E2, E3.
  replace (3 * Z.to_nat (py_int (3 / 10 * IZR Audio.framerate)))%nat
    with (Z.to_nat 39690).
  - exists s1, s2, s3. repeat split; assumption.
  - rewrite (py_int_floor _ 13230); [lia | |];
      unfold Audio.framerate; lra.
Qed.

(** ** The constructor *)

Lemma init_spec (e : Env) (fuel : nat) (c : Cur) :
  unit_range e ->
  Game.init e fuel c
  = Game._spawn_wave e fuel Game.fresh ASTEROID_START_COUNT
                     (advance c (Z.to_nat 39690)).
Proof.
  intros Hu. unfold Game.init.
  destruct (make_sounds_ok e c Hu) as (s1 & s2 & s3 & Es & _).
  rewrite Es. reflexivity.
Qed.

Lemma init_ends (e : Env) (c : Cur) :
  unit_range e -> eventually_far e Ship.init ->
  exists fuel0, forall fuel, (fuel0 <= fuel)%nat ->
    exists g' c', Game.init e fuel c = Some (g', c').
Proof.
  intros Hu Hev.
  destruct (spawn_wave_ends e Game.fresh ASTEROID_START_COUNT
                            (advance c (Z.to_nat 39690)) Hev) as [fuel0 H0].
  exists fuel0. intros fuel Hle. rewrite init_spec by exact Hu.
  apply H0. exact Hle.
Qed.

Lemma init_sound (e : Env) (fuel : nat) (c : Cur) (g' : Game.t) (c' : Cur) :
  Game.init e fuel c = Some (g', c') ->
  g' = {| Game.ship := Ship.init; Game.lasers := [];
          Game.asteroids := Game.asteroids g';
          Game.score := 0; Game.lives := LIVES; Game.last_shot := 0;
          Game.running := true; Game.paused := false;
          Game.game_over := false |}
  /\ length (Game.asteroids g') = Z.to_nat ASTEROID_START_COUNT
  /\ Forall (asteroid_far Ship.init) (Game.asteroids g').
Proof.
  unfold Game.init. intros H.
  destruct (Audio.make_sounds e c) as [[[[s1 s2] s3] c1] |]; [| discriminate].
  apply spawn_wave_sound in H.
  destruct H as (Hlen & Hfar & _ & Hrest).
  repeat split; assumption.
Qed.

(** ** Restart *)

(** C9. The R key does nothing unless the game is over.  When the game is
    over it runs the constructor again, whatever the state was: the
    sounds are synthesised again (39690 requests to the generator when it
    is in range) and the starting wave is spawned from the generator as
    that leaves it.  If the generator is in range and does not refuse
    spawn positions for ever the restart returns, and the state it returns
    has 3 lives, score 0, paused and game_over cleared, no laser, the ship
    as first built (at the centre of the playfield, at rest), and a
    starting wave of 5 asteroids, each farther than 200 from the ship. *)
Theorem restart_reinitializes :
  forall (e : Env) (g : Game.t) (c : Cur),
    (Game.game_over g = false ->
     forall fuel, Game.handle_event e fuel g (KEYDOWN K_r) c = Some (g, c))
    /\ (Game.game_over g = true ->
        (forall fuel, Game.handle_event e fuel g (KEYDOWN K_r) c
                      = Game.init e fuel c)
        /\ (unit_range e ->
            forall fuel,
              Game.handle_event e fuel g (KEYDOWN K_r) c
              = Game._spawn_wave e fuel Game.fresh ASTEROID_START_COUNT
                                 (advance c (Z.to_nat 39690)))
        /\ (unit_range e -> eventually_far e Ship.init ->
            exists fuel0, forall fuel, (fuel0 <= fuel)%nat ->
              exists g' c',
                Game.handle_event e fuel g (KEYDOWN K_r) c = Some (g', c'))
        /\ (forall fuel g' c',
              Game.handle_event e fuel g (KEYDOWN K_r) c = Some (g', c') ->
              Game.lives g' = 3%Z
              /\ Game.score g' = 0%Z
              /\ Game.paused g' = false
              /\ Game.game_over g' = false
              /\ Game.lasers g' = []
              /\ Game.ship g' = Ship.init
              /\ Ship.x (Game.ship g') = 480
              /\ Ship.y (Game.ship g') = 360
              /\ Game.last_shot g' = 0%Z
              /\ Game.running g' = true
              /\ length (Game.asteroids g') = 5%nat
              /\ Forall (asteroid_far Ship.init) (Game.asteroids g'))).
Proof.
  intros e g c. split.
  - intros H fuel. simpl. rewrite H. reflexivity.
  - intros H.
    assert (Hr : forall fuel, Game.handle_event e fuel g (KEYDOWN K_r) c
                              = Game.init e fuel c)
      by (intros fuel; simpl; rewrite H; reflexivity).
    split; [exact Hr |]. split; [| split].
    + intros Hu fuel. rewrite Hr. apply init_spec. exact Hu.
    + intros Hu Hev.
      destruct (init_ends e c Hu Hev) as [fuel0 H0].
      exists fuel0. intros fuel Hle. rewrite Hr. apply H0. exact Hle.
    + intros fuel g' c' Hg. rewrite Hr in Hg. apply init_sound in Hg.
      destruct Hg as (Hg & Hlen & Hfar). rewrite Hg. simpl.
      repeat split; try reflexivity; try assumption.
      * unfold WIDTH. lra.
      * unfold HEIGHT. lra.
Qed.

Lemma restart_reinitializes_witness :
  exists fuel g' c',
    Game.handle_event (env_const 0) fuel (bare_game 40 0 true true)
                      (KEYDOWN K_r) cur0 = Some (g', c')
    /\ Game.lives g' = 3%Z /\ Game.score g' = 0%Z
    /\ Game.paused g' = false /\ Game.game_over g' = false
    /\ length (Game.asteroids g') = 5%nat.
Proof.
  destruct (restart_reinitializes (env_const 0) (bare_game 40 0 true true) cur0)
    as [_ H].
  destruct (H eq_refl) as (_ & _ & Hex & Hall).
  destruct (Hex (unit_range_const 0)) as [fuel0 Hex'].
  { apply far_corner; reflexivity. }
  destruct (Hex' fuel0 (Nat.le_refl _)) as (g' & c' & Hg).
  exists fuel0, g', c'. split; [exact Hg |].
  destruct (Hall _ _ _ Hg) as (H1 & H2 & H3 & H4 & _ & _ & _ & _ & _ & _ & H5 & _).
  repeat split; assumption.
Defined.

(** ** Score *)

Lemma points_positive (a : Asteroid.t) : (1 <= Game.points a)%Z.
Proof. unfold Game.points. lia. Qed.

Lemma total_points_nonneg (l : list Asteroid.t) :
  (Z.of_nat (length l) <= total_points l)%Z.
Proof.
  induction l as [| a l IH]; simpl length; simpl total_points.
  - lia.
  - pose proof (points_positive a). lia.
Qed.

Lemma lasers_vs_asteroids_score (e : Env) (l : list Asteroid.t) :
  forall ls sc acc c,
    snd (fst (fst (Game.lasers_vs_asteroids e l ls sc acc c)))
    = (sc + total_points (destroyed l ls))%Z.
Proof.
  induction l as [| a rest IH]; intros ls sc acc c;
    cbn [Game.lasers_vs_asteroids destroyed].
  - simpl. lia.
  - destruct (Game.scan_lasers a ls) as [ls' |].
    + destruct (Asteroid.split e a c) as [kids c1].
      rewrite IH. simpl total_points. lia.
    + apply IH.
Qed.

Lemma laser_phase_score (e : Env) (g : Game.t) (c : Cur) :
  Game.score (fst (Game.laser_phase e g c))
  = (Game.score g + total_points (destroyed (Game.asteroids g) (Game.lasers g)))%Z.
Proof.
  unfold Game.laser_phase.
  pose proof (lasers_vs_asteroids_score e (Game.asteroids g) (Game.lasers g)
                                        (Game.score g) [] c) as H.
  destruct (Game.lasers_vs_asteroids e (Game.asteroids g) (Game.lasers g)
                                      (Game.score g) [] c)
    as [[[ls sc] new_asteroids] c1].
  exact H.
Qed.

Lemma ship_vs_asteroids_score (e : Env) (l : list Asteroid.t) (g : Game.t) (c : Cur) :
  Game.score (fst (Game.ship_vs_asteroids e l g c)) = Game.score g.
Proof.
  induction l as [| a rest IH]; simpl.
  - reflexivity.
  - destruct (Game.ship_hits a (Game.ship g)); [reflexivity | exact IH].
Qed.

Lemma ship_phase_score (e : Env) (g : Game.t) (c : Cur) :
  Game.score (fst (Game.ship_phase e g c)) = Game.score g.
Proof.
  unfold Game.ship_phase, Ship.can_be_hit, get_ticks.
  destruct (_ >=? _)%Z; [apply ship_vs_asteroids_score | reflexivity].
Qed.

Lemma wave_phase_score (e : Env) (fuel : nat) (g : Game.t) (c : Cur)
  (g' : Game.t) (c' : Cur) :
  Game.wave_phase e fuel g c = Some (g', c') -> Game.score g' = Game.score g.
Proof.
  unfold Game.wave_phase.
  destruct (Game.is_empty (Game.asteroids g) && negb (Game.game_over g)).
  - intros H. apply spawn_wave_sound in H.
    destruct H as (_ & _ & _ & ->). reflexivity.
  - intros H. injection H as <- _. reflexivity.
Qed.

Lemma update_score (e : Env) (fuel : nat) (g : Game.t) (keys : Keys) (dt : Z)
  (mouse_pos : Z * Z) (c : Cur) (g' : Game.t) (c' : Cur) :
  Game.update e fuel g keys dt mouse_pos c = Some (g', c') ->
  Game.score g'
  = (Game.score g + total_points (destroyed_in_tick e g keys dt mouse_pos c))%Z.
Proof.
  unfold Game.update, destroyed_in_tick.
  destruct (Game.game_over g || Game.paused g).
  - intros H. injection H as <- _. simpl. lia.
  - destruct (Game.motion_phase e g keys dt mouse_pos c) as [g1 c1] eqn:E1.
    assert (S1 : Game.score g1 = Game.score g).
    { unfold Game.motion_phase in E1.
      destruct (Game.update_lasers e (Game.lasers g) dt c).
      injection E1 as <- _. reflexivity. }
    pose proof (laser_phase_score e g1 c1) as S2.
    destruct (Game.laser_phase e g1 c1) as [g2 c2].
    pose proof (ship_phase_score e g2 c2) as S3.
    destruct (Game.ship_phase e g2 c2) as [g3 c3].
    intros H. apply wave_phase_score in H.
    simpl in *. lia.
Qed.

Lemma handle_event_score (e : Env) (fuel : nat) (g : Game.t) (ev : Event)
  (c : Cur) (g' : Game.t) (c' : Cur) :
  Game.handle_event e fuel g ev c = Some (g', c') ->
  (ev = KEYDOWN K_r /\ Game.game_over g = true /\ Game.score g' = 0%Z)
  \/ Game.score g' = Game.score g.
Proof.
  destruct ev as [| [| | |] | button |]; cbn [Game.handle_event]; intros H;
    try (injection H as <- _; right; reflexivity).
  - destruct (Game.game_over g) eqn:Hover.
    + left. apply init_sound in H. destruct H as (-> & _).
      repeat split.
    + injection H as <- _. right. reflexivity.
  - destruct (_ && _).
    + injection H as H. right.
      assert (Hg : g' = fst (Game.shoot e g c)) by (rewrite H; reflexivity).
      rewrite Hg. unfold Game.shoot, get_ticks.
      destruct (_ <? _)%Z; reflexivity.
    + injection H as <- _. right. reflexivity.
Qed.

(** C7 as stated fails: the score does go down.  A game that is over with
    score 40 and receives the R key comes back with score 0. *)
Lemma restart_lowers_score :
  exists fuel g' c',
    Game.handle_event (env_const 0) fuel (bare_game 40 0 false true)
                      (KEYDOWN K_r) cur0 = Some (g', c')
    /\ (Game.score g' < Game.score (bare_game 40 0 false true))%Z.
Proof.
  destruct (init_ends (env_const 0) cur0 (unit_range_const 0)) as [fuel0 H0].
  { apply far_corner; reflexivity. }
  destruct (H0 fuel0 (Nat.le_refl _)) as (g' & c' & Hg).
  exists fuel0, g', c'. split.
  - exact Hg.
  - apply init_sound in Hg. destruct Hg as (-> & _). simpl. lia.
Qed.

(** C7, amended.  An asteroid destroyed by a laser adds exactly
    max(1, (ASTEROID_MAX_RADIUS - radius) // 5) to the score, which is at
    least 1: the score after [update] is the score before plus the sum of
    these amounts over the asteroids destroyed in the tick, so [update]
    never lowers it.  [shoot] leaves the score alone, and so does every
    event except an R key in a game that is over, which sets it to 0.
    A non-negative score stays non-negative under [update] and under
    every event. *)
Theorem score_accounting :
  forall (e : Env) (fuel : nat) (g : Game.t) (c : Cur),
    (forall a : Asteroid.t,
        Game.points a
        = Z.max 1 ((ASTEROID_MAX_RADIUS - Asteroid.radius a) / 5)
        /\ (1 <= Game.points a)%Z)
    /\ (forall keys dt mouse_pos g' c',
          Game.update e fuel g keys dt mouse_pos c = Some (g', c') ->
          Game.score g'
          = (Game.score g
             + total_points (destroyed_in_tick e g keys dt mouse_pos c))%Z
          /\ (Game.score g
              + Z.of_nat (length (destroyed_in_tick e g keys dt mouse_pos c))
              <= Game.score g')%Z
          /\ (Game.score g <= Game.score g')%Z)
    /\ Game.score (fst (Game.shoot e g c)) = Game.score g
    /\ (forall ev g' c',
          Game.handle_event e fuel g ev c = Some (g', c') ->
          (ev = KEYDOWN K_r /\ Game.game_over g = true /\ Game.score g' = 0%Z)
          \/ Game.score g' = Game.score g)
    /\ ((0 <= Game.score g)%Z ->
        (forall keys dt mouse_pos g' c',
            Game.update e fuel g keys dt mouse_pos c = Some (g', c') ->
            (0 <= Game.score g')%Z)
        /\ (forall ev g' c',
              Game.handle_event e fuel g ev c = Some (g', c') ->
              (0 <= Game.score g')%Z)).
Proof.
  intros e fuel g c.
  assert (Hup : forall keys dt mouse_pos g' c',
             Game.update e fuel g keys dt mouse_pos c = Some (g', c') ->
             Game.score g'
             = (Game.score g
                + total_points (destroyed_in_tick e g keys dt mouse_pos c))%Z
             /\ (Game.score g
                 + Z.of_nat (length (destroyed_in_tick e g keys dt mouse_pos c))
                 <= Game.score g')%Z
             /\ (Game.score g <= Game.score g')%Z).
  { intros keys dt mouse_pos g' c' H. apply update_score in H.
    pose proof (total_points_nonneg (destroyed_in_tick e g keys dt mouse_pos c)).
    lia. }
  split; [intros a; split; [reflexivity | apply points_positive] |].
  split; [exact Hup |].
  split.
  { unfold Game.shoot, get_ticks. destruct (_ <? _)%Z; reflexivity. }
  split; [intros ev g' c'; apply handle_event_score |].
  intros Hpos. split.
  - intros keys dt mouse_pos g' c' H. apply Hup in H. lia.
  - intros ev g' c' H. apply handle_event_score in H.
    destruct H as [(_ & _ & ->) | ->]; lia.
Qed.

(** ** One tick, step by step, on a concrete state *)

Lemma laser_update_inside (e : Env) (l : Laser.t) (dt : Z) (c : Cur) :
  in_bounds (Laser.x l + Laser.vx l) (Laser.y l + Laser.vy l) ->
  Laser.update e l dt c
  = ({| Laser.x := Laser.x l + Laser.vx l; Laser.y := Laser.y l + Laser.vy l;
        Laser.vx := Laser.vx l; Laser.vy := Laser.vy l;
        Laser.radius := Laser.radius l;
        Laser.alive :=
          if (ticks e (clk c) - Laser.birth l >? Laser.ttl l)%Z then false
          else Laser.alive l;
        Laser.ttl := Laser.ttl l; Laser.birth := Laser.birth l |},
     next_clk c).
Proof.
  intros [Hx Hy]. unfold Laser.update, wrap_position, get_ticks.
  rewrite (pymod_small _ _ Hx), (pymod_small _ _ Hy). reflexivity.
Qed.

Lemma asteroid_update_inside (a : Asteroid.t) (dt : Z) :
  in_bounds (Asteroid.x a + Asteroid.vx a) (Asteroid.y a + Asteroid.vy a) ->
  Asteroid.update a dt
  = {| Asteroid.x := Asteroid.x a + Asteroid.vx a;
       Asteroid.y := Asteroid.y a + Asteroid.vy a;
       Asteroid.radius := Asteroid.radius a;
       Asteroid.vx := Asteroid.vx a; Asteroid.vy := Asteroid.vy a |}.
Proof.
  intros [Hx Hy]. unfold Asteroid.update, wrap_position.
  rewrite (pymod_small _ _ Hx), (pymod_small _ _ Hy). reflexivity.
Qed.

Ltac bounds_eval := unfold in_bounds; simpl; unfold WIDTH, HEIGHT; lra.

Lemma crossfire_motion :
  Game.motion_phase env_clock50 crossfire_game no_keys 16 (0%Z, 0%Z) cur0
  = ({| Game.ship := Ship.update Ship.init no_keys 16 (0%Z, 0%Z);
        Game.lasers := [bolt (96 + 9) (100 + 0) 9 0 true];
        Game.asteroids :=
          [drifting (99 + 1) (99 + 1) 16 1 1;
           drifting (111 + -1) (100 + 0) 16 (-1) 0;
           drifting (800 + 1) (600 + 1) 50 1 1];
        Game.score := 0; Game.lives := 3; Game.last_shot := 900;
        Game.running := true; Game.paused := false;
        Game.game_over := false |},
     {| rng := 0; clk := 1 |}).
Proof.
  unfold Game.motion_phase, crossfire_game.
  cbn [Game.lasers Game.asteroids Game.update_lasers map Game.ship
       Game.score Game.lives Game.last_shot Game.running Game.paused
       Game.game_over].
  rewrite laser_update_inside by bounds_eval.
  rewrite !asteroid_update_inside by bounds_eval.
  reflexivity.
Qed.

Lemma split_terminal (e : Env) (a : Asteroid.t) (c : Cur) :
  (Asteroid.radius a <= ASTEROID_MIN_RADIUS)%Z -> Asteroid.split e a c = ([], c).
Proof.
  intros H. unfold Asteroid.split. apply Z.leb_le in H. rewrite H. reflexivity.
Qed.

Lemma bolt_hits_first (al : bool) :
  Game.laser_hits (drifting (99 + 1) (99 + 1) 16 1 1)
                  (bolt (96 + 9) (100 + 0) 9 0 al) = true.
Proof. meet_eval. Qed.

Lemma bolt_hits_second (al : bool) :
  Game.laser_hits (drifting (111 + -1) (100 + 0) 16 (-1) 0)
                  (bolt (96 + 9) (100 + 0) 9 0 al) = true.
Proof. meet_eval. Qed.

Lemma bolt_misses_third (al : bool) :
  Game.laser_hits (drifting (800 + 1) (600 + 1) 50 1 1)
                  (bolt (96 + 9) (100 + 0) 9 0 al) = false.
Proof. meet_eval. Qed.

Lemma kill_bolt (x y vx vy : R) (al : bool) :
  Laser.kill (bolt x y vx vy al) = bolt x y vx vy false.
Proof. reflexivity. Qed.

Lemma crossfire_lasers (e : Env) (c : Cur) :
  Game.lasers_vs_asteroids e
    [drifting (99 + 1) (99 + 1) 16 1 1;
     drifting (111 + -1) (100 + 0) 16 (-1) 0;
     drifting (800 + 1) (600 + 1) 50 1 1]
    [bolt (96 + 9) (100 + 0) 9 0 true] 0 [] c
  = ([bolt (96 + 9) (100 + 0) 9 0 false], 16%Z,
     [drifting (800 + 1) (600 + 1) 50 1 1], c).
Proof.
  cbn [Game.lasers_vs_asteroids Game.scan_lasers].
  rewrite bolt_hits_first, kill_bolt.
  rewrite split_terminal by (simpl; unfold ASTEROID_MIN_RADIUS; lia).
  cbn [Game.lasers_vs_asteroids Game.scan_lasers].
  rewrite bolt_hits_second, kill_bolt.
  rewrite split_terminal by (simpl; unfold ASTEROID_MIN_RADIUS; lia).
  cbn [Game.lasers_vs_asteroids Game.scan_lasers].
  rewrite bolt_misses_third. reflexivity.
Qed.

Lemma crossfire_destroyed :
  destroyed_in_tick env_clock50 crossfire_game no_keys 16 (0%Z, 0%Z) cur0
  = [drifting (99 + 1) (99 + 1) 16 1 1;
     drifting (111 + -1) (100 + 0) 16 (-1) 0].
Proof.
  unfold destroyed_in_tick. rewrite crossfire_motion.
  cbn [orb Game.game_over Game.paused crossfire_game fst Game.asteroids
       Game.lasers destroyed Game.scan_lasers].
  rewrite bolt_hits_first, kill_bolt. cbn [destroyed Game.scan_lasers].
  rewrite bolt_hits_second, kill_bolt. cbn [destroyed Game.scan_lasers].
  rewrite bolt_misses_third. reflexivity.
Qed.

Lemma crossfire_tick (fuel : nat) :
  Game.update env_clock50 fuel crossfire_game no_keys 16 (0%Z, 0%Z) cur0
  = Some (crossfire_after, {| rng := 0; clk := 2 |}).
Proof.
  destruct (ship_update_at_rest Ship.init 16 (0%Z, 0%Z) eq_refl eq_refl)
    as (Hx & Hy & _ & _ & Hr & Hi); [bounds_eval |].
  unfold Game.update.
  cbn [orb Game.game_over Game.paused crossfire_game].
  rewrite crossfire_motion.
  unfold Game.laser_phase.
  cbn [Game.ship Game.lasers Game.asteroids Game.score Game.lives
       Game.last_shot Game.running Game.paused Game.game_over].
  rewrite crossfire_lasers.
  unfold Game.ship_phase, Ship.can_be_hit, get_ticks.
  cbn [Game.ship Game.lasers Game.asteroids Game.score Game.lives
       Game.last_shot Game.running Game.paused Game.game_over].
  rewrite Hi.
  cbn [Ship.init Ship.invuln_until env_clock50 ticks clk Z.of_nat].
  assert (Hmiss : Game.ship_hits (drifting (800 + 1) (600 + 1) 50 1 1)
                                 (Ship.update Ship.init no_keys 16 (0%Z, 0%Z))
                  = false).
  { unfold Game.ship_hits. rewrite Hx, Hy, Hr.
    apply circles_meet_false. simpl. unfold WIDTH, HEIGHT. lra. }
  replace (1000 + 50 * Z.of_nat 1 >=? 0)%Z with true by reflexivity.
  cbn [Game.ship_vs_asteroids Game.ship].
  rewrite Hmiss. reflexivity.
Qed.

Lemma score_accounting_witness :
  Game.score crossfire_after
  = (Game.score crossfire_game
     + total_points
         (destroyed_in_tick env_clock50 crossfire_game no_keys 16 (0%Z, 0%Z)
                            cur0))%Z
  /\ (Game.score crossfire_game + 2 <= Game.score crossfire_after)%Z.
Proof.
  destruct (score_accounting env_clock50 0 crossfire_game cur0)
    as (_ & Hup & _).
  destruct (Hup no_keys 16%Z (0%Z, 0%Z) crossfire_after {| rng := 0; clk := 2 |}
                (crossfire_tick 0)) as (Hsum & Hcount & _).
  split; [exact Hsum |].
  rewrite crossfire_destroyed in Hcount. exact Hcount.
Defined.

(** ** Lasers against asteroids *)

Lemma motion_phase_lasers_alive (e : Env) (g : Game.t) (keys : Keys) (dt : Z)
  (mouse_pos : Z * Z) (c : Cur) :
  Forall (fun l => Laser.alive l = true)
         (Game.lasers (fst (Game.motion_phase e g keys dt mouse_pos c))).
Proof.
  unfold Game.motion_phase.
  destruct (Game.update_lasers e (Game.lasers g) dt c) as [ls1 c1].
  cbn [fst Game.lasers]. apply Forall_forall. intros l Hl.
  apply filter_In in Hl. exact (proj2 Hl).
Qed.

(** C1 does not hold of the code.  Lasers whose time is over are
    dropped before the collision pass, so every laser that enters the pass
    is alive.  But the pass never reads the alive flag it sets: in the
    tick of [crossfire_game] the only laser is marked dead by the first
    asteroid and still destroys the second one.  One laser, two asteroids
    destroyed in one tick, 8 + 8 points. *)
Theorem one_laser_destroys_two_asteroids :
  (forall e g keys dt mouse_pos c,
      Forall (fun l => Laser.alive l = true)
             (Game.lasers (fst (Game.motion_phase e g keys dt mouse_pos c))))
  /\ length (Game.lasers crossfire_game) = 1%nat
  /\ Game.update env_clock50 0 crossfire_game no_keys 16 (0%Z, 0%Z) cur0
     = Some (crossfire_after, {| rng := 0; clk := 2 |})
  /\ destroyed_in_tick env_clock50 crossfire_game no_keys 16 (0%Z, 0%Z) cur0
     = [drifting (99 + 1) (99 + 1) 16 1 1;
        drifting (111 + -1) (100 + 0) 16 (-1) 0]
  /\ Game.lasers crossfire_after = [bolt (96 + 9) (100 + 0) 9 0 false]
  /\ Game.asteroids crossfire_after = [drifting (800 + 1) (600 + 1) 50 1 1]
  /\ Game.score crossfire_after = (Game.score crossfire_game + 8 + 8)%Z.
Proof.
  split; [intros; apply motion_phase_lasers_alive |].
  split; [reflexivity |].
  split; [apply crossfire_tick |].
  split; [apply crossfire_destroyed |].
  repeat split.
Qed.

(** ** Splitting *)

Lemma split_child_fields (e : Env) (a : Asteroid.t) (c : Cur) :
  Asteroid.x (fst (Asteroid.split_child e a c)) = Asteroid.x a
  /\ Asteroid.y (fst (Asteroid.split_child e a c)) = Asteroid.y a
  /\ Asteroid.radius (fst (Asteroid.split_child e a c))
     = Z.max ASTEROID_MIN_RADIUS
             (py_int (IZR (Asteroid.radius a)
                      * (ASTEROID_SPLIT_FACTOR + child_variance e (rng c))))
  /\ snd (Asteroid.split_child e a c) = advance c 3.
Proof.
  unfold Asteroid.split_child, uniform, random_random, child_variance, advance,
    next_rng.
  cbn [fst snd rng clk Asteroid.x Asteroid.y Asteroid.radius vec_from_angle].
  repeat split. f_equal. lia.
Qed.

Lemma split_loop_spec (e : Env) (a : Asteroid.t) (n : nat) :
  forall kids c,
    Asteroid.split_loop e a n kids c
    = (kids ++ map (fun i => fst (Asteroid.split_child e a (advance c (3 * i))))
                   (seq 0 n),
       advance c (3 * n)).
Proof.
  induction n as [| n IH]; intros kids c; cbn [Asteroid.split_loop].
  - simpl. rewrite app_nil_r. f_equal. unfold advance. destruct c; simpl.
    f_equal. lia.
  - destruct (split_child_fields e a c) as (_ & _ & _ & Hc).
    destruct (Asteroid.split_child e a c) as [k c1] eqn:Hk.
    simpl in Hc. subst c1. rewrite IH.
    rewrite <- app_assoc. cbn [seq map app].
    rewrite <- seq_shift, map_map.
    f_equal.
    + f_equal. f_equal.
      * replace (advance c (3 * 0)) with c
          by (unfold advance; destruct c; simpl; f_equal; lia).
        rewrite Hk. reflexivity.
      * apply map_ext. intros i. f_equal. f_equal.
        unfold advance. simpl. f_equal. lia.
    + unfold advance. simpl. f_equal. lia.
Qed.

Lemma split_big (e : Env) (a : Asteroid.t) (c : Cur) :
  (ASTEROID_MIN_RADIUS < Asteroid.radius a)%Z ->
  fst (Asteroid.split e a c)
  = map (fun i => fst (Asteroid.split_child e a (advance (next_rng c) (3 * i))))
        (seq 0 (Z.to_nat (child_count e (rng c)))).
Proof.
  intros H. unfold Asteroid.split.
  apply Z.leb_gt in H. rewrite H.
  unfold choice, randbelow. rewrite split_loop_spec. reflexivity.
Qed.

Lemma child_count_cases (e : Env) (k : nat) :
  (child_count e k = 2 \/ child_count e k = 3)%Z
  /\ (child_count e k = 3 <-> rnd_raw e k mod 3 = 2)%Z.
Proof.
  unfold child_count.
  pose proof (Z.mod_pos_bound (rnd_raw e k) 3 ltac:(lia)) as Hb.
  assert (Hc : (rnd_raw e k mod 3 = 0 \/ rnd_raw e k mod 3 = 1
                \/ rnd_raw e k mod 3 = 2)%Z) by lia.
  destruct Hc as [-> | [-> | ->]]; simpl; split; try lia; split; lia.
Qed.

Lemma child_variance_range (e : Env) (k : nat) :
  unit_range e ->
  - ASTEROID_CHILD_VARIANCE <= child_variance e k <= ASTEROID_CHILD_VARIANCE.
Proof.
  intros H. specialize (H k). unfold child_variance, ASTEROID_CHILD_VARIANCE.
  lra.
Qed.

(** C4 as stated fails: the child radius is truncated to an integer.  A
    parent of radius 51 whose variance draw is the lowest one gets a child
    of radius 20, below max(16, 51 * (0.55 + v)) for every variance v
    within the allowed +-0.15 (the least of which is 20.4). *)
Lemma split_radius_is_truncated :
  exists k rest,
    fst (Asteroid.split (env_const 0) (drifting 0 0 51 1 1) cur0) = k :: rest
    /\ Asteroid.radius k = 20%Z
    /\ (forall v : R,
          - ASTEROID_CHILD_VARIANCE <= v <= ASTEROID_CHILD_VARIANCE ->
          IZR (Asteroid.radius k)
          < Rmax (IZR ASTEROID_MIN_RADIUS)
                 (IZR 51 * (ASTEROID_SPLIT_FACTOR + v))).
Proof.
  rewrite split_big by (simpl; unfold ASTEROID_MIN_RADIUS; lia).
  replace (Z.to_nat (child_count (env_const 0) (rng cur0))) with 2%nat
    by reflexivity.
  cbn [seq map].
  eexists. eexists. split; [reflexivity |].
  destruct (split_child_fields (env_const 0) (drifting 0 0 51 1 1)
                               (advance (next_rng cur0) (3 * 0)))
    as (_ & _ & Hr & _).
  assert (Hk : Asteroid.radius
                 (fst (Asteroid.split_child (env_const 0) (drifting 0 0 51 1 1)
                         (advance (next_rng cur0) (3 * 0)))) = 20%Z).
  { rewrite Hr. cbn [drifting Asteroid.radius].
    rewrite (py_int_floor _ 20).
    - reflexivity.
    - unfold ASTEROID_SPLIT_FACTOR, child_variance, ASTEROID_CHILD_VARIANCE.
      simpl. lra.
    - unfold ASTEROID_SPLIT_FACTOR, child_variance, ASTEROID_CHILD_VARIANCE.
      simpl. lra. }
  split; [exact Hk |].
  intros v Hv. rewrite Hk.
  apply Rlt_le_trans with (IZR 51 * (ASTEROID_SPLIT_FACTOR + v));
    [| apply Rmax_r].
  unfold ASTEROID_SPLIT_FACTOR, ASTEROID_CHILD_VARIANCE in *. lra.
Qed.

(** C4, amended.  An asteroid whose radius is at most ASTEROID_MIN_RADIUS
    splits into no child.  A larger one splits into the number of children
    that [random.choice([2, 2, 3])] picks: 2 or 3, and 3 only for the last
    of the three equally likely indices.  The i-th child has radius
    max(ASTEROID_MIN_RADIUS, int(parent_radius * (ASTEROID_SPLIT_FACTOR
    + v_i))), the product truncated to an integer, where v_i is the i-th
    variance draw, within +-ASTEROID_CHILD_VARIANCE when the generator is
    in range; so every child has radius >= ASTEROID_MIN_RADIUS; and every
    child is at the parent's position. *)
Theorem split_children :
  forall (e : Env) (a : Asteroid.t) (c : Cur),
    let kids := fst (Asteroid.split e a c) in
    let child i :=
      fst (Asteroid.split_child e a (advance (next_rng c) (3 * i))) in
    ((Asteroid.radius a <= ASTEROID_MIN_RADIUS)%Z -> kids = [])
    /\ ((ASTEROID_MIN_RADIUS < Asteroid.radius a)%Z ->
        kids = map child (seq 0 (Z.to_nat (child_count e (rng c))))
        /\ Z.of_nat (length kids) = child_count e (rng c)
        /\ (length kids = 2 \/ length kids = 3)%nat
        /\ (length kids = 3%nat <-> (rnd_raw e (rng c) mod 3 = 2)%Z))
    /\ (forall i : nat,
          let v := child_variance e (S (rng c) + 3 * i) in
          Asteroid.radius (child i)
          = Z.max ASTEROID_MIN_RADIUS
                  (py_int (IZR (Asteroid.radius a)
                           * (ASTEROID_SPLIT_FACTOR + v)))
          /\ (ASTEROID_MIN_RADIUS <= Asteroid.radius (child i))%Z
          /\ Asteroid.x (child i) = Asteroid.x a
          /\ Asteroid.y (child i) = Asteroid.y a
          /\ (unit_range e ->
              - ASTEROID_CHILD_VARIANCE <= v <= ASTEROID_CHILD_VARIANCE)).
Proof.
  intros e a c kids child. split; [| split].
  - intros H. unfold kids. rewrite split_terminal by exact H. reflexivity.
  - intros H.
    assert (Hk : kids = map child (seq 0 (Z.to_nat (child_count e (rng c)))))
      by (apply split_big; exact H).
    destruct (child_count_cases e (rng c)) as [Hcases Hthree].
    assert (Hlen : Z.of_nat (length kids) = child_count e (rng c)).
    { rewrite Hk, length_map, length_seq. lia. }
    repeat split; try assumption; try lia.
  - intros i v.
    destruct (split_child_fields e a (advance (next_rng c) (3 * i)))
      as (Hx & Hy & Hr & _).
    fold (child i) in Hx, Hy, Hr.
    replace (rng (advance (next_rng c) (3 * i))) with (S (rng c) + 3 * i)%nat
      in Hr by reflexivity.
    fold v in Hr.
    repeat split; try assumption.
    + rewrite Hr. lia.
    + apply child_variance_range; assumption.
    + apply child_variance_range; assumption.
Qed.

Lemma split_children_witness :
  length (fst (Asteroid.split (env_const 0) (drifting 5 7 60 1 1) cur0)) = 2%nat
  /\ - ASTEROID_CHILD_VARIANCE
     <= child_variance (env_const 0) 1 <= ASTEROID_CHILD_VARIANCE
  /\ fst (Asteroid.split (env_const 0) (drifting 5 7 16 1 1) cur0) = [].
Proof.
  pose proof (split_children (env_const 0) (drifting 5 7 60 1 1) cur0) as H.
  cbv zeta in H. destruct H as (_ & Hbig & Hchild).
  destruct Hbig as (_ & Hlen & _).
  { simpl. unfold ASTEROID_MIN_RADIUS. lia. }
  split; [| split].
  - apply Nat2Z.inj. rewrite Hlen. reflexivity.
  - destruct (Hchild 0%nat) as (_ & _ & _ & _ & Hv).
    apply Hv. intros k. simpl. lra.
  - apply (split_children (env_const 0) (drifting 5 7 16 1 1) cur0).
    simpl. unfold ASTEROID_MIN_RADIUS. lia.
Defined.

(** ** The playfield invariant over a whole tick *)

Lemma update_lasers_in_bounds (e : Env) (ls : list Laser.t) (dt : Z) :
  forall c, Forall laser_in_bounds (fst (Game.update_lasers e ls dt c)).
Proof.
  induction ls as [| l rest IH]; intros c; cbn [Game.update_lasers].
  - constructor.
  - pose proof (proj1 (proj2 entity_updates_wrap) e l dt c) as Hl.
    destruct (Laser.update e l dt c) as [l1 c1].
    specialize (IH c1).
    destruct (Game.update_lasers e rest dt c1) as [rest1 c2].
    constructor; assumption.
Qed.

Lemma scan_lasers_keeps (P : Laser.t -> Prop) (a : Asteroid.t) :
  (forall l, P l -> P (Laser.kill l)) ->
  forall ls ls', Forall P ls -> Game.scan_lasers a ls = Some ls' -> Forall P ls'.
Proof.
  intros Hkill. induction ls as [| l rest IH]; intros ls' Hall H;
    cbn [Game.scan_lasers] in H.
  - discriminate.
  - inversion Hall as [| ? ? Hl Hrest]; subst.
    destruct (Game.laser_hits a l).
    + injection H as <-. constructor; [apply Hkill; exact Hl | exact Hrest].
    + destruct (Game.scan_lasers a rest) as [rest' |]; [| discriminate].
      injection H as <-. constructor; [exact Hl | apply IH; trivial].
Qed.

Lemma split_in_bounds (e : Env) (a : Asteroid.t) (c : Cur) :
  asteroid_in_bounds a -> Forall asteroid_in_bounds (fst (Asteroid.split e a c)).
Proof.
  intros Ha.
  destruct (Z_le_gt_dec (Asteroid.radius a) ASTEROID_MIN_RADIUS) as [Hs | Hb].
  - rewrite split_terminal by exact Hs. constructor.
  - rewrite split_big by lia. apply Forall_forall. intros k Hk.
    apply in_map_iff in Hk. destruct Hk as (i & <- & _).
    destruct (split_child_fields e a (advance (next_rng c) (3 * i)))
      as (Hx & Hy & _).
    unfold asteroid_in_bounds. rewrite Hx, Hy. exact Ha.
Qed.

Lemma lasers_vs_asteroids_in_bounds (e : Env) (l : list Asteroid.t) :
  forall ls sc acc c,
    Forall asteroid_in_bounds l -> Forall laser_in_bounds ls ->
    Forall asteroid_in_bounds acc ->
    Forall laser_in_bounds
           (fst (fst (fst (Game.lasers_vs_asteroids e l ls sc acc c))))
    /\ Forall asteroid_in_bounds
              (snd (fst (Game.lasers_vs_asteroids e l ls sc acc c))).
Proof.
  induction l as [| a rest IH]; intros ls sc acc c Hl Hls Hacc;
    cbn [Game.lasers_vs_asteroids].
  - simpl. split; assumption.
  - inversion Hl as [| ? ? Ha Hrest]; subst.
    destruct (Game.scan_lasers a ls) as [ls' |] eqn:Hscan.
    + pose proof (split_in_bounds e a c Ha) as Hkids.
      destruct (Asteroid.split e a c) as [kids c1].
      apply IH; try assumption.
      * apply (scan_lasers_keeps laser_in_bounds a (fun l H => H) ls ls' Hls Hscan).
      * apply Forall_app. split; assumption.
    + apply IH; try assumption.
      apply Forall_app. split; [assumption | constructor; [assumption | constructor]].
Qed.

Lemma ship_vs_asteroids_in_bounds (e : Env) (l : list Asteroid.t) (g : Game.t)
  (c : Cur) :
  all_in_bounds g -> all_in_bounds (fst (Game.ship_vs_asteroids e l g c)).
Proof.
  intros (Hs & Hl & Ha). induction l as [| a rest IH];
    cbn [Game.ship_vs_asteroids].
  - exact (conj Hs (conj Hl Ha)).
  - destruct (Game.ship_hits a (Game.ship g)); [| exact IH].
    unfold all_in_bounds. simpl. split; [| split; assumption].
    unfold in_bounds, WIDTH, HEIGHT. lra.
Qed.

Lemma sample_position_range (e : Env) (s : Ship.t) (fuel : nat) :
  forall c x y c',
    Game.sample_position e fuel s c = Some (x, y, c') ->
    (Game.margin <= x < WIDTH - Game.margin)%Z
    /\ (Game.margin <= y < HEIGHT - Game.margin)%Z.
Proof.
  induction fuel as [| fuel IH]; intros c x y c' H.
  - discriminate.
  - rewrite sample_position_step in H.
    destruct (Rgt_dec _ _) as [_ | _]; [| exact (IH _ _ _ _ H)].
    injection H as <- <- _. unfold attempt_x, attempt_y, Game.margin, WIDTH, HEIGHT.
    pose proof (Z.mod_pos_bound (rnd_raw e (rng c)) (960 - 80 - 80) ltac:(lia)).
    pose proof (Z.mod_pos_bound (rnd_raw e (S (rng c))) (720 - 80 - 80) ltac:(lia)).
    lia.
Qed.

Lemma spawn_loop_in_bounds (e : Env) (s : Ship.t) (fuel n : nat) :
  forall acc c l c',
    Forall asteroid_in_bounds acc ->
    Game.spawn_loop e fuel s n acc c = Some (l, c') ->
    Forall asteroid_in_bounds l.
Proof.
  induction n as [| n IH]; intros acc c l c' Hacc H; cbn [Game.spawn_loop] in H.
  - injection H as <- _. exact Hacc.
  - destruct (Game.sample_position e fuel s c) as [[[x y] c1] |] eqn:Hs;
      [| discriminate].
    apply sample_position_range in Hs. destruct Hs as [Hx Hy].
    destruct (randint e _ _ c1) as [r c2].
    pose proof (init_random_fields e (IZR x) (IZR y) r c2) as (Ex & Ey & _).
    destruct (Asteroid.init_random e (IZR x) (IZR y) r c2) as [a c3].
    simpl in Ex, Ey.
    apply IH in H; [exact H |].
    apply Forall_app. split; [exact Hacc |].
    constructor; [| constructor].
    unfold asteroid_in_bounds, in_bounds. rewrite Ex, Ey.
    unfold Game.margin, WIDTH, HEIGHT in *.
    split; split.
    + apply IZR_le. lia.
    + apply IZR_lt. lia.
    + apply IZR_le. lia.
    + apply IZR_lt. lia.
Qed.

Lemma update_in_bounds (e : Env) (fuel : nat) (g : Game.t) (keys : Keys)
  (dt : Z) (mouse_pos : Z * Z) (c : Cur) (g' : Game.t) (c' : Cur) :
  Game.game_over g || Game.paused g = false ->
  Game.update e fuel g keys dt mouse_pos c = Some (g', c') ->
  all_in_bounds g'.
Proof.
  intros Hrun H. unfold Game.update in H. rewrite Hrun in H.
  (* motion *)
  assert (H1 : all_in_bounds (fst (Game.motion_phase e g keys dt mouse_pos c))).
  { unfold Game.motion_phase.
    pose proof (update_lasers_in_bounds e (Game.lasers g) dt c) as Hl.
    destruct (Game.update_lasers e (Game.lasers g) dt c) as [ls1 c1].
    unfold all_in_bounds. cbn [fst Game.ship Game.lasers Game.asteroids].
    split; [apply (proj2 (proj2 (proj2 entity_updates_wrap))) |].
    split.
    - apply Forall_forall. intros l Hin. apply filter_In in Hin.
      rewrite Forall_forall in Hl. apply Hl. exact (proj1 Hin).
    - apply Forall_forall. intros a Hin. apply in_map_iff in Hin.
      destruct Hin as (a0 & <- & _).
      apply (proj1 (proj2 (proj2 entity_updates_wrap))). }
  destruct (Game.motion_phase e g keys dt mouse_pos c) as [g1 c1].
  cbn [fst] in H1. destruct H1 as (Hs1 & Hl1 & Ha1).
  (* lasers against asteroids *)
  assert (H2 : all_in_bounds (fst (Game.laser_phase e g1 c1))).
  { unfold Game.laser_phase.
    pose proof (lasers_vs_asteroids_in_bounds e (Game.asteroids g1)
                  (Game.lasers g1) (Game.score g1) [] c1 Ha1 Hl1 (Forall_nil _))
      as [Hl Ha].
    destruct (Game.lasers_vs_asteroids e (Game.asteroids g1) (Game.lasers g1)
                                        (Game.score g1) [] c1)
      as [[[ls sc] new_asteroids] c2].
    exact (conj Hs1 (conj Hl Ha)). }
  destruct (Game.laser_phase e g1 c1) as [g2 c2]. cbn [fst] in H2.
  (* the ship against asteroids *)
  assert (H3 : all_in_bounds (fst (Game.ship_phase e g2 c2))).
  { unfold Game.ship_phase, Ship.can_be_hit, get_ticks.
    destruct (_ >=? _)%Z; [apply ship_vs_asteroids_in_bounds |]; exact H2. }
  destruct (Game.ship_phase e g2 c2) as [g3 c3]. cbn [fst] in H3.
  (* next wave *)
  unfold Game.wave_phase in H.
  destruct (Game.is_empty (Game.asteroids g3) && negb (Game.game_over g3)).
  - unfold Game._spawn_wave in H.
    destruct (Game.spawn_loop e fuel (Game.ship g3) _ [] c3) as [[l c4] |] eqn:Hl;
      [| discriminate].
    injection H as <- _. apply spawn_loop_in_bounds in Hl; [| constructor].
    destruct H3 as (Hs3 & Hl3 & _). exact (conj Hs3 (conj Hl3 Hl)).
  - injection H as <- _. exact H3.
Qed.

(** Over exact real numbers the wrap keeps its bound: after the position
    update of any entity (laser, asteroid, ship) the position satisfies
    0 <= x < WIDTH and 0 <= y < HEIGHT, whatever the position and velocity
    were before, and so does every entity after a tick that is neither
    paused nor over (those split or spawned in the tick too). *)
Lemma wrap_bound_exact_reals :
  (forall x y, in_bounds (fst (wrap_position x y)) (snd (wrap_position x y)))
  /\ (forall e l dt c,
        in_bounds (Laser.x (fst (Laser.update e l dt c)))
                  (Laser.y (fst (Laser.update e l dt c))))
  /\ (forall a dt,
        in_bounds (Asteroid.x (Asteroid.update a dt))
                  (Asteroid.y (Asteroid.update a dt)))
  /\ (forall s keys dt mouse_pos,
        in_bounds (Ship.x (Ship.update s keys dt mouse_pos))
                  (Ship.y (Ship.update s keys dt mouse_pos)))
  /\ (forall e fuel g keys dt mouse_pos c,
        match Game.update e fuel g keys dt mouse_pos c with
        | Some (g', _) =>
            if Game.game_over g || Game.paused g then g' = g
            else all_in_bounds g'
        | None => True
        end).
Proof.
  destruct entity_updates_wrap as (H1 & H2 & H3 & H4).
  repeat (split; [assumption |]).
  intros e fuel g keys dt mouse_pos c.
  destruct (Game.update e fuel g keys dt mouse_pos c) as [[g' c'] |] eqn:Hup;
    [| exact I].
  destruct (Game.game_over g || Game.paused g) eqn:Hrun.
  - unfold Game.update in Hup. rewrite Hrun in Hup. injection Hup as <- _.
    reflexivity.
  - apply (update_in_bounds _ _ _ _ _ _ _ _ _ Hrun Hup).
Qed.

(** ** The wrap on binary64 numbers *)

(** C8.  On the floats of the program the wrap misses its upper bound.
    For a tiny negative coordinate, x % WIDTH is [fmod] plus WIDTH, and
    that sum rounds to WIDTH itself: wrap_position(-1e-18, 0.0) is
    (960.0, 0.0).  So an entity at x = 0.0 whose velocity is -1e-18 is at
    x = 960.0 = WIDTH after its update, which is not below WIDTH, and
    likewise at y = 720.0 = HEIGHT on the other axis.  A coordinate that
    is well away from the edge wraps as intended: 959.5 + 1 goes to
    0.5. *)
Theorem wrap_reaches_width :
  Binary64.wrap_position Edge.minus_tiny PrimFloat.zero
  = Some (Binary64.width, PrimFloat.zero)
  /\ Binary64.move PrimFloat.zero Edge.hundred Edge.minus_tiny PrimFloat.zero
     = Some (Binary64.width, Edge.hundred)
  /\ Binary64.move Edge.hundred PrimFloat.zero PrimFloat.zero Edge.minus_tiny
     = Some (Edge.hundred, Binary64.height)
  /\ Binary64.inside Binary64.width Edge.hundred = false
  /\ Binary64.inside Edge.hundred Binary64.height = false
  /\ Binary64.inside PrimFloat.zero Edge.hundred = true
  /\ Binary64.move Edge.near_edge Edge.hundred PrimFloat.one PrimFloat.zero
     = Some (Edge.half, Edge.hundred).
Proof.
  repeat split; vm_compute; reflexivity.
Qed.

(** * Further properties of the code *)

(** ** Utility functions *)

Lemma hypot_nonneg (x y : R) : 0 <= hypot x y.
Proof. unfold hypot. apply sqrt_pos. Qed.

Lemma hypot_polar (a m : R) : hypot (cos a * m) (sin a * m) = Rabs m.
Proof.
  unfold hypot.
  replace (cos a * m * (cos a * m) + sin a * m * (sin a * m))
    with ((Rsqr (sin a) + Rsqr (cos a)) * Rsqr m) by (unfold Rsqr; ring).
  rewrite sin2_cos2, Rmult_1_l. apply sqrt_Rsqr_abs.
Qed.

(** X1. [clamp(v, lo, hi)] with lo <= hi lies in [lo, hi], leaves a value
    of that interval alone, sends a value below [lo] to [lo] and a value
    above [hi] to [hi], and clamping twice is clamping once.  With the
    bounds the wrong way round (hi < lo) it returns [lo], whatever the
    value. *)
Theorem clamp_in_range :
  forall v lo hi : R,
    (lo <= hi ->
     lo <= clamp v lo hi <= hi
     /\ (lo <= v <= hi -> clamp v lo hi = v)
     /\ (v <= lo -> clamp v lo hi = lo)
     /\ (hi <= v -> clamp v lo hi = hi)
     /\ clamp (clamp v lo hi) lo hi = clamp v lo hi)
    /\ (hi < lo -> clamp v lo hi = lo).
Proof.
  intros v lo hi. unfold clamp, Rmax, Rmin.
  repeat (destruct (Rle_dec _ _)); repeat split; intros; lra.
Qed.

Lemma clamp_in_range_witness :
  clamp 7 0 5 = 5 /\ clamp (-2) 0 5 = 0 /\ clamp 3 0 5 = 3 /\ clamp 3 5 0 = 5.
Proof.
  destruct (clamp_in_range 7 0 5) as [H7 _].
  destruct H7 as (_ & _ & _ & H7 & _); [lra |].
  destruct (clamp_in_range (-2) 0 5) as [Hm _].
  destruct Hm as (_ & _ & Hm & _); [lra |].
  destruct (clamp_in_range 3 0 5) as [H3 _].
  destruct H3 as (_ & H3 & _); [lra |].
  destruct (clamp_in_range 3 5 0) as [_ Hx].
  repeat split; [apply H7 | apply Hm | apply H3 | apply Hx]; lra.
Defined.

(** X2. [vec_from_angle(angle, magnitude)] is a vector of length
    |magnitude|, whatever the angle. *)
Theorem vec_from_angle_length :
  forall angle magnitude : R,
    hypot (fst (vec_from_angle angle magnitude))
          (snd (vec_from_angle angle magnitude)) = Rabs magnitude.
Proof. intros. unfold vec_from_angle. simpl. apply hypot_polar. Qed.

(** ** Firing *)

(** X3. A shot that is accepted leaves from the tip of the triangle that
    [Ship.draw] draws (one expression gives both) and starts alive.  Over
    exact real numbers it flies at LASER_SPEED along the facing direction
    and starts 1.8 ship radii from the ship's centre; binary64 rounds
    both quantities (a speed of 8.999999999999998 occurs). *)
Theorem shot_leaves_from_the_tip :
  forall (e : Env) (g : Game.t) (c : Cur),
    (LASER_COOLDOWN <= ticks e (clk c) - Game.last_shot g)%Z ->
    exists l : Laser.t,
      Game.lasers (fst (Game.shoot e g c)) = Game.lasers g ++ [l]
      /\ (Laser.x l, Laser.y l)
         = fst (fst (Render.ship_triangle (Game.ship g)))
      /\ laser_speed l = LASER_SPEED
      /\ dist (Laser.x l, Laser.y l)
              (Ship.x (Game.ship g), Ship.y (Game.ship g))
         = Rabs (IZR (Ship.radius (Game.ship g)) * (18 / 10))
      /\ Laser.alive l = true.
Proof.
  intros e g c H. rewrite shoot_accepted by exact H.
  exists (nose_laser (Game.ship g) (ticks e (S (clk c)))).
  split; [reflexivity |]. split; [reflexivity |]. split; [| split].
  - unfold laser_speed, nose_laser. simpl. rewrite hypot_polar.
    unfold LASER_SPEED. apply Rabs_pos_eq. lra.
  - unfold dist, nose_laser. simpl.
    match goal with
    | |- hypot ?a ?b = _ =>
        replace a with (cos (Ship.angle (Game.ship g))
                        * (IZR (Ship.radius (Game.ship g)) * (18 / 10))) by ring;
        replace b with (sin (Ship.angle (Game.ship g))
                        * (IZR (Ship.radius (Game.ship g)) * (18 / 10))) by ring
    end.
    apply hypot_polar.
  - reflexivity.
Qed.

Lemma shot_leaves_from_the_tip_witness :
  exists l : Laser.t,
    Game.lasers (fst (Game.shoot env_clock50 (bare_game 0 3 false false) cur0))
    = [l]
    /\ laser_speed l = 9.
Proof.
  destruct (shot_leaves_from_the_tip env_clock50 (bare_game 0 3 false false) cur0)
    as (l & Hl & _ & Hs & _).
  - unfold LASER_COOLDOWN. simpl. lia.
  - exists l. split; [exact Hl | exact Hs].
Defined.

(** ** New asteroids *)

Lemma uniform_range (e : Env) (a b : R) (c : Cur) :
  unit_range e -> a <= b ->
  a <= fst (uniform e a b c) <= b
  /\ (a < b -> fst (uniform e a b c) < b).
Proof.
  intros Hu Hab. unfold uniform, random_random. simpl.
  specialize (Hu (rng c)). split; [nra | intros; nra].
Qed.

Lemma init_random_speed (e : Env) (x y : R) (r : Z) (c : Cur) :
  unit_range e ->
  (ASTEROID_MAX_RADIUS - 15 <= r <= ASTEROID_MAX_RADIUS)%Z ->
  9 / 10 <= asteroid_speed (fst (Asteroid.init_random e x y r c)) < 18 / 10.
Proof.
  intros Hu [Hlo Hhi].
  unfold Asteroid.init_random, uniform, random_random, asteroid_speed,
    vec_from_angle.
  cbn [fst snd Asteroid.vx Asteroid.vy].
  rewrite hypot_polar.
  pose proof (Hu (rng (next_rng c))) as H1.
  set (u := rnd_unit e (rng (next_rng c))) in *.
  assert (Hr : 0 <= IZR (ASTEROID_MAX_RADIUS - r) <= 15).
  { split; [apply IZR_le; lia | apply IZR_le; unfold ASTEROID_MAX_RADIUS in *; lia]. }
  unfold ASTEROID_SPEED_BASE.
  rewrite Rabs_pos_eq by lra. lra.
Qed.

Lemma spawn_loop_fresh (e : Env) (s : Ship.t) (fuel n : nat) :
  unit_range e ->
  forall acc c l c',
    Forall fresh_rock acc ->
    Game.spawn_loop e fuel s n acc c = Some (l, c') ->
    Forall fresh_rock l.
Proof.
  intros Hu. induction n as [| n IH]; intros acc c l c' Hacc H;
    cbn [Game.spawn_loop] in H.
  - injection H as <- _. exact Hacc.
  - destruct (Game.sample_position e fuel s c) as [[[x y] c1] |] eqn:Hs;
      [| discriminate].
    apply sample_position_range in Hs. destruct Hs as [Hx Hy].
    pose proof (randint_range e (ASTEROID_MAX_RADIUS - 15) ASTEROID_MAX_RADIUS c1)
      as Hrad.
    destruct (randint e _ _ c1) as [r c2]. cbn [fst] in Hrad.
    assert (Hr : (ASTEROID_MAX_RADIUS - 15 <= r <= ASTEROID_MAX_RADIUS)%Z)
      by (apply Hrad; unfold ASTEROID_MAX_RADIUS; lia).
    pose proof (init_random_fields e (IZR x) (IZR y) r c2) as (Ex & Ey & Er).
    pose proof (init_random_speed e (IZR x) (IZR y) r c2 Hu Hr) as Hv.
    destruct (Asteroid.init_random e (IZR x) (IZR y) r c2) as [a c3].
    simpl in Ex, Ey, Er, Hv.
    apply IH in H; [exact H |].
    apply Forall_app. split; [exact Hacc |].
    constructor; [| constructor].
    unfold fresh_rock. rewrite Er. split; [exact Hr |]. split; [exact Hv |].
    exists x, y. repeat split; try assumption; lia.
Qed.

(** X4. Every asteroid of a wave that [_spawn_wave] returns has a radius
    from 45 to 60 and integer coordinates at least 80 pixels inside every
    border (80 <= x < 880, 80 <= y < 640); the asteroids that were there
    before are gone, and nothing else of the game changes.  Over exact
    real numbers its speed is at least 0.9 and below 1.8 pixels per tick;
    binary64 rounds the sum that gives the speed, so that the lower end
    comes out as 0.8999999999999999. *)
Theorem spawned_wave_shape :
  forall (e : Env) (fuel : nat) (g : Game.t) (count : Z) (c : Cur)
         (g' : Game.t) (c' : Cur),
    unit_range e ->
    Game._spawn_wave e fuel g count c = Some (g', c') ->
    Forall fresh_rock (Game.asteroids g')
    /\ length (Game.asteroids g') = Z.to_nat count
    /\ g' = Game.with_asteroids g (Game.asteroids g').
Proof.
  intros e fuel g count c g' c' Hu H.
  pose proof (spawn_wave_sound _ _ _ _ _ _ _ H) as (Hlen & _ & _ & Hg).
  split; [| split; assumption].
  unfold Game._spawn_wave in H.
  destruct (Game.spawn_loop e fuel (Game.ship g) (Z.to_nat count) [] c)
    as [[l c1] |] eqn:Hl; [| discriminate].
  injection H as <- _. simpl.
  apply (spawn_loop_fresh _ _ _ _ Hu _ _ _ _ (Forall_nil _) Hl).
Qed.

Lemma spawned_wave_shape_witness :
  exists fuel g' c',
    Game._spawn_wave (env_const 0) fuel (bare_game 0 3 false false) 5 cur0
    = Some (g', c')
    /\ Forall fresh_rock (Game.asteroids g')
    /\ length (Game.asteroids g') = 5%nat.
Proof.
  destruct (spawn_wave_ends (env_const 0) (bare_game 0 3 false false) 5 cur0)
    as [fuel0 H0].
  { apply far_corner; reflexivity. }
  destruct (H0 fuel0 (Nat.le_refl _)) as (g' & c' & Hg).
  exists fuel0, g', c'. split; [exact Hg |].
  destruct (spawned_wave_shape _ _ _ _ _ _ _ (unit_range_const 0) Hg)
    as (Hf & Hl & _).
  split; [exact Hf | exact Hl].
Defined.

(** ** Children of a split *)

Lemma split_child_shape (e : Env) (a : Asteroid.t) (c : Cur) :
  unit_range e ->
  (ASTEROID_MIN_RADIUS < Asteroid.radius a)%Z ->
  let k := fst (Asteroid.split_child e a c) in
  (ASTEROID_MIN_RADIUS <= Asteroid.radius k < Asteroid.radius a)%Z
  /\ IZR (Asteroid.radius k)
     <= Rmax (IZR ASTEROID_MIN_RADIUS) (7 / 10 * IZR (Asteroid.radius a))
  /\ 8 / 10 * (asteroid_speed a + 5 / 10) <= asteroid_speed k
     <= 135 / 100 * (asteroid_speed a + 5 / 10).
Proof.
  intros Hu Hbig k.
  destruct (split_child_fields e a c) as (_ & _ & Hr & _). fold k in Hr.
  pose proof (child_variance_range e (rng c) Hu) as Hv.
  assert (Hpos : 16 < IZR (Asteroid.radius a))
    by (apply IZR_lt in Hbig; exact Hbig).
  set (p := IZR (Asteroid.radius a) * (ASTEROID_SPLIT_FACTOR + child_variance e (rng c))) in *.
  assert (Hp : 0 <= p <= 7 / 10 * IZR (Asteroid.radius a)).
  { unfold p, ASTEROID_SPLIT_FACTOR, ASTEROID_CHILD_VARIANCE in *. split; nra. }
  destruct (py_int_nonneg p (proj1 Hp)) as (Hi0 & Hile & _).
  assert (Hlt : (py_int p < Asteroid.radius a)%Z) by (apply lt_IZR; lra).
  split; [rewrite Hr; unfold ASTEROID_MIN_RADIUS in *; lia |].
  split.
  - rewrite Hr. unfold ASTEROID_MIN_RADIUS.
    destruct (Z.max_spec 16 (py_int p)) as [[_ ->] | [_ ->]].
    + apply Rle_trans with (7 / 10 * IZR (Asteroid.radius a)); [lra | apply Rmax_r].
    + apply Rmax_l.
  - unfold k, Asteroid.split_child, uniform, random_random, asteroid_speed,
      vec_from_angle.
    cbn [fst snd Asteroid.vx Asteroid.vy].
    rewrite hypot_polar.
    pose proof (Hu (rng (next_rng (next_rng c)))) as Hf.
    set (u := rnd_unit e (rng (next_rng (next_rng c)))) in *.
    pose proof (hypot_nonneg (Asteroid.vx a) (Asteroid.vy a)) as Hh.
    set (h := hypot (Asteroid.vx a) (Asteroid.vy a)) in *.
    rewrite Rabs_pos_eq by nra. split; nra.
Qed.



(** ** What each pass of [update] leaves alone *)

Lemma update_paused_or_over_frozen (e : Env) (fuel : nat) (g : Game.t)
  (keys : Keys) (dt : Z) (mouse_pos : Z * Z) (c : Cur) :
  Game.game_over g || Game.paused g = true ->
  Game.update e fuel g keys dt mouse_pos c = Some (g, c).
Proof. intros H. unfold Game.update. rewrite H. reflexivity. Qed.



Lemma ship_update_keeps (s : Ship.t) (keys : Keys) (dt : Z) (mouse_pos : Z * Z) :
  Ship.radius (Ship.update s keys dt mouse_pos) = Ship.radius s
  /\ Ship.alive (Ship.update s keys dt mouse_pos) = Ship.alive s
  /\ Ship.invuln_until (Ship.update s keys dt mouse_pos) = Ship.invuln_until s.
Proof.
  rewrite ship_update_blocks.
  unfold Ship.wrap, Ship.integrate, Ship.friction, Ship.with_velocity.
  cbn [Ship.radius Ship.alive Ship.invuln_until].
  unfold Ship.clamp_speed.
  destruct (Rgt_dec _ _); repeat split.
Qed.

Lemma update_lasers_cursor (e : Env) (ls : list Laser.t) (dt : Z) :
  forall c,
    snd (Game.update_lasers e ls dt c)
    = {| rng := rng c; clk := clk c + length ls |}.
Proof.
  induction ls as [| l rest IH]; intros c; cbn [Game.update_lasers].
  - simpl. destruct c. simpl. f_equal. lia.
  - unfold Laser.update, get_ticks.
    destruct (wrap_position _ _) as [x2 y2].
    specialize (IH (next_clk c)).
    destruct (Game.update_lasers e rest dt (next_clk c)) as [rest1 c2].
    simpl in *. rewrite IH. f_equal. lia.
Qed.

Lemma update_lasers_radius (e : Env) (ls : list Laser.t) (dt : Z) :
  forall c,
    Forall (fun l => Laser.radius l = 3%Z) ls ->
    Forall (fun l => Laser.radius l = 3%Z) (fst (Game.update_lasers e ls dt c)).
Proof.
  induction ls as [| l rest IH]; intros c H; cbn [Game.update_lasers].
  - constructor.
  - inversion H as [| ? ? Hl Hrest]; subst.
    unfold Laser.update, get_ticks.
    destruct (wrap_position _ _) as [x2 y2].
    specialize (IH (next_clk c) Hrest).
    destruct (Game.update_lasers e rest dt (next_clk c)) as [rest1 c2].
    constructor; [exact Hl | exact IH].
Qed.

Lemma motion_phase_frame (e : Env) (g : Game.t) (keys : Keys) (dt : Z)
  (mouse_pos : Z * Z) (c : Cur) :
  let g1 := fst (Game.motion_phase e g keys dt mouse_pos c) in
  Game.ship g1 = Ship.update (Game.ship g) keys dt mouse_pos
  /\ Game.lasers g1 = filter Laser.alive (fst (Game.update_lasers e (Game.lasers g) dt c))
  /\ Game.asteroids g1 = map (fun a => Asteroid.update a dt) (Game.asteroids g)
  /\ Game.score g1 = Game.score g /\ Game.lives g1 = Game.lives g
  /\ Game.last_shot g1 = Game.last_shot g /\ Game.running g1 = Game.running g
  /\ Game.paused g1 = Game.paused g /\ Game.game_over g1 = Game.game_over g
  /\ snd (Game.motion_phase e g keys dt mouse_pos c)
     = {| rng := rng c; clk := clk c + length (Game.lasers g) |}.
Proof.
  unfold Game.motion_phase.
  pose proof (update_lasers_cursor e (Game.lasers g) dt c) as Hc.
  destruct (Game.update_lasers e (Game.lasers g) dt c) as [ls1 c1].
  simpl in *. repeat split. exact Hc.
Qed.

Lemma split_cursor (e : Env) (a : Asteroid.t) (c : Cur) :
  clk (snd (Asteroid.split e a c)) = clk c.
Proof.
  unfold Asteroid.split. destruct (_ <=? _)%Z; [reflexivity |].
  unfold choice, randbelow. rewrite split_loop_spec. reflexivity.
Qed.

Lemma lasers_vs_asteroids_cursor (e : Env) (l : list Asteroid.t) :
  forall ls sc acc c,
    clk (snd (Game.lasers_vs_asteroids e l ls sc acc c)) = clk c.
Proof.
  induction l as [| a rest IH]; intros ls sc acc c;
    cbn [Game.lasers_vs_asteroids].
  - reflexivity.
  - destruct (Game.scan_lasers a ls) as [ls' |]; [| apply IH].
    pose proof (split_cursor e a c) as Hs.
    destruct (Asteroid.split e a c) as [kids c1]. simpl in Hs.
    rewrite IH. exact Hs.
Qed.

Lemma laser_phase_frame (e : Env) (g : Game.t) (c : Cur) :
  let g2 := fst (Game.laser_phase e g c) in
  Game.ship g2 = Game.ship g
  /\ Game.lives g2 = Game.lives g /\ Game.last_shot g2 = Game.last_shot g
  /\ Game.running g2 = Game.running g /\ Game.paused g2 = Game.paused g
  /\ Game.game_over g2 = Game.game_over g
  /\ clk (snd (Game.laser_phase e g c)) = clk c.
Proof.
  unfold Game.laser_phase.
  pose proof (lasers_vs_asteroids_cursor e (Game.asteroids g) (Game.lasers g)
                                         (Game.score g) [] c) as Hc.
  destruct (Game.lasers_vs_asteroids e (Game.asteroids g) (Game.lasers g)
                                      (Game.score g) [] c)
    as [[[ls sc] new_asteroids] c1].
  simpl in *. repeat split. exact Hc.
Qed.

(** The two outcomes of the ship-asteroid pass. *)
Lemma ship_phase_cases (e : Env) (g : Game.t) (c : Cur) :
  Game.ship_phase e g c = (g, next_clk c)
  \/ ((ticks e (clk c) >= Ship.invuln_until (Game.ship g))%Z
      /\ (exists a, In a (Game.asteroids g)
                    /\ Game.ship_hits a (Game.ship g) = true)
      /\ Game.ship_phase e g c
         = (after_hit g (ticks e (S (clk c)) + INVULN_TIME),
            next_clk (next_clk c))).
Proof.
  unfold Game.ship_phase, Ship.can_be_hit, get_ticks.
  destruct (ticks e (clk c) >=? Ship.invuln_until (Game.ship g))%Z eqn:Hhot;
    [| left; reflexivity].
  destruct (first_hit_split (Game.ship g) (Game.asteroids g))
    as [Hm | (pre & a & post & E & Hpre & Ha)].
  - left. apply ship_vs_asteroids_miss. exact Hm.
  - right. split; [rewrite Z.geb_leb in Hhot; apply Z.leb_le in Hhot; lia |].
    split.
    + exists a. split; [rewrite E; apply in_or_app; right; left; reflexivity
                       | exact Ha].
    + rewrite E at 1.
      rewrite ship_vs_asteroids_first by assumption. reflexivity.
Qed.

Lemma wave_phase_frame (e : Env) (fuel : nat) (g : Game.t) (c : Cur)
  (g' : Game.t) (c' : Cur) :
  Game.wave_phase e fuel g c = Some (g', c') ->
  g' = Game.with_asteroids g (Game.asteroids g')
  /\ clk c' = clk c
  /\ (Game.asteroids g' = Game.asteroids g
      \/ (Game.asteroids g = [] /\ Game.game_over g = false
          /\ length (Game.asteroids g') = Z.to_nat (Game.next_count (Game.score g))
          /\ Forall (fun a => (ASTEROID_MAX_RADIUS - 15 <= Asteroid.radius a
                               <= ASTEROID_MAX_RADIUS)%Z) (Game.asteroids g'))).
Proof.
  unfold Game.wave_phase.
  destruct (Game.is_empty (Game.asteroids g) && negb (Game.game_over g)) eqn:Hb.
  - intros H. apply andb_prop in Hb. destruct Hb as [He Ho].
    assert (Hc : clk c' = clk c).
    { unfold Game._spawn_wave in H.
      destruct (Game.spawn_loop e fuel (Game.ship g) _ [] c) as [[l c1] |] eqn:Hl;
        [| discriminate].
      injection H as _ <-. clear - Hl.
      revert Hl. generalize (@nil Asteroid.t) as acc. revert c l.
      induction (Z.to_nat (Game.next_count (Game.score g))) as [| n IH];
        intros c l acc Hl; cbn [Game.spawn_loop] in Hl.
      - injection Hl as _ <-. reflexivity.
      - destruct (Game.sample_position e fuel (Game.ship g) c)
          as [[[x y] c0] |] eqn:Hs; [| discriminate].
        apply sample_position_sound in Hs. destruct Hs as [_ Hs].
        unfold randint, randrange, randbelow, Asteroid.init_random, uniform,
          random_random in Hl.
        cbn [fst snd] in Hl. apply IH in Hl. rewrite Hl. simpl. exact Hs. }
    apply spawn_wave_sound in H. destruct H as (Hlen & _ & Hrad & Hg).
    split; [exact Hg |]. split; [exact Hc |]. right.
    destruct (Game.asteroids g); [| discriminate].
    destruct (Game.game_over g); [discriminate |].
    repeat split; assumption.
  - intros H. injection H as <- <-. split; [destruct g; reflexivity |].
    split; [reflexivity | left; reflexivity].
Qed.

Lemma after_collisions_steps (e : Env) (g : Game.t) (keys : Keys) (dt : Z)
  (mouse_pos : Z * Z) (c : Cur) :
  let m := Game.motion_phase e g keys dt mouse_pos c in
  let l := Game.laser_phase e (fst m) (snd m) in
  after_collisions e g keys dt mouse_pos c = Game.ship_phase e (fst l) (snd l).
Proof.
  unfold after_collisions.
  destruct (Game.motion_phase e g keys dt mouse_pos c) as [g1 c1].
  cbn [fst snd].
  destruct (Game.laser_phase e g1 c1) as [g2 c2]. reflexivity.
Qed.

(** The state on which the ship-asteroid pass of a tick runs, and the
    clock index at which it reads the time. *)
Lemma before_ship_phase (e : Env) (g : Game.t) (keys : Keys) (dt : Z)
  (mouse_pos : Z * Z) (c : Cur) :
  let m := Game.motion_phase e g keys dt mouse_pos c in
  let l := Game.laser_phase e (fst m) (snd m) in
  Game.ship (fst l) = Ship.update (Game.ship g) keys dt mouse_pos
  /\ Game.lives (fst l) = Game.lives g
  /\ Game.game_over (fst l) = Game.game_over g
  /\ Game.paused (fst l) = Game.paused g
  /\ Game.running (fst l) = Game.running g
  /\ Game.last_shot (fst l) = Game.last_shot g
  /\ clk (snd l) = (clk c + length (Game.lasers g))%nat.
Proof.
  intros m l.
  destruct (motion_phase_frame e g keys dt mouse_pos c)
    as (M1 & _ & _ & _ & M5 & M6 & M7 & M8 & M9 & M10).
  destruct (laser_phase_frame e (fst m) (snd m))
    as (L1 & L2 & L3 & L4 & L5 & L6 & L7).
  fold m in M1, M5, M6, M7, M8, M9, M10. fold l in L1, L2, L3, L4, L5, L6, L7.
  rewrite L1, L2, L3, L4, L5, L6, L7, M1, M5, M6, M7, M8, M9, M10.
  repeat split.
Qed.

(** ** Lives *)

(** X6. A tick costs at most one life, and none while the ship is
    invulnerable: if the clock reading of the collision check (the one
    after the readings of the lasers) is below invuln_until, lives and
    game_over come out of [update] as they went in.  When a life is lost
    the ship comes out respawned and invulnerable for INVULN_TIME from the
    reading of the reset, and game_over is set exactly when no life is
    left. *)
Theorem tick_costs_at_most_one_life :
  forall (e : Env) (fuel : nat) (g : Game.t) (keys : Keys) (dt : Z)
         (mouse_pos : Z * Z) (c : Cur) (g' : Game.t) (c' : Cur),
    Game.update e fuel g keys dt mouse_pos c = Some (g', c') ->
    let check := (clk c + length (Game.lasers g))%nat in
    (Game.lives g - 1 <= Game.lives g' <= Game.lives g)%Z
    /\ ((ticks e check < Ship.invuln_until (Game.ship g))%Z ->
        Game.lives g' = Game.lives g /\ Game.game_over g' = Game.game_over g)
    /\ ((Game.lives g' < Game.lives g)%Z ->
        Game.ship g' = respawned (ticks e (S check) + INVULN_TIME)
        /\ Game.game_over g' = (Game.lives g' <=? 0)%Z).
Proof.
  intros e fuel g keys dt mouse_pos c g' c' H check.
  destruct (Game.game_over g || Game.paused g) eqn:Hrun.
  - rewrite update_paused_or_over_frozen in H by exact Hrun.
    injection H as <- _. repeat split; intros; lia.
  - rewrite update_running in H by exact Hrun.
    rewrite after_collisions_steps in H.
    destruct (before_ship_phase e g keys dt mouse_pos c)
      as (B1 & B2 & B3 & _ & _ & _ & B7).
    set (g2 := fst (Game.laser_phase e _ _)) in *.
    set (c2 := snd (Game.laser_phase e _ _)) in *.
    destruct (ship_update_keeps (Game.ship g) keys dt mouse_pos) as (_ & _ & Hinv).
    apply orb_false_elim in Hrun. destruct Hrun as [Hover _].
    destruct (ship_phase_cases e g2 c2) as [Hsame | (Hhot & _ & Hhit)].
    + rewrite Hsame in H. cbn [fst snd] in H.
      apply wave_phase_frame in H. destruct H as (-> & _ & _).
      cbn [Game.with_asteroids Game.lives Game.game_over Game.ship].
      rewrite B2, B3. repeat split; intros; lia.
    + rewrite Hhit in H. cbn [fst snd] in H.
      apply wave_phase_frame in H. destruct H as (-> & _ & _).
      cbn [Game.with_asteroids after_hit Game.lives Game.game_over Game.ship].
      rewrite B1, Hinv, B7 in Hhot. rewrite B2, B3, B7, Hover.
      fold check in Hhot |- *.
      split; [lia |]. split; [intros; lia |].
      intros _. split; [reflexivity |].
      destruct (Game.lives g - 1 <=? 0)%Z; reflexivity.
Qed.

Lemma last_life_tick (fuel : nat) :
  Game.update env_clock50 fuel last_life_game no_keys 16 (0%Z, 0%Z) cur0
  = Some (last_life_after, {| rng := 0; clk := 2 |}).
Proof.
  destruct (ship_update_at_rest Ship.init 16 (0%Z, 0%Z) eq_refl eq_refl)
    as (Hx & Hy & _ & _ & Hr & Hi); [bounds_eval |].
  unfold Game.update.
  cbn [orb Game.game_over Game.paused last_life_game].
  unfold Game.motion_phase, last_life_game.
  cbn [Game.lasers Game.asteroids Game.update_lasers map filter Game.ship
       Game.score Game.lives Game.last_shot Game.running Game.paused
       Game.game_over].
  rewrite !asteroid_update_inside by bounds_eval.
  unfold Game.laser_phase.
  cbn [Game.ship Game.lasers Game.asteroids Game.score Game.lives
       Game.last_shot Game.running Game.paused Game.game_over
       Game.lasers_vs_asteroids Game.scan_lasers app].
  unfold Game.ship_phase, Ship.can_be_hit, get_ticks.
  cbn [Game.ship Game.lasers Game.asteroids Game.score Game.lives
       Game.last_shot Game.running Game.paused Game.game_over].
  rewrite Hi.
  replace (ticks env_clock50 (clk cur0) >=? Ship.invuln_until Ship.init)%Z
    with true by reflexivity.
  assert (Hhit : Game.ship_hits
                   {| Asteroid.x := Asteroid.x (rock 480 360 20)
                                    + Asteroid.vx (rock 480 360 20);
                      Asteroid.y := Asteroid.y (rock 480 360 20)
                                    + Asteroid.vy (rock 480 360 20);
                      Asteroid.radius := Asteroid.radius (rock 480 360 20);
                      Asteroid.vx := Asteroid.vx (rock 480 360 20);
                      Asteroid.vy := Asteroid.vy (rock 480 360 20) |}
                   (Ship.update Ship.init no_keys 16 (0%Z, 0%Z)) = true).
  { unfold Game.ship_hits. rewrite Hx, Hy, Hr.
    apply circles_meet_true. simpl. unfold WIDTH, HEIGHT. lra. }
  cbn [Game.ship_vs_asteroids Game.ship].
  rewrite Hhit. reflexivity.
Qed.

Lemma tick_costs_at_most_one_life_witness :
  Game.lives last_life_after = (Game.lives last_life_game - 1)%Z
  /\ Game.ship last_life_after = respawned 2550
  /\ Game.game_over last_life_after = true.
Proof.
  pose proof (tick_costs_at_most_one_life env_clock50 0 last_life_game no_keys
                16%Z (0%Z, 0%Z) cur0 last_life_after {| rng := 0; clk := 2 |}
                (last_life_tick 0)) as H.
  cbv zeta in H. destruct H as (_ & _ & H).
  assert (Hlt : (Game.lives last_life_after < Game.lives last_life_game)%Z)
    by (simpl; lia).
  destruct (H Hlt) as [Hs Hg].
  split; [reflexivity |]. split; [exact Hs | exact Hg].
Defined.

(** ** The field is never left empty *)

(** X7. After a tick that is neither paused nor over, with a
    non-negative score, there is at least one asteroid: either some
    asteroid survived the tick, or a new wave of 5 to 12 was spawned. *)
Theorem field_never_empty :
  forall (e : Env) (fuel : nat) (g : Game.t) (keys : Keys) (dt : Z)
         (mouse_pos : Z * Z) (c : Cur) (g' : Game.t) (c' : Cur),
    Game.game_over g || Game.paused g = false ->
    (0 <= Game.score g)%Z ->
    Game.update e fuel g keys dt mouse_pos c = Some (g', c') ->
    (1 <= length (Game.asteroids g'))%nat.
Proof.
  intros e fuel g keys dt mouse_pos c g' c' Hrun Hsc H.
  rewrite update_running in H by exact Hrun.
  rewrite after_collisions_steps in H.
  destruct (before_ship_phase e g keys dt mouse_pos c) as (_ & _ & B3 & _).
  destruct (motion_phase_frame e g keys dt mouse_pos c)
    as (_ & _ & _ & M4 & _).
  set (m := Game.motion_phase e g keys dt mouse_pos c) in *.
  pose proof (laser_phase_score e (fst m) (snd m)) as S2.
  pose proof (total_points_nonneg
                (destroyed (Game.asteroids (fst m)) (Game.lasers (fst m)))) as S2'.
  set (g2 := fst (Game.laser_phase e (fst m) (snd m))) in *.
  set (c2 := snd (Game.laser_phase e (fst m) (snd m))) in *.
  apply orb_false_elim in Hrun. destruct Hrun as [Hnot _].
  assert (Hs2 : (0 <= Game.score g2)%Z) by lia.
  destruct (ship_phase_cases e g2 c2) as [Hsame | (_ & (a & Hin & _) & Hhit)].
  - rewrite Hsame in H. cbn [fst snd] in H. unfold Game.wave_phase in H.
    destruct (Game.asteroids g2) as [| a0 rest] eqn:Ea.
    + rewrite B3, Hnot in H. cbn [Game.is_empty negb andb] in H.
      apply spawn_wave_sound in H. destruct H as (Hlen & _).
      rewrite Hlen. pose proof (next_count_range _ Hs2). lia.
    + cbn [Game.is_empty andb] in H. injection H as <- _.
      rewrite Ea. simpl. lia.
  - rewrite Hhit in H. cbn [fst snd] in H. unfold Game.wave_phase in H.
    cbn [after_hit Game.asteroids] in H.
    destruct (Game.asteroids g2) as [| a0 rest] eqn:Ea; [destruct Hin |].
    cbn [Game.is_empty andb] in H. injection H as <- _.
    cbn [after_hit Game.asteroids]. rewrite Ea. simpl. lia.
Qed.

Lemma field_never_empty_witness :
  (1 <= length (Game.asteroids crossfire_after))%nat.
Proof.
  apply (field_never_empty env_clock50 0 crossfire_game no_keys 16%Z
           (0%Z, 0%Z) cur0 crossfire_after {| rng := 0; clk := 2 |}).
  - reflexivity.
  - simpl. lia.
  - apply crossfire_tick.
Defined.

(** ** The ship's speed and thrust *)

Lemma ship_update_velocity (s : Ship.t) (keys : Keys) (dt : Z) (mouse_pos : Z * Z) :
  let clamped := Ship.clamp_speed (Ship.thrust (Ship.aim s mouse_pos) keys) in
  Ship.vx (Ship.update s keys dt mouse_pos) = Ship.vx clamped * SHIP_FRICTION
  /\ Ship.vy (Ship.update s keys dt mouse_pos) = Ship.vy clamped * SHIP_FRICTION.
Proof.
  intros clamped. rewrite ship_update_blocks. fold clamped.
  unfold Ship.wrap, Ship.integrate, Ship.friction, Ship.with_velocity.
  cbn [Ship.vx Ship.vy fst snd]. split; reflexivity.
Qed.

(** X8. Over exact real numbers, whatever the keys and however fast
    the ship was, after [Ship.update] its speed is at most
    SHIP_MAX_SPEED * SHIP_FRICTION = 5.952, strictly below
    SHIP_MAX_SPEED; binary64 rounds the rescaling of the clamp, so that
    5.952000000000001 occurs.  The radius and the invulnerability
    deadline are not touched by the motion. *)
Theorem ship_top_speed :
  forall (s : Ship.t) (keys : Keys) (dt : Z) (mouse_pos : Z * Z),
    Ship.speed (Ship.update s keys dt mouse_pos)
    <= SHIP_MAX_SPEED * SHIP_FRICTION
    /\ SHIP_MAX_SPEED * SHIP_FRICTION = 5952 / 1000
    /\ Ship.radius (Ship.update s keys dt mouse_pos) = Ship.radius s
    /\ Ship.invuln_until (Ship.update s keys dt mouse_pos) = Ship.invuln_until s.
Proof.
  intros s keys dt mouse_pos.
  destruct (ship_update_velocity s keys dt mouse_pos) as [Hx Hy].
  destruct (ship_update_keeps s keys dt mouse_pos) as (Hr & _ & Hi).
  pose proof (clamp_speed_bound (Ship.thrust (Ship.aim s mouse_pos) keys)) as Hb.
  split; [| split; [unfold SHIP_MAX_SPEED, SHIP_FRICTION; lra | split; assumption]].
  unfold Ship.speed in *. rewrite Hx, Hy.
  rewrite sqrt_scaled by (unfold SHIP_FRICTION; lra).
  unfold SHIP_FRICTION, SHIP_MAX_SPEED in *. lra.
Qed.

Lemma thrust_velocity (s : Ship.t) (keys : Keys) :
  Ship.thrust s keys
  = Ship.with_velocity s
      (Ship.push (K_d keys || K_RIGHT keys) (Ship.angle s + PI / 2)
                 (SHIP_THRUST * (6 / 10))
         (Ship.push (K_a keys || K_LEFT keys) (Ship.angle s - PI / 2)
                    (SHIP_THRUST * (6 / 10))
            (Ship.push (K_s keys || K_DOWN keys) (Ship.angle s + PI)
                       (SHIP_THRUST * (6 / 10))
               (Ship.push (K_w keys || K_UP keys) (Ship.angle s) SHIP_THRUST
                          (Ship.vx s, Ship.vy s))))).
Proof. reflexivity. Qed.

Lemma quarter_turns (a : R) :
  cos (a - PI / 2) = sin a /\ cos (a + PI / 2) = - sin a
  /\ sin (a - PI / 2) = - cos a /\ sin (a + PI / 2) = cos a.
Proof.
  rewrite cos_minus, cos_plus, sin_minus, sin_plus, cos_PI2, sin_PI2.
  repeat split; ring.
Qed.

Lemma pair_eq (a b c d : R) : a = c -> b = d -> (a, b) = (c, d).
Proof. intros -> ->. reflexivity. Qed.

Lemma thrust_strafe_cancel (s : Ship.t) (k : Keys) :
  Ship.thrust s (strafe_both k) = Ship.thrust s (strafe_none k).
Proof.
  rewrite !thrust_velocity. f_equal.
  unfold strafe_both, strafe_none.
  cbn [K_w K_UP K_s K_DOWN K_a K_LEFT K_d K_RIGHT orb].
  set (v := Ship.push (K_s k || K_DOWN k) _ _ _).
  unfold Ship.push at 1 2 3 4. unfold Ship.vadd, vec_from_angle.
  cbn [fst snd].
  destruct (quarter_turns (Ship.angle s)) as (C1 & C2 & S1 & S2).
  rewrite C1, C2, S1, S2. destruct v as [vx vy]. cbn [fst snd].
  apply pair_eq; ring.
Qed.

(** X9. Over exact real numbers, pressing both strafe keys is pressing
    neither: with A and D down together the two sideways pushes (at -90
    and +90 degrees from the facing direction) cancel, so [Ship.update]
    gives the same ship as with no strafe key; in binary64 the cosine of
    pi/2 is not 0 and a residue of the order of 1e-17 stays in the
    velocity.  Forward and back do not cancel: with W and S both down the
    velocity gains 0.4 * SHIP_THRUST along the facing direction, where W
    alone gives SHIP_THRUST. *)
Theorem thrust_keys_combine :
  forall (s : Ship.t) (k : Keys) (dt : Z) (mouse_pos : Z * Z),
    Ship.update s (strafe_both k) dt mouse_pos
    = Ship.update s (strafe_none k) dt mouse_pos
    /\ Ship.vx (Ship.thrust s forward_and_back)
       = Ship.vx s + cos (Ship.angle s) * (SHIP_THRUST * (4 / 10))
    /\ Ship.vy (Ship.thrust s forward_and_back)
       = Ship.vy s + sin (Ship.angle s) * (SHIP_THRUST * (4 / 10))
    /\ Ship.vx (Ship.thrust s only_forward)
       = Ship.vx s + cos (Ship.angle s) * SHIP_THRUST
    /\ Ship.vy (Ship.thrust s only_forward)
       = Ship.vy s + sin (Ship.angle s) * SHIP_THRUST.
Proof.
  intros s k dt mouse_pos. split.
  - rewrite !ship_update_blocks, thrust_strafe_cancel. reflexivity.
  - rewrite !thrust_velocity.
    unfold forward_and_back, only_forward, Ship.with_velocity, Ship.push,
      Ship.vadd, vec_from_angle.
    cbn [K_w K_UP K_s K_DOWN K_a K_LEFT K_d K_RIGHT orb fst snd Ship.vx Ship.vy].
    rewrite neg_cos, neg_sin. repeat split; field.
Qed.

(** ** The facing angle *)






(** ** The laser pass, in general *)

Lemma scan_lasers_spec (a : Asteroid.t) (ls : list Laser.t) :
  match Game.scan_lasers a ls with
  | None => hit_by_any ls a = false
  | Some ls' =>
      hit_by_any ls a = true
      /\ map laser_track ls' = map laser_track ls
      /\ (forall a', hit_by_any ls' a' = hit_by_any ls a')
      /\ Forall2 (fun l' l => Laser.alive l' = true -> Laser.alive l = true) ls' ls
  end.
Proof.
  induction ls as [| l rest IH]; cbn [Game.scan_lasers].
  - reflexivity.
  - destruct (Game.laser_hits a l) eqn:Hl.
    + split; [unfold hit_by_any; simpl; rewrite Hl; reflexivity |].
      split; [reflexivity |]. split; [intros a'; reflexivity |].
      constructor; [simpl; discriminate |].
      clear. induction rest; constructor; auto.
    + destruct (Game.scan_lasers a rest) as [rest' |].
      * destruct IH as (H1 & H2 & H3 & H4).
        split; [unfold hit_by_any in *; simpl; rewrite Hl; exact H1 |].
        split; [simpl; rewrite H2; reflexivity |].
        split; [| constructor; [auto | exact H4]].
        intros a'. unfold hit_by_any in *. simpl. rewrite (H3 a'). reflexivity.
      * unfold hit_by_any in *. simpl. rewrite Hl. exact IH.
Qed.

Lemma destroyed_is_filter (l : list Asteroid.t) :
  forall ls, destroyed l ls = filter (hit_by_any ls) l.
Proof.
  induction l as [| a rest IH]; intros ls; cbn [destroyed filter].
  - reflexivity.
  - pose proof (scan_lasers_spec a ls) as Hs.
    destruct (Game.scan_lasers a ls) as [ls' |].
    + destruct Hs as (H1 & _ & H3 & _). rewrite H1, IH.
      f_equal. apply filter_ext. exact H3.
    + rewrite Hs. apply IH.
Qed.

Lemma lasers_vs_asteroids_members (e : Env) (l : list Asteroid.t) :
  forall ls sc acc c,
    let out := Game.lasers_vs_asteroids e l ls sc acc c in
    (forall a, In a acc \/ (In a l /\ hit_by_any ls a = false) ->
               In a (snd (fst out)))
    /\ (forall k, In k (snd (fst out)) ->
                  In k acc \/ (In k l /\ hit_by_any ls k = false)
                  \/ exists a c0, In a l /\ hit_by_any ls a = true
                                  /\ In k (fst (Asteroid.split e a c0)))
    /\ map laser_track (fst (fst (fst out))) = map laser_track ls
    /\ Forall2 (fun l' l0 => Laser.alive l' = true -> Laser.alive l0 = true)
               (fst (fst (fst out))) ls.
Proof.
  induction l as [| a rest IH]; intros ls sc acc c;
    cbn [Game.lasers_vs_asteroids].
  - cbn [fst snd]. split; [| split; [| split]].
    + intros a [H | [[] _]]. exact H.
    + intros k H. left. exact H.
    + reflexivity.
    + clear. induction ls; constructor; auto.
  - pose proof (scan_lasers_spec a ls) as Hs.
    destruct (Game.scan_lasers a ls) as [ls' |].
    + destruct Hs as (H1 & H2 & H3 & H4).
      pose proof (eq_refl (Asteroid.split e a c)) as Hsplit.
      destruct (Asteroid.split e a c) as [kids c1] eqn:Ek.
      specialize (IH ls' (sc + Game.points a)%Z (acc ++ kids) c1).
      cbv zeta in IH. destruct IH as (I1 & I2 & I3 & I4).
      split; [| split; [| split]].
      * intros a0 [Hacc | [[-> | Hin] Hno]].
        -- apply I1. left. apply in_or_app. left. exact Hacc.
        -- congruence.
        -- apply I1. right. split; [exact Hin | rewrite H3; exact Hno].
      * intros k Hk. apply I2 in Hk.
        destruct Hk as [Hk | [[Hin Hno] | (a0 & c0 & Hin & Hyes & Hk)]].
        -- apply in_app_or in Hk. destruct Hk as [Hk | Hk]; [left; exact Hk |].
           right. right. exists a, c. split; [left; reflexivity |].
           split; [exact H1 | rewrite Ek; exact Hk].
        -- right. left. split; [right; exact Hin | rewrite <- H3; exact Hno].
        -- right. right. exists a0, c0. split; [right; exact Hin |].
           split; [rewrite <- H3; exact Hyes | exact Hk].
      * rewrite I3. exact H2.
      * clear - I4 H4. revert I4 H4.
        generalize (fst (fst (fst (Game.lasers_vs_asteroids e rest ls'
                                     (sc + Game.points a) (acc ++ kids) c1)))).
        intros l1 I4. revert ls. induction I4 as [| x y l1 l2 Hxy _ IHf];
          intros ls H4; inversion H4; subst; constructor; auto.
    + specialize (IH ls sc (acc ++ [a]) c).
      cbv zeta in IH. destruct IH as (I1 & I2 & I3 & I4).
      split; [| split; [| split]]; try assumption.
      * intros a0 [Hacc | [[-> | Hin] Hno]].
        -- apply I1. left. apply in_or_app. left. exact Hacc.
        -- apply I1. left. apply in_or_app. right. left. reflexivity.
        -- apply I1. right. split; assumption.
      * intros k Hk. apply I2 in Hk.
        destruct Hk as [Hk | [[Hin Hno] | (a0 & c0 & Hin & Hyes & Hk)]].
        -- apply in_app_or in Hk. destruct Hk as [Hk | [<- | []]].
           ++ left. exact Hk.
           ++ right. left. split; [left; reflexivity | exact Hs].
        -- right. left. split; [right; exact Hin | exact Hno].
        -- right. right. exists a0, c0. split; [right; exact Hin |].
           split; assumption.
Qed.

(** X11. The laser pass in general.  The asteroids it destroys are
    exactly those that overlap at least one laser of the list, used or
    not (so one laser can account for several), and the score rises by
    the sum of their points.  Every asteroid that no laser overlaps is
    kept, and every asteroid left after the pass is such a kept one or a
    child of a destroyed one.  The lasers keep their number, positions and
    velocities; the pass only ever switches a laser from alive to dead. *)
Theorem laser_pass_outcome :
  forall (e : Env) (g : Game.t) (c : Cur),
    let g' := fst (Game.laser_phase e g c) in
    destroyed (Game.asteroids g) (Game.lasers g)
    = filter (hit_by_any (Game.lasers g)) (Game.asteroids g)
    /\ Game.score g'
       = (Game.score g
          + total_points (filter (hit_by_any (Game.lasers g)) (Game.asteroids g)))%Z
    /\ (forall a, In a (Game.asteroids g) ->
                  hit_by_any (Game.lasers g) a = false ->
                  In a (Game.asteroids g'))
    /\ (forall k, In k (Game.asteroids g') ->
                  (In k (Game.asteroids g) /\ hit_by_any (Game.lasers g) k = false)
                  \/ exists a c0,
                       In a (Game.asteroids g)
                       /\ hit_by_any (Game.lasers g) a = true
                       /\ In k (fst (Asteroid.split e a c0)))
    /\ map laser_track (Game.lasers g') = map laser_track (Game.lasers g)
    /\ Forall2 (fun l' l => Laser.alive l' = true -> Laser.alive l = true)
               (Game.lasers g') (Game.lasers g).
Proof.
  intros e g c g'.
  pose proof (destroyed_is_filter (Game.asteroids g) (Game.lasers g)) as Hd.
  pose proof (laser_phase_score e g c) as Hs. fold g' in Hs.
  pose proof (lasers_vs_asteroids_members e (Game.asteroids g) (Game.lasers g)
                (Game.score g) [] c) as Hm.
  cbv zeta in Hm. unfold g', Game.laser_phase.
  destruct (Game.lasers_vs_asteroids e (Game.asteroids g) (Game.lasers g)
                                      (Game.score g) [] c)
    as [[[ls sc] new_asteroids] c1] eqn:E.
  cbn [fst snd Game.asteroids Game.lasers Game.score] in *.
  destruct Hm as (M1 & M2 & M3 & M4).
  split; [exact Hd |]. split.
  { unfold g', Game.laser_phase in Hs. rewrite E in Hs.
    cbn [fst Game.score] in Hs. rewrite Hs, Hd. reflexivity. }
  split; [intros a Hin Hno; apply M1; right; split; assumption |].
  split; [| split; assumption].
  intros k Hk. apply M2 in Hk. destruct Hk as [[] | [Hk | Hk]]; [left | right];
    exact Hk.
Qed.

Lemma laser_pass_lasers (e : Env) (g : Game.t) (c : Cur) :
  length (Game.lasers (fst (Game.laser_phase e g c))) = length (Game.lasers g).
Proof.
  pose proof (lasers_vs_asteroids_members e (Game.asteroids g) (Game.lasers g)
                (Game.score g) [] c) as Hm.
  cbv zeta in Hm. unfold Game.laser_phase.
  destruct (Game.lasers_vs_asteroids e (Game.asteroids g) (Game.lasers g)
                                      (Game.score g) [] c)
    as [[[ls sc] new_asteroids] c1].
  cbn [fst snd Game.lasers] in *.
  destruct Hm as (_ & _ & M3 & _).
  rewrite <- (length_map laser_track ls), M3, length_map. reflexivity.
Qed.

(** ** Lasers over a tick *)

Lemma laser_update_stays_dead (e : Env) (l : Laser.t) (dt : Z) (c : Cur) :
  Laser.alive (fst (Laser.update e l dt c)) = true -> Laser.alive l = true.
Proof.
  unfold Laser.update, get_ticks. destruct (wrap_position _ _).
  cbn [fst Laser.alive]. destruct (_ >? _)%Z; [discriminate | auto].
Qed.

Lemma update_lasers_alive_count (e : Env) (ls : list Laser.t) (dt : Z) :
  forall c,
    (length (filter Laser.alive (fst (Game.update_lasers e ls dt c)))
     <= length (filter Laser.alive ls))%nat.
Proof.
  induction ls as [| l rest IH]; intros c; cbn [Game.update_lasers].
  - simpl. lia.
  - pose proof (laser_update_stays_dead e l dt c) as Hd.
    destruct (Laser.update e l dt c) as [l1 c1].
    specialize (IH c1).
    destruct (Game.update_lasers e rest dt c1) as [rest1 c2].
    cbn [fst filter] in *.
    destruct (Laser.alive l1).
    + rewrite Hd by reflexivity. simpl. lia.
    + destruct (Laser.alive l); simpl; lia.
Qed.

(** X12. [update] never adds a laser and drops every dead one: after a
    tick that is neither paused nor over, the number of lasers is at most
    the number of lasers that were alive before it.  So a laser that was
    marked dead by a hit is gone after the next tick, and a laser never
    comes back to life. *)
Theorem lasers_only_expire :
  forall (e : Env) (fuel : nat) (g : Game.t) (keys : Keys) (dt : Z)
         (mouse_pos : Z * Z) (c : Cur) (g' : Game.t) (c' : Cur),
    Game.game_over g || Game.paused g = false ->
    Game.update e fuel g keys dt mouse_pos c = Some (g', c') ->
    (length (Game.lasers g') <= length (filter Laser.alive (Game.lasers g)))%nat
    /\ (length (Game.lasers g') <= length (Game.lasers g))%nat.
Proof.
  intros e fuel g keys dt mouse_pos c g' c' Hrun H.
  assert (Hmain : (length (Game.lasers g')
                   <= length (filter Laser.alive (Game.lasers g)))%nat).
  { rewrite update_running in H by exact Hrun.
    rewrite after_collisions_steps in H.
    destruct (motion_phase_frame e g keys dt mouse_pos c) as (_ & M2 & _).
    set (m := Game.motion_phase e g keys dt mouse_pos c) in *.
    pose proof (laser_pass_lasers e (fst m) (snd m)) as Hl.
    set (g2 := fst (Game.laser_phase e (fst m) (snd m))) in *.
    set (c2 := snd (Game.laser_phase e (fst m) (snd m))) in *.
    assert (H3 : Game.lasers (fst (Game.ship_phase e g2 c2)) = Game.lasers g2).
    { destruct (ship_phase_cases e g2 c2) as [-> | (_ & _ & ->)]; reflexivity. }
    destruct (Game.ship_phase e g2 c2) as [g3 c3]. cbn [fst snd] in *.
    apply wave_phase_frame in H. destruct H as (-> & _).
    cbn [Game.with_asteroids Game.lasers].
    rewrite H3, Hl, M2. apply update_lasers_alive_count. }
  split; [exact Hmain |].
  pose proof (filter_length_le Laser.alive (Game.lasers g)). lia.
Qed.

Lemma lasers_only_expire_witness :
  (length (Game.lasers crossfire_after) <= 1)%nat.
Proof.
  apply (lasers_only_expire env_clock50 0 crossfire_game no_keys 16%Z
           (0%Z, 0%Z) cur0 crossfire_after {| rng := 0; clk := 2 |}).
  - reflexivity.
  - apply crossfire_tick.
Defined.

(** ** The torus *)

Lemma pymod_period (x m : R) (k : Z) :
  0 < m -> pymod (x + IZR k * m) m = pymod x m.
Proof.
  intros Hm. unfold pymod.
  replace ((x + IZR k * m) / m) with (x / m + IZR k) by (field; lra).
  destruct (base_Int_part (x / m)) as [Hlo Hhi].
  rewrite <- (Int_part_spec (x / m + IZR k) (Int_part (x / m) + k))
    by (rewrite plus_IZR; lra).
  rewrite plus_IZR. ring.
Qed.

(** X13. [wrap_position] makes the playfield a torus: moving a point by
    any whole number of widths and heights does not change where it
    wraps to, a point inside the playfield is left where it is, and
    wrapping twice is wrapping once. *)
Theorem wrap_is_toroidal :
  forall (x y : R) (kx ky : Z),
    wrap_position (x + IZR kx * IZR WIDTH) (y + IZR ky * IZR HEIGHT)
    = wrap_position x y
    /\ (in_bounds x y -> wrap_position x y = (x, y))
    /\ wrap_position (fst (wrap_position x y)) (snd (wrap_position x y))
       = wrap_position x y.
Proof.
  intros x y kx ky.
  assert (HW : 0 < IZR WIDTH) by (unfold WIDTH; lra).
  assert (HH : 0 < IZR HEIGHT) by (unfold HEIGHT; lra).
  split; [| split].
  - unfold wrap_position. rewrite !pymod_period by assumption. reflexivity.
  - intros [Hx Hy]. unfold wrap_position.
    rewrite (pymod_small x), (pymod_small y) by assumption. reflexivity.
  - unfold wrap_position. cbn [fst snd].
    rewrite (pymod_small (pymod x _)), (pymod_small (pymod y _))
      by (apply pymod_range; assumption).
    reflexivity.
Qed.

Lemma wrap_is_toroidal_witness :
  wrap_position 100 200 = (100, 200).
Proof.
  apply (wrap_is_toroidal 100 200 0 0).
  unfold in_bounds, WIDTH, HEIGHT. lra.
Defined.

(** ** Points and waves *)

(** X14. An asteroid of a radius within the configured bounds is worth
    between 1 and 8 points, never fewer than a larger one, and exactly
    (ASTEROID_MAX_RADIUS - radius) // 5 once its radius is 55 or less;
    asteroids of radius 55 to 60, the whole top of the wave range, are
    all worth 1. *)
Theorem points_by_size :
  forall a b : Asteroid.t,
    rock_sized a -> rock_sized b ->
    (1 <= Game.points a <= 8)%Z
    /\ ((Asteroid.radius a <= Asteroid.radius b)%Z ->
        (Game.points b <= Game.points a)%Z)
    /\ ((Asteroid.radius a <= 55)%Z ->
        Game.points a = ((ASTEROID_MAX_RADIUS - Asteroid.radius a) / 5)%Z)
    /\ ((55 <= Asteroid.radius a)%Z -> Game.points a = 1%Z).
Proof.
  intros a b [Ha1 Ha2] [Hb1 Hb2].
  unfold Game.points, ASTEROID_MAX_RADIUS, ASTEROID_MIN_RADIUS in *.
  assert (Hda : (0 <= (60 - Asteroid.radius a) / 5 <= 8)%Z).
  { split; [apply Z.div_pos; lia |].
    assert ((60 - Asteroid.radius a) / 5 < 9)%Z
      by (apply Z.div_lt_upper_bound; lia).
    lia. }
  split; [lia |]. split; [| split].
  - intros Hle.
    assert ((60 - Asteroid.radius b) / 5 <= (60 - Asteroid.radius a) / 5)%Z
      by (apply Z.div_le_mono; lia).
    lia.
  - intros H55.
    assert (1 <= (60 - Asteroid.radius a) / 5)%Z
      by (apply Z.div_le_lower_bound; lia).
    lia.
  - intros H55.
    assert ((60 - Asteroid.radius a) / 5 <= 1)%Z
      by (apply Z.div_le_upper_bound; lia).
    lia.
Qed.

Lemma points_by_size_witness :
  Game.points (rock 0 0 16) = 8%Z /\ Game.points (rock 0 0 60) = 1%Z.
Proof.
  assert (H16 : rock_sized (rock 0 0 16))
    by (unfold rock_sized, ASTEROID_MIN_RADIUS, ASTEROID_MAX_RADIUS; simpl; lia).
  assert (H60 : rock_sized (rock 0 0 60))
    by (unfold rock_sized, ASTEROID_MIN_RADIUS, ASTEROID_MAX_RADIUS; simpl; lia).
  destruct (points_by_size (rock 0 0 16) (rock 0 0 60) H16 H60)
    as (_ & _ & H1 & _).
  destruct (points_by_size (rock 0 0 60) (rock 0 0 16) H60 H16)
    as (_ & _ & _ & H2).
  split; [rewrite H1; [reflexivity | simpl; lia] | apply H2; simpl; lia].
Defined.

(** X15. The size of the next wave ramps with the score: it is 5 at
    score 0, grows by one every 15 points, never shrinks as the score
    grows, and stays at 12 from score 105 on. *)
Theorem wave_size_ramp :
  forall s1 s2 : Z,
    (0 <= s1 <= s2)%Z ->
    (5 <= Game.next_count s1 <= Game.next_count s2)%Z
    /\ (Game.next_count s2 <= 12)%Z
    /\ (s1 < 105 -> Game.next_count s1 = 5 + s1 / 15)%Z
    /\ (105 <= s1 -> Game.next_count s1 = 12)%Z
    /\ Game.next_count 0 = 5%Z.
Proof.
  intros s1 s2 [H0 H12]. unfold Game.next_count.
  assert (Hd1 : (0 <= s1 / 15)%Z) by (apply Z.div_pos; lia).
  assert (Hd : (s1 / 15 <= s2 / 15)%Z) by (apply Z.div_le_mono; lia).
  split; [lia |]. split; [lia |]. split; [| split; [| reflexivity]].
  - intros Hlt.
    assert (s1 / 15 < 7)%Z by (apply Z.div_lt_upper_bound; lia). lia.
  - intros Hge.
    assert (7 <= s1 / 15)%Z by (apply Z.div_le_lower_bound; lia). lia.
Qed.

Lemma wave_size_ramp_witness :
  Game.next_count 30 = 7%Z /\ Game.next_count 1000 = 12%Z.
Proof.
  destruct (wave_size_ramp 30 1000) as (_ & _ & H1 & _); [lia |].
  destruct (wave_size_ramp 1000 1000) as (_ & _ & _ & H2 & _); [lia |].
  split; [rewrite H1; [reflexivity | lia] | apply H2; lia].
Defined.


(** ** Drawing *)







(** ** The session invariant *)

Lemma sane_intro (g : Game.t) :
  (0 <= Game.score g)%Z ->
  (0 <= Game.lives g <= LIVES)%Z ->
  (Game.game_over g = true <-> Game.lives g = 0%Z) ->
  Forall rock_sized (Game.asteroids g) ->
  Forall (fun l => Laser.radius l = 3%Z) (Game.lasers g) ->
  Ship.radius (Game.ship g) = 12%Z ->
  sane g.
Proof. intros. repeat split; tauto. Qed.

Lemma split_rock_sized (e : Env) (a : Asteroid.t) (c : Cur) :
  unit_range e -> rock_sized a -> Forall rock_sized (fst (Asteroid.split e a c)).
Proof.
  intros Hu [Hlo Hhi].
  destruct (Z_le_gt_dec (Asteroid.radius a) ASTEROID_MIN_RADIUS) as [Hs | Hb].
  - rewrite split_terminal by exact Hs. constructor.
  - rewrite split_big by lia. apply Forall_forall. intros k Hk.
    apply in_map_iff in Hk. destruct Hk as (i & <- & _).
    destruct (split_child_shape e a (advance (next_rng c) (3 * i)) Hu)
      as (H1 & _); [lia |].
    unfold rock_sized. lia.
Qed.

Lemma lasers_vs_asteroids_forall (e : Env) (P : Asteroid.t -> Prop)
  (Q : Laser.t -> Prop) :
  (forall a c, P a -> Forall P (fst (Asteroid.split e a c))) ->
  (forall l, Q l -> Q (Laser.kill l)) ->
  forall l ls sc acc c,
    Forall P l -> Forall Q ls -> Forall P acc ->
    Forall Q (fst (fst (fst (Game.lasers_vs_asteroids e l ls sc acc c))))
    /\ Forall P (snd (fst (Game.lasers_vs_asteroids e l ls sc acc c))).
Proof.
  intros Hsplit Hkill.
  induction l as [| a rest IH]; intros ls sc acc c Hl Hls Hacc;
    cbn [Game.lasers_vs_asteroids].
  - simpl. split; assumption.
  - inversion Hl as [| ? ? Ha Hrest]; subst.
    destruct (Game.scan_lasers a ls) as [ls' |] eqn:Hscan.
    + pose proof (Hsplit a c Ha) as Hkids.
      destruct (Asteroid.split e a c) as [kids c1].
      apply IH; try assumption.
      * apply (scan_lasers_keeps Q a Hkill ls ls' Hls Hscan).
      * apply Forall_app. split; assumption.
    + apply IH; try assumption.
      apply Forall_app. split; [assumption | constructor; [assumption | constructor]].
Qed.

Lemma update_sane (e : Env) (fuel : nat) (g : Game.t) (keys : Keys) (dt : Z)
  (mouse_pos : Z * Z) (c : Cur) (g' : Game.t) (c' : Cur) :
  unit_range e -> sane g ->
  Game.update e fuel g keys dt mouse_pos c = Some (g', c') -> sane g'.
Proof.
  intros Hu Hs H.
  destruct (Game.game_over g || Game.paused g) eqn:Hrun.
  { rewrite update_paused_or_over_frozen in H by exact Hrun.
    injection H as <- _. exact Hs. }
  destruct Hs as (Hsc & Hlv & Hover & Hrocks & Hls & Hsr).
  rewrite update_running in H by exact Hrun.
  rewrite after_collisions_steps in H.
  destruct (before_ship_phase e g keys dt mouse_pos c)
    as (B1 & B2 & B3 & _).
  destruct (motion_phase_frame e g keys dt mouse_pos c)
    as (_ & M2 & M3 & M4 & _).
  set (m := Game.motion_phase e g keys dt mouse_pos c) in *.
  (* the laser pass *)
  assert (Hl2 : Forall (fun l => Laser.radius l = 3%Z)
                       (Game.lasers (fst (Game.laser_phase e (fst m) (snd m))))
                /\ Forall rock_sized
                          (Game.asteroids (fst (Game.laser_phase e (fst m) (snd m))))).
  { unfold Game.laser_phase.
    assert (Hl1 : Forall (fun l => Laser.radius l = 3%Z) (Game.lasers (fst m))).
    { rewrite M2. apply Forall_forall. intros l Hin. apply filter_In in Hin.
      pose proof (update_lasers_radius e (Game.lasers g) dt c Hls) as Hall.
      rewrite Forall_forall in Hall. apply Hall. exact (proj1 Hin). }
    assert (Ha1 : Forall rock_sized (Game.asteroids (fst m))).
    { rewrite M3. apply Forall_forall. intros a Hin. apply in_map_iff in Hin.
      destruct Hin as (a0 & <- & Hin0). rewrite Forall_forall in Hrocks.
      specialize (Hrocks a0 Hin0). unfold rock_sized, Asteroid.update in *.
      destruct (wrap_position _ _). exact Hrocks. }
    pose proof (lasers_vs_asteroids_forall e rock_sized
                  (fun l => Laser.radius l = 3%Z)
                  (fun a c0 => split_rock_sized e a c0 Hu) (fun l H0 => H0)
                  (Game.asteroids (fst m)) (Game.lasers (fst m))
                  (Game.score (fst m)) [] (snd m) Ha1 Hl1 (Forall_nil _))
      as [HQ HP].
    destruct (Game.lasers_vs_asteroids e _ _ _ [] (snd m))
      as [[[ls sc] new_asteroids] c1].
    split; assumption. }
  pose proof (laser_phase_score e (fst m) (snd m)) as S2.
  pose proof (total_points_nonneg
                (destroyed (Game.asteroids (fst m)) (Game.lasers (fst m)))) as S2'.
  set (g2 := fst (Game.laser_phase e (fst m) (snd m))) in *.
  set (c2 := snd (Game.laser_phase e (fst m) (snd m))) in *.
  destruct Hl2 as [Hl2 Ha2].
  destruct (ship_update_keeps (Game.ship g) keys dt mouse_pos) as (Hr & _).
  apply orb_false_elim in Hrun. destruct Hrun as [Hnot _].
  assert (Hlive : (1 <= Game.lives g)%Z).
  { destruct (Z.eq_dec (Game.lives g) 0) as [E | E]; [| lia].
    apply Hover in E. congruence. }
  (* the ship pass *)
  assert (H3 : sane (fst (Game.ship_phase e g2 c2))).
  { destruct (ship_phase_cases e g2 c2) as [-> | (_ & _ & ->)]; cbn [fst].
    - apply sane_intro; try assumption.
      + lia.
      + rewrite B2. exact Hlv.
      + rewrite B2, B3. exact Hover.
      + rewrite B1, Hr. exact Hsr.
    - apply sane_intro;
        cbn [after_hit Game.score Game.lives Game.game_over Game.asteroids
             Game.lasers Game.ship respawned Ship.radius];
        try assumption; try reflexivity.
      + lia.
      + rewrite B2. unfold LIVES in *. lia.
      + rewrite B2, B3, Hnot.
        destruct (Game.lives g - 1 <=? 0)%Z eqn:E.
        * apply Z.leb_le in E. split; intros; [lia | reflexivity].
        * apply Z.leb_gt in E. split; intros; [discriminate | lia]. }
  (* the wave *)
  destruct (Game.ship_phase e g2 c2) as [g3 c3]. cbn [fst snd] in *.
  apply wave_phase_frame in H. destruct H as (Hg & _ & Hw).
  destruct H3 as (S1 & S2a & S3 & S4 & S5 & S6).
  rewrite Hg.
  apply sane_intro;
    cbn [Game.with_asteroids Game.score Game.lives Game.game_over
         Game.asteroids Game.lasers Game.ship]; try assumption.
  destruct Hw as [-> | (_ & _ & _ & Hrad)]; [exact S4 |].
  apply Forall_forall. intros a Ha. rewrite Forall_forall in Hrad.
  specialize (Hrad a Ha).
  unfold rock_sized, ASTEROID_MIN_RADIUS, ASTEROID_MAX_RADIUS in *. lia.
Qed.

Lemma init_sane (e : Env) (fuel : nat) (c : Cur) (g : Game.t) (c' : Cur) :
  Game.init e fuel c = Some (g, c') -> sane g.
Proof.
  intros H. unfold Game.init in H.
  destruct (Audio.make_sounds e c) as [[[[s1 s2] s3] c1] |]; [| discriminate].
  apply spawn_wave_sound in H.
  destruct H as (_ & _ & Hrad & ->).
  apply sane_intro;
    cbn [Game.with_asteroids Game.fresh Game.score Game.lives Game.game_over
         Game.asteroids Game.lasers Game.ship].
  - lia.
  - unfold LIVES. lia.
  - unfold LIVES. split; intros; [discriminate | lia].
  - apply Forall_forall. intros a Ha. rewrite Forall_forall in Hrad.
    specialize (Hrad a Ha).
    unfold rock_sized, ASTEROID_MIN_RADIUS, ASTEROID_MAX_RADIUS in *. lia.
  - constructor.
  - reflexivity.
Qed.

Lemma shoot_sane (e : Env) (g : Game.t) (c : Cur) :
  sane g -> sane (fst (Game.shoot e g c)).
Proof.
  intros Hs.
  destruct (Z_lt_ge_dec (ticks e (clk c) - Game.last_shot g) LASER_COOLDOWN)
    as [Hlt | Hge].
  - rewrite shoot_rejected by exact Hlt. exact Hs.
  - rewrite shoot_accepted by lia.
    destruct Hs as (S1 & S2 & S3 & S4 & S5 & S6).
    apply sane_intro; cbn [fst Game.score Game.lives Game.game_over
                           Game.asteroids Game.lasers Game.ship];
      try assumption.
    apply Forall_app. split; [exact S5 | constructor; [reflexivity | constructor]].
Qed.

Lemma handle_event_sane (e : Env) (fuel : nat) (g : Game.t) (ev : Event)
  (c : Cur) (g' : Game.t) (c' : Cur) :
  sane g -> Game.handle_event e fuel g ev c = Some (g', c') -> sane g'.
Proof.
  intros Hs H.
  destruct ev as [| [| | |] | button |]; cbn [Game.handle_event] in H;
    try (injection H as <- _; exact Hs);
    try (injection H as <- _; destruct Hs as (S1 & S2 & S3 & S4 & S5 & S6);
         apply sane_intro; assumption).
  - destruct (Game.game_over g); [exact (init_sane _ _ _ _ _ H) |].
    injection H as <- _. exact Hs.
  - destruct (_ && _).
    + injection H as H.
      assert (Hg : g' = fst (Game.shoot e g c)) by (rewrite H; reflexivity).
      rewrite Hg. apply shoot_sane. exact Hs.
    + injection H as <- _. exact Hs.
Qed.

Lemma handle_events_sane (e : Env) (fuel : nat) (evs : list Event) :
  forall g c g' c',
    sane g -> Game.handle_events e fuel g evs c = Some (g', c') -> sane g'.
Proof.
  induction evs as [| ev rest IH]; intros g c g' c' Hs H;
    cbn [Game.handle_events] in H.
  - injection H as <- _. exact Hs.
  - destruct (Game.handle_event e fuel g ev c) as [[g1 c1] |] eqn:E;
      [| discriminate].
    apply (IH g1 c1 g' c'); [| exact H].
    apply (handle_event_sane _ _ _ _ _ _ _ Hs E).
Qed.

Lemma frame_sane (e : Env) (fuel : nat) (g : Game.t) (i : Loop.Input) (c : Cur)
  (g' : Game.t) (scene : Render.Scene) (c' : Cur) :
  unit_range e -> sane g ->
  Loop.frame e fuel g i c = Some (g', scene, c') -> sane g'.
Proof.
  intros Hu Hs H. unfold Loop.frame in H.
  destruct (Game.handle_events e fuel g (Loop.events i) c) as [[g1 c1] |] eqn:E1;
    [| discriminate].
  destruct (Game.update e fuel g1 _ _ _ c1) as [[g2 c2] |] eqn:E2;
    [| discriminate].
  destruct (Render.draw e g2 c2) as [sc c3].
  injection H as <- _ _.
  apply (update_sane _ _ _ _ _ _ _ _ _ Hu (handle_events_sane _ _ _ _ _ _ _ Hs E1) E2).
Qed.

Lemma run_sane (e : Env) (fuel : nat) (inputs : list Loop.Input) :
  unit_range e ->
  forall g c g' scenes c',
    sane g -> Loop.run e fuel g inputs c = Some (g', scenes, c') -> sane g'.
Proof.
  intros Hu. induction inputs as [| i rest IH]; intros g c g' scenes c' Hs H;
    cbn [Loop.run] in H.
  - injection H as <- _ _. exact Hs.
  - destruct (Game.running g).
    + destruct (Loop.frame e fuel g i c) as [[[g1 sc] c1] |] eqn:E;
        [| discriminate].
      destruct (Loop.run e fuel g1 rest c1) as [[[g2 scs] c2] |] eqn:E2;
        [| discriminate].
      injection H as <- _ _.
      apply (IH g1 c1 g2 scs c2); [| exact E2].
      apply (frame_sane _ _ _ _ _ _ _ _ Hu Hs E).
    + injection H as <- _ _. exact Hs.
Qed.

(** X21. The session invariant.  Wherever a run of the program stands
    (after any number of iterations of the main loop, the generator being
    in range), the score is non-negative, lives is between 0 and 3, the
    game is over exactly when lives is 0, every asteroid has a radius from
    ASTEROID_MIN_RADIUS to ASTEROID_MAX_RADIUS, every laser has radius 3
    and the ship radius 12.  The invariant holds after the constructor and
    is kept by every batch of events and by every tick. *)
Theorem session_invariant :
  forall (e : Env) (fuel : nat),
    unit_range e ->
    (forall inputs c g scenes c',
        Loop.main e fuel inputs c = Some (g, scenes, c') -> sane g)
    /\ (forall c g c', Game.init e fuel c = Some (g, c') -> sane g)
    /\ (forall g evs c g' c',
          sane g -> Game.handle_events e fuel g evs c = Some (g', c') -> sane g')
    /\ (forall g keys dt mouse_pos c g' c',
          sane g ->
          Game.update e fuel g keys dt mouse_pos c = Some (g', c') -> sane g').
Proof.
  intros e fuel Hu. split; [| split; [| split]].
  - intros inputs c g scenes c' H. unfold Loop.main in H.
    destruct (Game.init e fuel c) as [[g0 c2] |] eqn:E; [| discriminate].
    apply (run_sane e fuel inputs Hu g0 c2 g scenes c'); [| exact H].
    apply (init_sane _ _ _ _ _ E).
  - intros c g c' H. apply (init_sane _ _ _ _ _ H).
  - intros g evs c g' c' Hs H. apply (handle_events_sane _ _ _ _ _ _ _ Hs H).
  - intros g keys dt mouse_pos c g' c' Hs H.
    apply (update_sane _ _ _ _ _ _ _ _ _ Hu Hs H).
Qed.

Lemma session_invariant_witness :
  exists fuel g c',
    Game.init (env_const 0) fuel cur0 = Some (g, c') /\ sane g.
Proof.
  destruct (init_ends (env_const 0) cur0 (unit_range_const 0)) as [fuel0 H0].
  { apply far_corner; reflexivity. }
  destruct (H0 fuel0 (Nat.le_refl _)) as (g & c' & Hc).
  exists fuel0, g, c'.
  split; [exact Hc |].
  destruct (session_invariant (env_const 0) fuel0 (unit_range_const 0))
    as (_ & Hinit & _).
  apply (Hinit cur0 g c'). exact Hc.
Defined.

(** ** Event batches *)

Lemma shoot_shape (e : Env) (g : Game.t) (c : Cur) :
  exists new,
    Game.lasers (fst (Game.shoot e g c)) = Game.lasers g ++ new
    /\ (length new <= 1)%nat
    /\ Game.ship (fst (Game.shoot e g c)) = Game.ship g
    /\ Game.asteroids (fst (Game.shoot e g c)) = Game.asteroids g
    /\ Game.score (fst (Game.shoot e g c)) = Game.score g
    /\ Game.lives (fst (Game.shoot e g c)) = Game.lives g
    /\ Game.running (fst (Game.shoot e g c)) = Game.running g
    /\ Game.paused (fst (Game.shoot e g c)) = Game.paused g
    /\ Game.game_over (fst (Game.shoot e g c)) = Game.game_over g.
Proof.
  destruct (Z_lt_ge_dec (ticks e (clk c) - Game.last_shot g) LASER_COOLDOWN)
    as [Hlt | Hge].
  - rewrite shoot_rejected by exact Hlt. exists [].
    rewrite app_nil_r. simpl. repeat split. lia.
  - rewrite shoot_accepted by lia.
    eexists [_]. simpl. repeat split. lia.
Qed.

Lemma handle_events_playing (e : Env) (fuel : nat) (evs : list Event) :
  forall g c,
    Game.game_over g = false ->
    exists g' c' new,
      Game.handle_events e fuel g evs c = Some (g', c')
      /\ Game.lasers g' = Game.lasers g ++ new
      /\ (length new <= length (filter is_click evs))%nat
      /\ Game.ship g' = Game.ship g
      /\ Game.asteroids g' = Game.asteroids g
      /\ Game.score g' = Game.score g
      /\ Game.lives g' = Game.lives g
      /\ Game.game_over g' = false
      /\ Game.running g' = Game.running g && negb (existsb is_quit evs)
      /\ Game.paused g' = toggled (Game.paused g) evs.
Proof.
  induction evs as [| ev rest IH]; intros g c Hover; cbn [Game.handle_events].
  - exists g, c, []. rewrite app_nil_r, andb_true_r. simpl.
    repeat split; try assumption. lia.
  - assert (Hstep : exists g1 c1 new1,
               Game.handle_event e fuel g ev c = Some (g1, c1)
               /\ Game.lasers g1 = Game.lasers g ++ new1
               /\ (length new1 <= (if is_click ev then 1 else 0))%nat
               /\ Game.ship g1 = Game.ship g
               /\ Game.asteroids g1 = Game.asteroids g
               /\ Game.score g1 = Game.score g
               /\ Game.lives g1 = Game.lives g
               /\ Game.game_over g1 = false
               /\ Game.running g1 = Game.running g && negb (is_quit ev)
               /\ Game.paused g1 = (if is_pause ev then negb (Game.paused g)
                                    else Game.paused g)).
    { destruct ev as [| [| | |] | button |]; cbn [Game.handle_event];
        try rewrite Hover;
        try (eexists; eexists; exists []; split; [reflexivity |];
             rewrite app_nil_r; simpl;
             repeat split; try assumption; try lia;
             try (rewrite andb_true_r; reflexivity);
             try (rewrite andb_false_r; reflexivity)).
      cbn [negb]. rewrite andb_true_r.
      destruct (button =? 1)%Z eqn:Hb; cbn [andb].
      - destruct (Game.paused g) eqn:Hp; cbn [negb].
        + eexists; eexists; exists []; split; [reflexivity |].
          rewrite app_nil_r. simpl. rewrite Hb, andb_true_r.
          repeat split; try assumption; lia.
        + destruct (shoot_shape e g c)
            as (new & H1 & H2 & H3 & H4 & H5 & H6 & H7 & H8 & H9).
          exists (fst (Game.shoot e g c)), (snd (Game.shoot e g c)), new.
          rewrite <- surjective_pairing. simpl. rewrite Hb, andb_true_r.
          repeat split; try assumption; try congruence.
      - eexists; eexists; exists []; split; [reflexivity |].
        rewrite app_nil_r. simpl. rewrite Hb, andb_true_r.
        repeat split; try assumption; lia. }
    destruct Hstep as (g1 & c1 & new1 & E1 & L1 & N1 & S1 & A1 & Sc1 & Lv1
                       & O1 & R1 & P1).
    rewrite E1.
    destruct (IH g1 c1 O1) as (g' & c' & new & E & L & N & S & A & Sc & Lv
                               & O & R & P).
    exists g', c', (new1 ++ new). split; [exact E |].
    split; [rewrite L, L1, app_assoc; reflexivity |].
    split.
    { rewrite length_app. cbn [filter]. destruct (is_click ev); simpl; lia. }
    repeat split; try congruence.
    + rewrite R, R1. cbn [existsb]. rewrite negb_orb, andb_assoc. reflexivity.
    + rewrite P, P1. reflexivity.
Qed.

(** X22. While the game is not over, a batch of events can only add
    lasers and flip flags: the batch is always handled, the ship, the
    asteroids, the score, the lives and game_over are untouched, the
    lasers are the old ones followed by at most one new laser per
    left-button click, [running] stays set exactly when it was set and the
    batch holds no quit (QUIT or Escape), and [paused] is flipped once per
    P press.  In particular the R key does nothing. *)
Theorem events_while_playing :
  forall (e : Env) (fuel : nat) (g : Game.t) (evs : list Event) (c : Cur),
    Game.game_over g = false ->
    exists g' c' new,
      Game.handle_events e fuel g evs c = Some (g', c')
      /\ Game.lasers g' = Game.lasers g ++ new
      /\ (length new <= length (filter is_click evs))%nat
      /\ Game.ship g' = Game.ship g
      /\ Game.asteroids g' = Game.asteroids g
      /\ Game.score g' = Game.score g
      /\ Game.lives g' = Game.lives g
      /\ Game.game_over g' = false
      /\ Game.running g' = Game.running g && negb (existsb is_quit evs)
      /\ Game.paused g' = toggled (Game.paused g) evs.
Proof. intros e fuel g evs c H. apply handle_events_playing. exact H. Qed.

Lemma events_while_playing_witness :
  exists g' c',
    Game.handle_events env_clock50 0 (bare_game 0 3 false false)
                       click_pause_quit cur0 = Some (g', c')
    /\ (length (Game.lasers g') <= 1)%nat
    /\ Game.running g' = false
    /\ Game.paused g' = true
    /\ Game.lives g' = 3%Z.
Proof.
  destruct (events_while_playing env_clock50 0 (bare_game 0 3 false false)
                                 click_pause_quit cur0 eq_refl)
    as (g' & c' & new & E & L & N & _ & _ & _ & Lv & _ & R & P).
  exists g', c'. split; [exact E |].
  split; [rewrite L; simpl in *; lia |].
  split; [exact R |]. split; [exact P | exact Lv].
Defined.

Lemma with_flags_same (g : Game.t) :
  with_flags g (Game.running g) (Game.paused g) = g.
Proof. destruct g. reflexivity. Qed.

Lemma handle_event_over (e : Env) (fuel : nat) (g : Game.t) (ev : Event)
  (c : Cur) :
  Game.game_over g = true -> is_restart ev = false ->
  Game.handle_event e fuel g ev c
  = Some (with_flags g (Game.running g && negb (is_quit ev))
                     (if is_pause ev then negb (Game.paused g)
                      else Game.paused g), c).
Proof.
  intros Hover Hr.
  destruct ev as [| [| | |] | button |]; cbn [Game.handle_event is_quit is_pause negb];
    try discriminate;
    rewrite ?andb_false_r, ?andb_true_r, ?with_flags_same; try reflexivity.
  rewrite Hover. cbn [negb]. rewrite andb_false_r. reflexivity.
Qed.

Lemma handle_events_over (e : Env) (fuel : nat) (evs : list Event) :
  forall g c,
    Game.game_over g = true -> existsb is_restart evs = false ->
    Game.handle_events e fuel g evs c = Some (flags_after g evs, c).
Proof.
  induction evs as [| ev rest IH]; intros g c Hover Hr;
    cbn [Game.handle_events].
  - unfold flags_after. simpl. rewrite andb_true_r, with_flags_same. reflexivity.
  - cbn [existsb] in Hr. apply orb_false_elim in Hr. destruct Hr as [Hev Hrest].
    rewrite handle_event_over by assumption.
    rewrite IH by assumption.
    unfold flags_after, with_flags, toggled.
    cbn [Game.ship Game.lasers Game.asteroids Game.score Game.lives
         Game.last_shot Game.running Game.paused Game.game_over existsb
         fold_left].
    rewrite negb_orb, andb_assoc. reflexivity.
Qed.

Lemma handle_events_app (e : Env) (fuel : nat) (pre post : list Event) :
  forall g c,
    Game.handle_events e fuel g (pre ++ post) c
    = match Game.handle_events e fuel g pre c with
      | Some (g1, c1) => Game.handle_events e fuel g1 post c1
      | None => None
      end.
Proof.
  induction pre as [| ev rest IH]; intros g c; cbn [app Game.handle_events].
  - reflexivity.
  - destruct (Game.handle_event e fuel g ev c) as [[g1 c1] |]; [apply IH |].
    reflexivity.
Qed.

(** X23. Once the game is over only a restart changes the play.  A batch
    without the R key leaves everything but the flags [running] and
    [paused] as it was (clicks fire nothing and read no clock).  The first
    R key of a batch runs the constructor again, sounds included, and so
    discards what came before it in the batch, a quit request included:
    the events after it are handled from the fresh session. *)
Theorem events_while_over :
  forall (e : Env) (fuel : nat) (g : Game.t) (c : Cur),
    Game.game_over g = true ->
    (forall evs,
        existsb is_restart evs = false ->
        Game.handle_events e fuel g evs c = Some (flags_after g evs, c))
    /\ (forall pre post,
          existsb is_restart pre = false ->
          Game.handle_events e fuel g (pre ++ KEYDOWN K_r :: post) c
          = match Game.init e fuel c with
            | Some (g0, c0) => Game.handle_events e fuel g0 post c0
            | None => None
            end).
Proof.
  intros e fuel g c Hover. split.
  - intros evs Hr. apply handle_events_over; assumption.
  - intros pre post Hr.
    rewrite handle_events_app, handle_events_over by assumption.
    cbn [Game.handle_events Game.handle_event flags_after with_flags
         Game.game_over].
    rewrite Hover.
    destruct (Game.init e fuel c) as [[g0 c0] |]; reflexivity.
Qed.

Lemma events_while_over_witness :
  Game.handle_events (env_const 0) 0 over_game [MOUSEBUTTONDOWN 1; QUIT] cur0
  = Some (with_flags over_game false false, cur0)
  /\ exists fuel g' c',
       Game.handle_events (env_const 0) fuel over_game quit_then_restart cur0
       = Some (g', c')
       /\ Game.running g' = true /\ Game.score g' = 0%Z.
Proof.
  destruct (events_while_over (env_const 0) 0 over_game cur0 eq_refl)
    as [Hflags _].
  split; [apply (Hflags [MOUSEBUTTONDOWN 1; QUIT]); reflexivity |].
  destruct (init_ends (env_const 0) cur0 (unit_range_const 0)) as [fuel0 H0].
  { apply far_corner; reflexivity. }
  destruct (H0 fuel0 (Nat.le_refl _)) as (g' & c' & Hg).
  exists fuel0, g', c'.
  destruct (events_while_over (env_const 0) fuel0 over_game cur0 eq_refl)
    as [_ Hwipe].
  specialize (Hwipe [QUIT] [] eq_refl). cbn [app] in Hwipe.
  unfold quit_then_restart. rewrite Hwipe.
  rewrite Hg. cbn [Game.handle_events].
  split; [reflexivity |].
  apply init_sound in Hg. destruct Hg as (-> & _). split; reflexivity.
Defined.

(** ** Iterations of the main loop *)

Lemma update_keeps_flags (e : Env) (fuel : nat) (g : Game.t) (keys : Keys)
  (dt : Z) (mouse_pos : Z * Z) (c : Cur) (g' : Game.t) (c' : Cur) :
  Game.update e fuel g keys dt mouse_pos c = Some (g', c') ->
  Game.running g' = Game.running g /\ Game.paused g' = Game.paused g
  /\ Game.last_shot g' = Game.last_shot g.
Proof.
  intros H.
  destruct (Game.game_over g || Game.paused g) eqn:Hrun.
  { rewrite update_paused_or_over_frozen in H by exact Hrun.
    injection H as <- _. repeat split. }
  rewrite update_running in H by exact Hrun.
  rewrite after_collisions_steps in H.
  destruct (before_ship_phase e g keys dt mouse_pos c)
    as (_ & _ & _ & B4 & B5 & B6 & _).
  set (m := Game.motion_phase e g keys dt mouse_pos c) in *.
  set (g2 := fst (Game.laser_phase e (fst m) (snd m))) in *.
  set (c2 := snd (Game.laser_phase e (fst m) (snd m))) in *.
  destruct (ship_phase_cases e g2 c2) as [Hs | (_ & _ & Hs)];
    rewrite Hs in H; cbn [fst snd] in H;
    apply wave_phase_frame in H; destruct H as (-> & _);
    cbn [Game.with_asteroids after_hit Game.running Game.paused Game.last_shot];
    rewrite B4, B5, B6; repeat split.
Qed.

(** X24. A game that is over stays as it is until R is pressed: an
    iteration of the main loop whose events hold no R key returns the
    session with only the flags [running] and [paused] possibly changed,
    whatever keys are held, wherever the pointer is and however many
    clicks the batch holds; the iteration is drawn from that session. *)
Theorem frame_frozen_when_over :
  forall (e : Env) (fuel : nat) (g : Game.t) (i : Loop.Input) (c : Cur),
    Game.game_over g = true ->
    existsb is_restart (Loop.events i) = false ->
    let g' := flags_after g (Loop.events i) in
    Loop.frame e fuel g i c
    = Some (g', fst (Render.draw e g' c), snd (Render.draw e g' c))
    /\ same_play g g'.
Proof.
  intros e fuel g i c Hover Hr g'. split.
  - unfold Loop.frame. rewrite handle_events_over by assumption.
    fold g'. rewrite update_paused_or_over_frozen.
    + destruct (Render.draw e g' c). reflexivity.
    + unfold g', flags_after, with_flags. cbn [Game.game_over].
      rewrite Hover. reflexivity.
  - unfold same_play, g', flags_after, with_flags. simpl. repeat split.
Qed.

Lemma frame_frozen_when_over_witness :
  exists scene c',
    Loop.frame (env_const 0) 0 over_game busy_input cur0
    = Some (over_game, scene, c').
Proof.
  destruct (frame_frozen_when_over (env_const 0) 0 over_game busy_input cur0
                                   eq_refl eq_refl) as [H _].
  cbv zeta in H. eexists. eexists. rewrite H. reflexivity.
Defined.

(** X25. A quit ends the loop at the end of its iteration.  If the game
    is running and not over and the events of an iteration hold QUIT or
    Escape, then that iteration is still carried out in full (events,
    tick, drawing), it leaves [running] cleared, and no later iteration is
    run, whatever inputs are waiting. *)
Theorem quit_ends_the_loop :
  forall (e : Env) (fuel : nat) (g : Game.t) (i : Loop.Input)
         (rest : list Loop.Input) (c : Cur)
         (g1 : Game.t) (scene : Render.Scene) (c1 : Cur),
    Game.running g = true ->
    Game.game_over g = false ->
    existsb is_quit (Loop.events i) = true ->
    Loop.frame e fuel g i c = Some (g1, scene, c1) ->
    Game.running g1 = false
    /\ Loop.run e fuel g (i :: rest) c = Some (g1, [scene], c1).
Proof.
  intros e fuel g i rest c g1 scene c1 Hrun Hover Hq Hf.
  assert (Hstop : Game.running g1 = false).
  { unfold Loop.frame in Hf.
    destruct (handle_events_playing e fuel (Loop.events i) g c Hover)
      as (g0 & c0 & new & E & _ & _ & _ & _ & _ & _ & _ & R & _).
    rewrite E in Hf.
    destruct (Game.update e fuel g0 _ _ _ c0) as [[g2 c2] |] eqn:E2;
      [| discriminate].
    destruct (Render.draw e g2 c2) as [sc c3]. injection Hf as <- _ _.
    apply update_keeps_flags in E2. destruct E2 as (-> & _).
    rewrite R, Hq, andb_false_r. reflexivity. }
  split; [exact Hstop |].
  cbn [Loop.run]. rewrite Hrun, Hf.
  destruct rest as [| i2 rest2]; cbn [Loop.run]; [reflexivity |].
  rewrite Hstop. reflexivity.
Qed.

Lemma quit_ends_the_loop_witness :
  exists scene c1,
    Loop.run (env_const 0) 0 paused_game [quitting_input; busy_input] cur0
    = Some (with_flags paused_game false true, [scene], c1).
Proof.
  assert (Hf : exists scene c1,
             Loop.frame (env_const 0) 0 paused_game quitting_input cur0
             = Some (with_flags paused_game false true, scene, c1)).
  { unfold Loop.frame.
    cbn [Game.handle_events Game.handle_event Loop.events quitting_input].
    rewrite update_paused_or_over_frozen by reflexivity.
    destruct (Render.draw _ _ _) as [sc c3]. exists sc, c3. reflexivity. }
  destruct Hf as (scene & c1 & Hf). exists scene, c1.
  apply (quit_ends_the_loop (env_const 0) 0 paused_game quitting_input
           [busy_input] cur0 _ scene c1); try reflexivity.
  exact Hf.
Defined.

(** ** Starting the program *)

(** X26. The constructor always returns: with the generator in range
    and not refusing spawn positions for ever, [Game()] synthesises its
    three sounds without an exception (every frame of each fits in 16
    bits), which makes 39690 requests to the random generator for the
    explosion noise, and then spawns the first wave from the generator as
    the noise left it.  The session it hands to the main loop has 5
    asteroids, 3 lives, score 0, no laser, the ship at its spawn, and is
    running, neither paused nor over. *)
Theorem program_starts :
  forall (e : Env) (c : Cur),
    unit_range e -> eventually_far e Ship.init ->
    (exists shoot explode thrust,
        Audio.make_sounds e c
        = Some (shoot, explode, thrust, advance c (Z.to_nat 39690))
        /\ Forall frame_ok shoot /\ Forall frame_ok explode
        /\ Forall frame_ok thrust)
    /\ (forall fuel,
          Game.init e fuel c
          = Game._spawn_wave e fuel Game.fresh ASTEROID_START_COUNT
                             (advance c (Z.to_nat 39690)))
    /\ exists fuel0, forall fuel, (fuel0 <= fuel)%nat ->
         exists g c',
           Game.init e fuel c = Some (g, c')
           /\ Loop.main e fuel [] c = Some (g, [], c')
           /\ length (Game.asteroids g) = 5%nat
           /\ g = Game.with_asteroids Game.fresh (Game.asteroids g)
           /\ Game.lives g = 3%Z /\ Game.score g = 0%Z
           /\ Game.lasers g = [] /\ Game.ship g = Ship.init
           /\ Game.paused g = false /\ Game.game_over g = false
           /\ Game.running g = true.
Proof.
  intros e c Hu Hev.
  split; [exact (make_sounds_ok e c Hu) |].
  split; [intros fuel; apply init_spec; exact Hu |].
  destruct (init_ends e c Hu Hev) as [fuel0 H0].
  exists fuel0. intros fuel Hle.
  destruct (H0 fuel Hle) as (g & c' & Hc).
  exists g, c'.
  split; [exact Hc |].
  split; [unfold Loop.main; rewrite Hc; reflexivity |].
  apply init_sound in Hc. destruct Hc as (Hrec & Hlen & _).
  split; [exact Hlen |].
  assert (Hrec' : g = Game.with_asteroids Game.fresh (Game.asteroids g)).
  { rewrite Hrec at 1. rewrite Hrec. reflexivity. }
  split; [exact Hrec' |].
  rewrite Hrec'.
  cbn [Game.with_asteroids Game.fresh Game.lives Game.score Game.lasers
       Game.ship Game.paused Game.game_over Game.running].
  unfold LIVES. repeat split.
Qed.

Lemma program_starts_witness :
  exists fuel g c',
    Loop.main (env_const 0) fuel [] cur0 = Some (g, [], c')
    /\ length (Game.asteroids g) = 5%nat /\ Game.lives g = 3%Z.
Proof.
  destruct (program_starts (env_const 0) cur0 (unit_range_const 0))
    as (_ & _ & fuel0 & H).
  { apply far_corner; reflexivity. }
  destruct (H fuel0 (Nat.le_refl _))
    as (g & c' & _ & Hm & Hlen & _ & Hl & _).
  exists fuel0, g, c'. repeat split; assumption.
Defined.
